(** * VibeCommerce: the cart backend and its client, embedded and verified

    The Express/Mongoose server of the repository (the JavaScript that follows
    the project description in [README.md]) is translated function by
    function.  Every route handler is an [async] function that awaits a few
    Mongoose queries inside one [try]/[catch]; it is embedded twice: as a
    computation in a state-and-exception monad over the two collections,
    which is the handler run from its first line to its answer, and as a
    task that is resumed once per [await], so that the handlers of several
    requests can take turns.

    Conventions of the embedding:
    - a JavaScript [Number] is a finite IEEE 754 double, given by its exact
      value, a rational ([Qc], canonical fractions); [+], [-] and [*]
      round their exact result to the nearest double, ties to even;
      infinities and NaN are not represented, so a result beyond the
      largest double is outside the model;
    - a Mongo [ObjectId] is a number drawn from a counter, so that
      [new ObjectId()] is fresh;
    - a collection is the list of its documents in insertion order;
    - every awaited query may reject: the world carries a schedule of
      outcomes, one per query, consumed in order. *)

From Stdlib Require Import Lqa QArith Qcanon Qround Qpower Floats.
From stdpp Require Import base numbers list strings relations.

Local Open Scope string_scope.
Local Open Scope Qc_scope.

(** ** Numbers *)

(** The integer part of the binary logarithm of [x], for [x] positive. *)
Definition ilog2 (x : Q) : Z :=
  if Qle_bool 1 x then Z.log2 (Qfloor x)
  else (- Z.log2_up (Qceiling (/ x)))%Z.

(** The integer nearest to [y], the even one when two are as near. *)
Definition nearest_even (y : Q) : Z :=
  let f := Qfloor y in
  match Qcompare (y - inject_Z f) (1 # 2) with
  | Lt => f
  | Gt => (f + 1)%Z
  | Eq => if Z.even f then f else (f + 1)%Z
  end.

(** The binary64 number nearest to [x], for [x] positive: a multiple of
    [2 ^ e] by an integer of at most 53 bits, where [e] is at least -1074
    (below [2 ^ -1022] the numbers are subnormal). *)
Definition round_binary64 (x : Q) : Q :=
  let e := Z.max (ilog2 x - 52) (-1074) in
  (inject_Z (nearest_even (x / 2 ^ e)) * 2 ^ e)%Q.

(** The double that an exact result is rounded to.  Rounding is symmetric
    around zero. *)
Definition double (x : Q) : Qc :=
  match Qnum x with
  | Z0 => 0
  | Zpos _ => Q2Qc (round_binary64 x)
  | Zneg _ => - Q2Qc (round_binary64 (- x)%Q)
  end.

(** [Number.MAX_VALUE].  Where [double] gives more, JavaScript gives
    [Infinity]. *)
Definition MAX_VALUE : Qc := Q2Qc (inject_Z (2 ^ 53 - 1) * 2 ^ 971)%Q.

Definition finite (x : Qc) : Prop := - MAX_VALUE ≤ x ∧ x ≤ MAX_VALUE.

(** [x + y], [x - y] and [x * y] *)
Definition js_add (x y : Qc) : Qc := double (this x + this y)%Q.
Definition js_sub (x y : Qc) : Qc := double (this x - this y)%Q.
Definition js_mul (x y : Qc) : Qc := double (this x * this y)%Q.

(** [parseFloat(s)] for a decimal numeral [s], given as the number it
    writes. *)
Definition parseFloat (s : Qc) : Qc := double (this s).

(** The value of a finite [float], the binary64 of the kernel, against
    which [double] is checked below. *)
Definition float_value (f : float) : option Q :=
  match Prim2SF f with
  | S754_zero _ => Some 0%Q
  | S754_finite s m e =>
      Some (Qred ((if s then -1 else 1) * inject_Z (Z.pos m) * 2 ^ e))%Q
  | _ => None
  end.

(** [op_q] on the values of [a] and [b] is what the kernel computes for
    [op_f a b]; where the kernel gives an infinity, [op_q] gives a number
    beyond [MAX_VALUE]. *)
Definition agrees (op_f : float → float → float) (op_q : Qc → Qc → Qc)
    (a b : float) : bool :=
  match float_value a, float_value b with
  | Some x, Some y =>
      match float_value (op_f a b) with
      | Some z => Qeq_bool z (this (op_q (Q2Qc x) (Q2Qc y)))
      | None => negb (bool_decide (finite (op_q (Q2Qc x) (Q2Qc y))))
      end
  | _, _ => false
  end.

(** Doubles of all sizes, subnormal numbers and the largest double among
    them. *)
Definition samples : list float :=
  [0; 1; 3; 1.5; 18.5; 1299 / 100; 13 / 10; 1 / 10; 1 / 3; 19485 / 1000;
   9007199254740992; 9007199254740994; 1e22;
   0x1p-1074; 0x3p-1074; 0x1.fffffffffffffp-1023;
   0x1.fffffffffffffp+1023; 0x1p+512; 0x1.8p-537;
   -1.5; - (1299 / 100); -0x1.fffffffffffffp+1023]%float.

(** ** Documents *)

Definition ObjectId := N.

(** [productSchema]: name, price, image (all required). *)
Record Product := mkProduct {
  p_id : ObjectId;
  name : string;
  price : Qc;
  image : string
}.

(** [cartItemSchema]: a reference to a product and a quantity, a [Number]
    with [min: 1]. *)
Record CartItem := mkCartItem {
  c_id : ObjectId;
  product : ObjectId;
  quantity : Qc
}.

(** A cart item after [populate('product')]: the reference is replaced by the
    product document, or by [null] when no product has that id. *)
Record Populated := mkPopulated {
  pop_id : ObjectId;
  pop_product : option Product;
  pop_quantity : Qc
}.

(** An entry of [MOCK_PRODUCTS]: a product before Mongo gives it an [_id]. *)
Record ProductData := mkData {
  d_name : string;
  d_price : Qc;
  d_image : string
}.

(** The prices are [Number] literals: 25.00, 55.00, 18.50, 22.00 and 30.00
    are doubles, 12.99 is not and stands for the double nearest to it. *)
Definition MOCK_PRODUCTS : list ProductData :=
  [ mkData "Classic Vibe Tee" (Q2Qc 25)
      "https://placehold.co/400x400/2D3748/E2E8F0?text=Vibe+Tee";
    mkData "Retro Vibe Hoodie" (Q2Qc 55)
      "https://placehold.co/400x400/4A5568/E2E8F0?text=Vibe+Hoodie";
    mkData "Vibe Snapback Cap" (Q2Qc (37 # 2))
      "https://placehold.co/400x400/718096/E2E8F0?text=Vibe+Cap";
    mkData "Aesthetic Vibe Mug" (double (1299 # 100))
      "https://placehold.co/400x400/2D3748/E2E8F0?text=Vibe+Mug";
    mkData "Vibe-On-The-Go Tumbler" (Q2Qc 22)
      "https://placehold.co/400x400/4A5568/E2E8F0?text=Vibe+Tumbler";
    mkData "Minimalist Vibe Print" (Q2Qc 30)
      "https://placehold.co/400x400/718096/E2E8F0?text=Vibe+Print" ].

(** ** The world: both collections, the id counter, the clock and the
    schedule of query outcomes ([true] = this query rejects). *)
Record World := mkWorld {
  products : list Product;
  cartItems : list CartItem;
  next_id : ObjectId;
  clock : N;
  faults : list bool
}.

Definition set_products (ps : list Product) (w : World) : World :=
  mkWorld ps (cartItems w) (next_id w) (clock w) (faults w).
Definition set_cartItems (cs : list CartItem) (w : World) : World :=
  mkWorld (products w) cs (next_id w) (clock w) (faults w).
Definition set_next_id (n : ObjectId) (w : World) : World :=
  mkWorld (products w) (cartItems w) n (clock w) (faults w).
Definition set_faults (fs : list bool) (w : World) : World :=
  mkWorld (products w) (cartItems w) (next_id w) (clock w) fs.

(** ** Exceptions and the monad *)

Inductive Exn :=
  | StoreFailure        (* the driver rejected the query *)
  | ValidatorFailure    (* a schema validator refused the document *)
  | DocumentNotFound.   (* save() of a document that is no longer stored *)

Inductive Outcome (A : Type) :=
  | Returned (a : A)
  | Thrown (e : Exn).
Arguments Returned {A} a.
Arguments Thrown {A} e.

Definition Io (A : Type) : Type := World → Outcome A * World.

Definition io_ret {A} (a : A) : Io A := λ w, (Returned a, w).
Definition io_bind {A B} (m : Io A) (k : A → Io B) : Io B :=
  λ w, match m w with
       | (Returned a, w') => k a w'
       | (Thrown e, w') => (Thrown e, w')
       end.
Definition throw {A} (e : Exn) : Io A := λ w, (Thrown e, w).

(** [try { body } catch (err) { handler }] *)
Definition try_catch {A} (body : Io A) (handler : Exn → Io A) : Io A :=
  λ w, match body w with
       | (Returned a, w') => (Returned a, w')
       | (Thrown e, w') => handler e w'
       end.

(** stdpp's monad notations: [x ← m; k] and [m;; k]. *)
#[global] Instance Io_ret : MRet Io := @io_ret.
#[global] Instance Io_bind : MBind Io := λ A B k m, io_bind m k.

(** One awaited query: the next scheduled outcome is consumed; a rejected
    query throws and leaves the collections as they were. *)
Definition query {A} (run : World → A * World) : Io A :=
  λ w, match faults w with
       | true :: fs => (Thrown StoreFailure, set_faults fs w)
       | false :: fs => let '(a, w') := run (set_faults fs w) in (Returned a, w')
       | [] => let '(a, w') := run w in (Returned a, w')
       end.

(** [new mongoose.Types.ObjectId()] *)
Definition new_ObjectId : Io ObjectId :=
  λ w, (Returned (next_id w), set_next_id (N.succ (next_id w)) w).

Definition get_clock : Io N := λ w, (Returned (clock w), w).

(** ** Mongoose queries *)

(** [Product.countDocuments()] *)
Definition Product_countDocuments : Io nat :=
  query (λ w, (length (products w), w)).

(** Gives the documents of [ds] consecutive ids starting at [n]. *)
Fixpoint with_ids (n : ObjectId) (ds : list ProductData) : list Product :=
  match ds with
  | [] => []
  | d :: ds' => mkProduct n (d_name d) (d_price d) (d_image d)
                  :: with_ids (N.succ n) ds'
  end.

(** [Product.insertMany(docs)]: every document gets a new id and is
    appended. *)
Definition Product_insertMany (ds : list ProductData) : Io unit :=
  query (λ w,
    (tt, set_next_id (next_id w + N.of_nat (length ds))%N
           (set_products (products w ++ with_ids (next_id w) ds) w))).

(** [Product.find({})] *)
Definition Product_find : Io (list Product) :=
  query (λ w, (products w, w)).

Definition lookup_product (ps : list Product) (id : ObjectId) : option Product :=
  find (λ p, bool_decide (p_id p = id)) ps.

(** [Product.findById(id)] *)
Definition Product_findById (id : ObjectId) : Io (option Product) :=
  query (λ w, (lookup_product (products w) id, w)).

Definition populate (ps : list Product) (c : CartItem) : Populated :=
  mkPopulated (c_id c) (lookup_product ps (product c)) (quantity c).

(** [CartItem.find({}).populate('product')]: one awaited chain, hence one
    query. *)
Definition CartItem_find_populate : Io (list Populated) :=
  query (λ w, (map (populate (products w)) (cartItems w), w)).

(** [CartItem.findOne({ product: productId })] *)
Definition CartItem_findOne (productId : ObjectId) : Io (option CartItem) :=
  query (λ w, (find (λ c, bool_decide (product c = productId)) (cartItems w), w)).

(** [CartItem.findById(id).populate('product')] *)
Definition CartItem_findById_populate (id : ObjectId) : Io (option Populated) :=
  query (λ w,
    (populate (products w) <$> find (λ c, bool_decide (c_id c = id)) (cartItems w),
     w)).

(** The validator of [cartItemSchema]: [quantity] has [min: 1]. *)
Definition validate (c : CartItem) : bool := bool_decide (1 ≤ quantity c).

(** [updateOne({ _id: id }, { $set: { quantity: q } })]: the write that
    [save()] issues for a stored document whose [quantity] was assigned.
    [None] when no document has that id. *)
Fixpoint update_quantity (id : ObjectId) (q : Qc) (cs : list CartItem)
  : option (list CartItem) :=
  match cs with
  | [] => None
  | d :: cs' =>
      if bool_decide (c_id d = id)
      then Some (mkCartItem (c_id d) (product d) q :: cs')
      else (d ::.) <$> update_quantity id q cs'
  end.

(** [doc.save()].  The document is validated first.  A document made with
    [new CartItem(...)] ([isNew]) is inserted; for a document that was read
    from the collection the modified path, [quantity], is written back.
    (Mongoose sends no write when the assigned quantity is the stored one;
    the collection is the same either way.) *)
Definition CartItem_save (isNew : bool) (c : CartItem) : Io unit :=
  if validate c then
    r ← query (λ w,
          if isNew then (true, set_cartItems (cartItems w ++ [c]) w)
          else match update_quantity (c_id c) (quantity c) (cartItems w) with
               | Some cs => (true, set_cartItems cs w)
               | None => (false, w)
               end);
    if r : bool then mret tt else throw DocumentNotFound
  else throw ValidatorFailure.

(** Removes the first document with id [id], and returns it. *)
Fixpoint remove_doc (id : ObjectId) (cs : list CartItem)
  : option CartItem * list CartItem :=
  match cs with
  | [] => (None, [])
  | d :: cs' =>
      if bool_decide (c_id d = id) then (Some d, cs')
      else let '(r, cs'') := remove_doc id cs' in (r, d :: cs'')
  end.

(** [CartItem.findByIdAndDelete(id)] *)
Definition CartItem_findByIdAndDelete (id : ObjectId) : Io (option CartItem) :=
  query (λ w, let '(r, cs) := remove_doc id (cartItems w) in
              (r, set_cartItems cs w)).

(** [CartItem.deleteMany({})] *)
Definition CartItem_deleteMany : Io unit :=
  query (λ w, (tt, set_cartItems [] w)).

(** ** Requests and responses *)

Record OrderLine := mkLine {
  l_name : string;
  l_quantity : Qc;
  l_price : Qc
}.

Record Order := mkOrder {
  o_items : list OrderLine;
  o_total : Qc;
  orderId : ObjectId;
  timestamp : N
}.

Inductive Body :=
  | ProductsBody (ps : list Product)
  | CartBody (items : list Populated) (total : Qc)
  | ItemBody (populatedItem : option Populated)
  | RemovedBody (message : string) (removedItem : CartItem)
  | ReceiptBody (success : bool) (message : string) (order : Order)
  | MessageBody (message : string).

(** What [res.status(s).json(b)] sends; [res.json(b)] sends status 200. *)
Record Response := mkResponse {
  status : nat;
  body : Body
}.

Definition json (b : Body) : Response := mkResponse 200 b.

(** [req.body] of POST /api/cart.  A field is [None] when the JSON body lacks
    it; a present [productId] is an id, a present [quantity] is a number. *)
Record CartRequest := mkReq {
  req_productId : option ObjectId;
  req_quantity : option Qc
}.

(** ** [Number.prototype.toFixed(2)] *)

(** The integer [n] for which [n / 100 - x] is closest to zero, the larger
    one when two are as close ([x] is not negative here). *)
Definition nearest_hundredth (x : Q) : Z := Qfloor (x * 100 + (1 # 2))%Q.

(** [x.toFixed(2)], as the number that the numeral writes: a negative [x]
    is rounded as [-x] and the sign put back. *)
Definition toFixed2 (x : Qc) : Qc :=
  if bool_decide (x < 0)
  then - Q2Qc (nearest_hundredth (- this x)%Q # 100)
  else Q2Qc (nearest_hundredth (this x) # 100).

(** ** The seeder *)

(** [seedDatabase]: check if db is empty, then seed. *)
Definition seedDatabase : Io unit :=
  try_catch
    (productCount ← Product_countDocuments;
     if (productCount =? 0)%nat
     then Product_insertMany MOCK_PRODUCTS
     else mret tt)
    (λ _, mret tt).

(** ** The route handlers *)

(** GET /api/products *)
Definition get_products : Io Response :=
  try_catch
    (ps ← Product_find;
     mret (json (ProductsBody ps)))
    (λ _, mret (mkResponse 500
                  (MessageBody "Server error while fetching products."))).

(** The callback of both [reduce] calls: an item whose product is [null] is
    skipped. *)
Definition add_line (acc : Qc) (item : Populated) : Qc :=
  match pop_product item with
  | Some p => js_add acc (js_mul (price p) (pop_quantity item))
  | None => acc
  end.

(** [cartItems.reduce(..., 0)] *)
Definition cart_total (items : list Populated) : Qc :=
  fold_left add_line items 0.

(** GET /api/cart *)
Definition get_cart : Io Response :=
  try_catch
    (items ← CartItem_find_populate;
     let total := cart_total items in
     mret (json (CartBody items (parseFloat (toFixed2 total)))))
    (λ _, mret (mkResponse 500
                  (MessageBody "Server error while fetching cart."))).

Definition invalid_input : Response :=
  mkResponse 400
    (MessageBody "Invalid input. Product ID and quantity > 0 required.").

(** The [try] block of POST /api/cart.  [inl r] is the early
    [return res.status(404)...]. *)
Definition post_cart_try (productId : ObjectId) (qty : Qc) : Io Response :=
  cartItem ← CartItem_findOne productId;
  saved ← match cartItem with
          | Some c =>
              let c' := mkCartItem (c_id c) (product c) qty in
              CartItem_save false c';;
              mret (inr c')
          | None =>
              p ← Product_findById productId;
              match p with
              | None =>
                  mret (inl (mkResponse 404 (MessageBody "Product not found.")))
              | Some _ =>
                  id ← new_ObjectId;
                  let c := mkCartItem id productId qty in
                  CartItem_save true c;;
                  mret (inr c)
              end
          end;
  match saved with
  | inl r => mret r
  | inr c =>
      populatedItem ← CartItem_findById_populate (c_id c);
      mret (mkResponse 201 (ItemBody populatedItem))
  end.

(** POST /api/cart: [!productId || !quantity || quantity < 1] answers 400;
    a number is falsy when it is 0. *)
Definition post_cart (req : CartRequest) : Io Response :=
  match req_productId req, req_quantity req with
  | Some productId, Some qty =>
      if bool_decide (qty = 0) || bool_decide (qty < 1)
      then mret invalid_input
      else try_catch (post_cart_try productId qty)
             (λ _, mret (mkResponse 500
                           (MessageBody "Server error while adding to cart.")))
  | _, _ => mret invalid_input
  end.

(** DELETE /api/cart/:id *)
Definition delete_cart (id : ObjectId) : Io Response :=
  try_catch
    (deletedItem ← CartItem_findByIdAndDelete id;
     match deletedItem with
     | None => mret (mkResponse 404 (MessageBody "Cart item not found."))
     | Some d => mret (json (RemovedBody "Item removed from cart." d))
     end)
    (λ _, mret (mkResponse 500
                  (MessageBody "Server error while removing from cart."))).

(** The line of the receipt for one cart item. *)
Definition order_line (item : Populated) : OrderLine :=
  mkLine (match pop_product item with
          | Some p => name p
          | None => "Unknown Item"
          end)
         (pop_quantity item)
         (match pop_product item with
          | Some p => price p
          | None => 0
          end).

(** POST /api/checkout *)
Definition post_checkout : Io Response :=
  try_catch
    (items ← CartItem_find_populate;
     let total := cart_total items in
     CartItem_deleteMany;;
     oid ← new_ObjectId;
     now ← get_clock;
     mret (json (ReceiptBody true
                   "Checkout successful! Thank you for your order."
                   (mkOrder (map order_line items) (parseFloat (toFixed2 total))
                      oid now))))
    (λ _, mret (mkResponse 500
                  (MessageBody "Server error during checkout."))).

Local Close Scope string_scope.

(** ** Running handlers *)

Definition run {A} (m : Io A) (w : World) : Outcome A * World := m w.

(** A world in which no query is scheduled to reject. *)
Definition healthy (w : World) : Prop := faults w = [].

Definition empty_world : World := mkWorld [] [] 0%N 0%N [].

(** ** Invariants of the collections *)

(** At most one line item per product reference. *)
Definition one_per_product (w : World) : Prop :=
  NoDup (map product (cartItems w)).

(** Mongo's [_id] index: ids are unique in the cart collection, and the
    counter is ahead of all of them. *)
Definition ids_unique (w : World) : Prop :=
  NoDup (map c_id (cartItems w)).

Definition ids_fresh (w : World) : Prop :=
  Forall (λ id, (id < next_id w)%N) (map c_id (cartItems w)).

(** The well-formed cart collection. *)
Definition cart_inv (w : World) : Prop :=
  one_per_product w ∧ ids_unique w ∧ ids_fresh w.

(** Every line item refers to a product of the catalog. *)
Definition refs_resolve (w : World) : Prop :=
  Forall (λ pid, is_Some (lookup_product (products w) pid))
    (map product (cartItems w)).

(** ** The server as a transition system *)

Inductive Request :=
  | GetProducts
  | GetCart
  | PostCart (req : CartRequest)
  | DeleteCart (id : ObjectId)
  | PostCheckout.

Definition handle (r : Request) : Io Response :=
  match r with
  | GetProducts => get_products
  | GetCart => get_cart
  | PostCart req => post_cart req
  | DeleteCart id => delete_cart id
  | PostCheckout => post_checkout
  end.

(** *** The handlers between their awaits

    An [async] function runs until it awaits a query, and goes on when the
    query has been answered; in the meantime the handlers of other requests
    run.  A task is a handler, or the seeder, waiting at an [await]: the
    constructor names the query that is awaited, its arguments are the local
    variables that the rest of the function reads. *)
Inductive Task :=
  | Seed_countDocuments
  | Seed_insertMany
  | Seed_end
  | Products_find
  | Cart_find
  | Post_findOne (productId : ObjectId) (qty : Qc)
  | Post_save (cartItem : CartItem)
  | Post_findById (productId : ObjectId) (qty : Qc)
  | Post_save_new (cartItem : CartItem)
  | Post_populate (id : ObjectId)
  | Delete_findByIdAndDelete (id : ObjectId)
  | Checkout_find
  | Checkout_deleteMany (items : list Populated) (total : Qc)
  | Answered (resp : Response).

(** A request arrives: the handler runs to its first [await].  Of the
    handlers, only POST /api/cart can answer before it. *)
Definition start (r : Request) : Task :=
  match r with
  | GetProducts => Products_find
  | GetCart => Cart_find
  | PostCart req =>
      match req_productId req, req_quantity req with
      | Some productId, Some qty =>
          if bool_decide (qty = 0) || bool_decide (qty < 1)
          then Answered invalid_input
          else Post_findOne productId qty
      | _, _ => Answered invalid_input
      end
  | DeleteCart id => Delete_findByIdAndDelete id
  | PostCheckout => Checkout_find
  end.

Local Open Scope string_scope.

(** The awaited query is performed and the function runs on to its next
    [await], or to its answer. *)
Definition resume (t : Task) : Io Task :=
  match t with
  | Seed_countDocuments =>
      productCount ← Product_countDocuments;
      mret (if (productCount =? 0)%nat then Seed_insertMany else Seed_end)
  | Seed_insertMany =>
      Product_insertMany MOCK_PRODUCTS;;
      mret Seed_end
  | Seed_end => mret Seed_end
  | Products_find =>
      ps ← Product_find;
      mret (Answered (json (ProductsBody ps)))
  | Cart_find =>
      items ← CartItem_find_populate;
      let total := cart_total items in
      mret (Answered (json (CartBody items (parseFloat (toFixed2 total)))))
  | Post_findOne productId qty =>
      cartItem ← CartItem_findOne productId;
      mret (match cartItem with
            | Some c => Post_save (mkCartItem (c_id c) (product c) qty)
            | None => Post_findById productId qty
            end)
  | Post_save c' =>
      CartItem_save false c';;
      mret (Post_populate (c_id c'))
  | Post_findById productId qty =>
      p ← Product_findById productId;
      match p with
      | None =>
          mret (Answered (mkResponse 404 (MessageBody "Product not found.")))
      | Some _ =>
          id ← new_ObjectId;
          mret (Post_save_new (mkCartItem id productId qty))
      end
  | Post_save_new c =>
      CartItem_save true c;;
      mret (Post_populate (c_id c))
  | Post_populate id =>
      populatedItem ← CartItem_findById_populate id;
      mret (Answered (mkResponse 201 (ItemBody populatedItem)))
  | Delete_findByIdAndDelete id =>
      deletedItem ← CartItem_findByIdAndDelete id;
      mret (Answered
              match deletedItem with
              | None => mkResponse 404 (MessageBody "Cart item not found.")
              | Some d => json (RemovedBody "Item removed from cart." d)
              end)
  | Checkout_find =>
      items ← CartItem_find_populate;
      let total := cart_total items in
      mret (Checkout_deleteMany items total)
  | Checkout_deleteMany items total =>
      CartItem_deleteMany;;
      oid ← new_ObjectId;
      now ← get_clock;
      mret (Answered (json (ReceiptBody true
                              "Checkout successful! Thank you for your order."
                              (mkOrder (map order_line items)
                                 (parseFloat (toFixed2 total)) oid now))))
  | Answered resp => mret (Answered resp)
  end.

(** The [catch] of the function that the task is in. *)
Definition caught (t : Task) : Task :=
  match t with
  | Seed_countDocuments | Seed_insertMany | Seed_end => Seed_end
  | Products_find =>
      Answered (mkResponse 500
                  (MessageBody "Server error while fetching products."))
  | Cart_find =>
      Answered (mkResponse 500 (MessageBody "Server error while fetching cart."))
  | Post_findOne _ _ | Post_save _ | Post_findById _ _ | Post_save_new _
  | Post_populate _ =>
      Answered (mkResponse 500
                  (MessageBody "Server error while adding to cart."))
  | Delete_findByIdAndDelete _ =>
      Answered (mkResponse 500
                  (MessageBody "Server error while removing from cart."))
  | Checkout_find | Checkout_deleteMany _ _ =>
      Answered (mkResponse 500 (MessageBody "Server error during checkout."))
  | Answered resp => Answered resp
  end.

Local Close Scope string_scope.

(** One turn of a task. *)
Definition advance (t : Task) (w : World) : Task * World :=
  match resume t w with
  | (Returned t', w') => (t', w')
  | (Thrown _, w') => (caught t, w')
  end.

(** A task that is given [n] turns in a row. *)
Fixpoint turns (n : nat) (t : Task) (w : World) : Task * World :=
  match n with
  | O => (t, w)
  | S n' => let '(t', w') := advance t w in turns n' t' w'
  end.

(** The server: the database and the tasks in flight (the answered ones
    stay in the list). *)
Record Server := mkServer {
  database : World;
  tasks : list Task
}.

(** What can happen: a server process connects and calls the seeder; a
    request arrives; a task in flight gets its turn; the clock advances and
    the driver fails as it pleases. *)
Inductive server_step : Server → Server → Prop :=
  | step_boot w ts :
      server_step (mkServer w ts) (mkServer w (ts ++ [Seed_countDocuments]))
  | step_request r w ts :
      server_step (mkServer w ts) (mkServer w (ts ++ [start r]))
  | step_resume i t w ts :
      ts !! i = Some t →
      server_step (mkServer w ts)
        (mkServer (advance t w).2 (<[i := (advance t w).1]> ts))
  | step_env t fs w ts :
      server_step (mkServer w ts)
        (mkServer (mkWorld (products w) (cartItems w) (next_id w) t fs) ts).

(** The worlds the server can be in, from empty collections. *)
Definition reachable (w : World) : Prop :=
  ∃ ts, rtc server_step (mkServer empty_world []) (mkServer w ts).

(** A request arrives. *)
Definition arrive (r : Request) (s : Server) : Server :=
  mkServer (database s) (tasks s ++ [start r]).

(** The task at place [i] gets a turn. *)
Definition resume_task (i : nat) (s : Server) : Server :=
  match tasks s !! i with
  | Some t =>
      mkServer (advance t (database s)).2
               (<[i := (advance t (database s)).1]> (tasks s))
  | None => s
  end.

(** The tasks get their turns in the order of [order]. *)
Definition interleave (order : list nat) (s : Server) : Server :=
  fold_left (λ s i, resume_task i s) order s.

(** ** The specification's words for the cart *)

Definition resolves (item : Populated) : bool :=
  match pop_product item with Some _ => true | None => false end.

(** price × quantity of a line whose product resolved (0 otherwise). *)
Definition line_amount (item : Populated) : Qc :=
  match pop_product item with
  | Some p => price p * pop_quantity item
  | None => 0
  end.

(** The sum, over the line items whose product resolves, of
    price × quantity. *)
Definition sum_resolved (items : list Populated) : Qc :=
  foldr Qcplus 0 (map line_amount (filter (λ i, resolves i = true) items)).

(** The same in the arithmetic of doubles: the product of each line and
    each sum of the lines so far, in the order of the cart, is rounded to
    the nearest double. *)
Definition line_amount_double (item : Populated) : Qc :=
  match pop_product item with
  | Some p => js_mul (price p) (pop_quantity item)
  | None => 0
  end.

Definition double_sum (items : list Populated) : Qc :=
  fold_left js_add
    (map line_amount_double (filter (λ i, resolves i = true) items)) 0.

(** [item] is the line item [c] joined to the catalog [ps]: it has the id
    and the quantity of [c], and its product is a product of the catalog
    with the id that [c] refers to, or [null] when the catalog has none. *)
Definition joined (ps : list Product) (c : CartItem) (item : Populated) : Prop :=
  pop_id item = c_id c ∧ pop_quantity item = quantity c ∧
  match pop_product item with
  | Some p => p ∈ ps ∧ p_id p = product c
  | None => product c ∉ map p_id ps
  end.

(** The numbers that the [reduce] computes on its way: the amount of each
    line that resolves, and the sum so far. *)
Fixpoint reduce_trace (acc : Qc) (items : list Populated) : list Qc :=
  match items with
  | [] => []
  | item :: rest =>
      match pop_product item with
      | Some p =>
          js_mul (price p) (pop_quantity item)
            :: add_line acc item :: reduce_trace (add_line acc item) rest
      | None => reduce_trace acc rest
      end
  end.

(** The total of the cart of [w] is computed without overflow. *)
Definition total_is_finite (w : World) : Prop :=
  Forall finite (reduce_trace 0 (map (populate (products w)) (cartItems w))).

(** ** A small program logic for [Io]

    [hoare P m Q E]: from a world in [P], [m] either returns [a] in a world
    in [Q a], or throws in a world in [E]. *)
Definition hoare {A} (P : World → Prop) (m : Io A)
    (Q : A → World → Prop) (E : World → Prop) : Prop :=
  ∀ w, P w → match m w with
             | (Returned a, w') => Q a w'
             | (Thrown _, w') => E w'
             end.

(** Properties that speak of the collections and the counter only. *)
Class StoreOnly (P : World → Prop) : Prop :=
  store_only : ∀ fs w, P w → P (set_faults fs w).

(** An operation keeps [P]: whatever the schedule of query outcomes, and
    whether it returns or throws. *)
Definition keeps {A} (P : World → Prop) (m : Io A) : Prop :=
  hoare P m (λ _, P) P.

(** The invariants can be decided, so they can be checked on a given
    world by computation. *)
#[global] Instance one_per_product_dec w : Decision (one_per_product w).
Proof. unfold one_per_product. apply _. Defined.

#[global] Instance ids_unique_dec w : Decision (ids_unique w).
Proof. unfold ids_unique. apply _. Defined.

#[global] Instance cart_inv_dec w : Decision (cart_inv w).
Proof. unfold cart_inv, one_per_product, ids_unique, ids_fresh. apply _. Defined.

(** The outcome of a checkout whose read succeeds and whose clear is
    rejected: the [catch] answers 500; no receipt is made. *)
Definition checkout_error : Response :=
  mkResponse 500 (MessageBody "Server error during checkout."%string).

(** The total of a cart response. *)
Definition total_of (r : Outcome Response) : option Qc :=
  match r with
  | Returned (mkResponse _ (CartBody _ t)) => Some t
  | _ => None
  end.

(** ** Sample worlds *)

(** The store after the first start of the server. *)
Definition seeded : World := (run seedDatabase empty_world).2.

(** One mug (12.99) and three caps (18.50 each) in the cart. *)
Definition mug_and_caps : World :=
  (run (post_cart (mkReq (Some 2%N) (Some (Q2Qc 3))))
     (run (post_cart (mkReq (Some 3%N) (Some (Q2Qc 1)))) seeded).2).2.

(** A cart with a line item whose product is not in the catalog. *)
Definition dangling : World :=
  mkWorld [] [mkCartItem 0%N 7%N (Q2Qc 1)] 1%N 0%N [].

(** [mug_and_caps], with a driver that answers the next query and rejects
    the one after it. *)
Definition clear_fails : World := set_faults [false; true] mug_and_caps.

(** One and a half mugs in the cart. *)
Definition one_and_a_half_mugs : World :=
  (run (post_cart (mkReq (Some 3%N) (Some (Q2Qc (3 # 2))))) seeded).2.

(** One and a half mugs, and two of a product that the catalog does not
    have. *)
Definition with_lost_product : World :=
  set_next_id 8%N
    (set_cartItems
       (cartItems one_and_a_half_mugs ++ [mkCartItem 7%N 42%N (Q2Qc 2)])
       one_and_a_half_mugs).

(** The server once it has started on empty collections and the seeder
    has run. *)
Definition booted : Server :=
  interleave [0; 0]%nat (mkServer empty_world [Seed_countDocuments]).

(** Two requests arrive, for two tees and for five tees. *)
Definition two_posts : Server :=
  arrive (PostCart (mkReq (Some 0%N) (Some (Q2Qc 5))))
    (arrive (PostCart (mkReq (Some 0%N) (Some (Q2Qc 2)))) booted).

(** Their handlers take turns, one query each, until both have answered. *)
Definition overlapped : Server :=
  interleave [1; 2; 1; 2; 1; 2; 1; 2]%nat two_posts.

(** ** Further invariants and views of the store *)

(** The schema's [min: 1] holds of every stored quantity. *)
Definition quantities_valid (w : World) : Prop :=
  Forall (λ q, 1 ≤ q) (map quantity (cartItems w)).

(** The statuses a handler sends. *)
Definition statuses (r : Request) : list nat :=
  match r with
  | GetProducts | GetCart | PostCheckout => [200; 500]%nat
  | PostCart _ => [201; 400; 404; 500]%nat
  | DeleteCart _ => [200; 404; 500]%nat
  end.

(** Both collections and the id counter. *)
Definition store (w : World) : list Product * list CartItem * ObjectId :=
  (products w, cartItems w, next_id w).

#[global] Instance refs_resolve_dec w : Decision (refs_resolve w).
Proof. unfold refs_resolve. apply _. Defined.

#[global] Instance quantities_valid_dec w : Decision (quantities_valid w).
Proof. unfold quantities_valid. apply _. Defined.

#[global] Instance CartItem_eq_dec : EqDecision CartItem.
Proof. solve_decision. Defined.

#[global] Instance finite_dec x : Decision (finite x).
Proof. unfold finite. apply _. Defined.

#[global] Instance total_is_finite_dec w : Decision (total_is_finite w).
Proof. unfold total_is_finite. apply _. Defined.

(** What holds of the collections also while requests overlap: line item
    ids are unique and were drawn from the counter, every line item refers
    to a product of the catalog, every quantity is at least 1. *)
Definition store_ok (w : World) : Prop :=
  ids_unique w ∧ ids_fresh w ∧ refs_resolve w ∧ quantities_valid w.

(** What a task in flight relies on: the handler that is about to save a
    new line item has found its product in the catalog, and the id that the
    line item got when it was made is not in the collection. *)
Definition task_ok (w : World) (t : Task) : Prop :=
  match t with
  | Post_save_new c =>
      is_Some (lookup_product (products w) (product c))
      ∧ (c_id c < next_id w)%N ∧ c_id c ∉ map c_id (cartItems w)
  | _ => True
  end.

(** The id of the line item that a task is about to insert. *)
Definition new_id (t : Task) : option ObjectId :=
  match t with
  | Post_save_new c => Some (c_id c)
  | _ => None
  end.

(** The store is well formed, the tasks can rely on what they found, and
    no two of them are about to insert the same id. *)
Definition server_ok (s : Server) : Prop :=
  store_ok (database s) ∧ Forall (task_ok (database s)) (tasks s)
  ∧ NoDup (omap new_id (tasks s)).

(** ** The React client ([frontend/src/App.jsx])

    The state of [App] is a record; its asynchronous handlers are
    computations over the client and the server together, in which a
    request runs the handler of the route on the server.  As [axios] does, a
    request whose answer is not a 2xx status throws.  [TypeError] is what
    reading a property of [null] or [undefined] throws. *)

Record Client := mkClient {
  ui_products : Body;             (* products: [], or the data of a response *)
  cart : option Body;             (* cart: null, or the data of a response *)
  loading : bool;
  error : option string;
  isCartOpen : bool;
  isCheckoutModalOpen : bool;
  alerts : list ObjectId          (* the order ids shown by alert() *)
}.

Record App := mkApp {
  client : Client;
  server : World
}.

Inductive JsError :=
  | TypeError
  | AxiosError (status : nat).

Inductive Result (A : Type) :=
  | Done (a : A)
  | Raised (e : JsError).
Arguments Done {A} a.
Arguments Raised {A} e.

Definition Ui (A : Type) : Type := App → Result A * App.

Definition ui_ret {A} (a : A) : Ui A := λ s, (Done a, s).
Definition ui_bind {A B} (m : Ui A) (k : A → Ui B) : Ui B :=
  λ s, match m s with
       | (Done a, s') => k a s'
       | (Raised e, s') => (Raised e, s')
       end.
Definition ui_throw {A} (e : JsError) : Ui A := λ s, (Raised e, s).

(** [try { body } catch (err) { handler }] *)
Definition ui_try {A} (body : Ui A) (handler : JsError → Ui A) : Ui A :=
  λ s, match body s with
       | (Done a, s') => (Done a, s')
       | (Raised e, s') => handler e s'
       end.

(** [try { body } finally { after }], for a body that does not throw. *)
Definition ui_finally (body : Ui unit) (after : Ui unit) : Ui unit :=
  λ s, match body s with
       | (Done _, s') => after s'
       | (Raised e, s') =>
           match after s' with
           | (Done _, s'') => (Raised e, s'')
           | (Raised e', s'') => (Raised e', s'')
           end
       end.

(** Runs [m] and hands its outcome over, as a settled promise. *)
Definition settle {A} (m : Ui A) : Ui (Result A) :=
  λ s, let '(r, s') := m s in (Done r, s').

#[global] Instance Ui_ret : MRet Ui := @ui_ret.
#[global] Instance Ui_bind : MBind Ui := λ A B k m, ui_bind m k.

Definition set_client (f : Client → Client) : Ui unit :=
  λ s, (Done tt, mkApp (f (client s)) (server s)).

Definition setProducts (ps : Body) : Ui unit :=
  set_client (λ c, mkClient ps (cart c) (loading c) (error c) (isCartOpen c)
                     (isCheckoutModalOpen c) (alerts c)).
Definition setCart (v : option Body) : Ui unit :=
  set_client (λ c, mkClient (ui_products c) v (loading c) (error c)
                     (isCartOpen c) (isCheckoutModalOpen c) (alerts c)).
Definition setLoading (b : bool) : Ui unit :=
  set_client (λ c, mkClient (ui_products c) (cart c) b (error c)
                     (isCartOpen c) (isCheckoutModalOpen c) (alerts c)).
Definition setError (e : option string) : Ui unit :=
  set_client (λ c, mkClient (ui_products c) (cart c) (loading c) e
                     (isCartOpen c) (isCheckoutModalOpen c) (alerts c)).
Definition setIsCartOpen (b : bool) : Ui unit :=
  set_client (λ c, mkClient (ui_products c) (cart c) (loading c) (error c) b
                     (isCheckoutModalOpen c) (alerts c)).
Definition setIsCheckoutModalOpen (b : bool) : Ui unit :=
  set_client (λ c, mkClient (ui_products c) (cart c) (loading c) (error c)
                     (isCartOpen c) b (alerts c)).
(** [alert(`... Order ID: ${id}`)] *)
Definition alert (id : ObjectId) : Ui unit :=
  set_client (λ c, mkClient (ui_products c) (cart c) (loading c) (error c)
                     (isCartOpen c) (isCheckoutModalOpen c) (alerts c ++ [id])).

(** The [cart] of the render in which the handler was made. *)
Definition get_cart_state : Ui (option Body) := λ s, (Done (cart (client s)), s).

(** An [apiClient] call: the server handles the request; a status outside
    200..299 throws, otherwise the data of the response is returned.  (The
    handlers answer every request; a request left unanswered would be an
    error without status.) *)
Definition request (r : Request) : Ui Body :=
  λ s, match run (handle r) (server s) with
       | (Returned resp, w') =>
           if (200 <=? status resp)%nat && (status resp <? 300)%nat
           then (Done (body resp), mkApp (client s) w')
           else (Raised (AxiosError (status resp)), mkApp (client s) w')
       | (Thrown _, w') => (Raised (AxiosError 0), mkApp (client s) w')
       end.

(** [cart.cartItems]: throws when [cart] is [null]; it is [undefined]
    ([None]) for data without that field. *)
Definition cart_cartItems : Ui (option (list Populated)) :=
  c ← get_cart_state;
  match c with
  | None => ui_throw TypeError
  | Some (CartBody items _) => mret (Some items)
  | Some _ => mret None
  end.

(** A method call or a property read on a value: throws on [undefined]. *)
Definition defined {A} (o : option A) : Ui A :=
  match o with
  | Some a => mret a
  | None => ui_throw TypeError
  end.

(** [items.find(item => item.product._id === productId)]: the callback
    throws on an item whose product is [null]. *)
Fixpoint find_by_product (productId : ObjectId) (items : list Populated)
  : Result (option Populated) :=
  match items with
  | [] => Done None
  | item :: rest =>
      match pop_product item with
      | None => Raised TypeError
      | Some p =>
          if bool_decide (p_id p = productId) then Done (Some item)
          else find_by_product productId rest
      end
  end.

Definition of_result {A} (r : Result A) : Ui A := λ s, (r, s).

Local Open Scope string_scope.

(** [fetchInitialData], the effect run once on mount.  [Promise.all] sends
    both requests, and rejects when one of them does. *)
Definition fetchInitialData : Ui unit :=
  ui_finally
    (ui_try
       (setLoading true;;
        setError None;;
        productsResponse ← settle (request GetProducts);
        cartResponse ← settle (request GetCart);
        match productsResponse, cartResponse with
        | Done ps, Done c => setProducts ps;; setCart (Some c)
        | Raised e, _ => ui_throw e
        | _, Raised e => ui_throw e
        end)
       (λ _, setError
               (Some "Failed to load store. Please check your connection.")))
    (setLoading false).

Definition handleAddToCart (productId : ObjectId) (qty : Qc) : Ui unit :=
  ui_try
    (items ← cart_cartItems ≫= defined;
     existingItem ← of_result (find_by_product productId items);
     let newQuantity := match existingItem with
                        | Some e => js_add (pop_quantity e) qty
                        | None => qty
                        end in
     request (PostCart (mkReq (Some productId) (Some newQuantity)));;
     cartResponse ← request GetCart;
     setCart (Some cartResponse);;
     setIsCartOpen true)
    (λ _, setError (Some "Failed to add item to cart.")).

Definition handleRemoveFromCart (cartItemId : ObjectId) : Ui unit :=
  ui_try
    (request (DeleteCart cartItemId);;
     cartResponse ← request GetCart;
     setCart (Some cartResponse))
    (λ _, setError (Some "Failed to remove item.")).

Definition handleUpdateQuantity (cartItemId : ObjectId) (newQuantity : Qc)
  : Ui unit :=
  if bool_decide (newQuantity < 1) then handleRemoveFromCart cartItemId
  else
    ui_try
      (items ← cart_cartItems ≫= defined;
       match find (λ item, bool_decide (pop_id item = cartItemId)) items with
       | None => mret tt
       | Some itemToUpdate =>
           match pop_product itemToUpdate with
           | None => ui_throw TypeError
           | Some p =>
               request (PostCart (mkReq (Some (p_id p)) (Some newQuantity)));;
               cartResponse ← request GetCart;
               setCart (Some cartResponse)
           end
       end)
      (λ _, setError (Some "Failed to update cart.")).

Definition handleCheckout : Ui unit :=
  items ← cart_cartItems ≫= defined;
  if (length items =? 0)%nat then mret tt
  else setIsCartOpen false;; setIsCheckoutModalOpen true.

(** The form data, [{ name, email }], goes into the body of the request,
    which the server does not read. *)
Definition handleCheckoutSubmit (formData : string * string) : Ui unit :=
  ui_try
    (_ ← cart_cartItems;
     receipt ← request PostCheckout;
     setIsCheckoutModalOpen false;;
     setCart (Some (CartBody [] 0));;
     match receipt with
     | ReceiptBody _ _ o => alert (orderId o)
     | _ => ui_throw TypeError
     end)
    (λ _, setError (Some "Checkout failed. Please try again.")).

Local Close Scope string_scope.

(** The buttons of a line of the cart ([CartItem]) and of a product card
    ([ProductCard]). *)
Definition minus_click (item : Populated) : Ui unit :=
  handleUpdateQuantity (pop_id item) (js_sub (pop_quantity item) 1).
Definition plus_click (item : Populated) : Ui unit :=
  handleUpdateQuantity (pop_id item) (js_add (pop_quantity item) 1).
Definition add_click (p : Product) : Ui unit :=
  handleAddToCart (p_id p) 1.

(** What the user can do once the store is loaded. *)
Inductive Action :=
  | AddToCart (productId : ObjectId) (qty : Qc)
  | UpdateQuantity (cartItemId : ObjectId) (newQuantity : Qc)
  | RemoveFromCart (cartItemId : ObjectId)
  | Checkout
  | CheckoutSubmit (formData : string * string).

Definition perform (act : Action) : Ui unit :=
  match act with
  | AddToCart productId qty => handleAddToCart productId qty
  | UpdateQuantity cartItemId newQuantity =>
      handleUpdateQuantity cartItemId newQuantity
  | RemoveFromCart cartItemId => handleRemoveFromCart cartItemId
  | Checkout => handleCheckout
  | CheckoutSubmit formData => handleCheckoutSubmit formData
  end.

(** What GET /api/cart answers from [w] when its query succeeds. *)
Definition cart_view (w : World) : Body :=
  CartBody (map (populate (products w)) (cartItems w))
    (parseFloat
       (toFixed2 (cart_total (map (populate (products w)) (cartItems w))))).

(** The client shows the cart of the server. *)
Definition synced (s : App) : Prop :=
  cart (client s) = Some (cart_view (server s)).

(** The client before the first effect has run. *)
Definition initial_client : Client :=
  mkClient (ProductsBody []) None true None false false [].

(** An action keeps [P], a property of the client that the setters it uses
    keep. *)
Definition ui_keeps {A} (P : Client → Prop) (m : Ui A) : Prop :=
  ∀ s, P (client s) → P (client (m s).2).

(** ** Sample states of the application *)

(** The page being opened on a store with one mug and three caps. *)
Definition shop : App := mkApp initial_client mug_and_caps.

(** The page once loaded. *)
Definition loaded_shop : App := (fetchInitialData shop).2.

(** A loaded page on a store whose only line item has lost its product. *)
Definition stale_shop : App :=
  (fetchInitialData (mkApp initial_client dangling)).2.

(** ** Tactics *)

#[global] Hint Extern 1 (StoreOnly _) =>
  (let H := fresh in intros ? ? H; exact H) : typeclass_instances.

(** Applies the rule of a query and finds that its invariant is about the
    store only. *)
Ltac by_query lem := apply lem; apply _.

(** Unfolds a handler down to the queries it runs. *)
Ltac io_unfold :=
  unfold run, get_products, get_cart, post_cart, post_cart_try, delete_cart,
    post_checkout, seedDatabase, CartItem_save, CartItem_find_populate,
    CartItem_findOne, CartItem_findById_populate, CartItem_findByIdAndDelete,
    CartItem_deleteMany, Product_find, Product_findById,
    Product_countDocuments, Product_insertMany, new_ObjectId, get_clock,
    try_catch, throw, query, mbind, mret, Io_bind, Io_ret, io_bind, io_ret.

(** Names the fields of a healthy world. *)
Ltac healthy_world w H :=
  let ps := fresh "ps" in let cs := fresh "cs" in let n := fresh "n" in
  let t := fresh "t" in let fs := fresh "fs" in
  destruct w as [ps cs n t fs]; unfold healthy in H; simpl in H; subst fs.

(** Finds a number in a list of numbers. *)
Ltac in_list := simpl; solve [repeat constructor].

(** Unfolds the handlers and the queries, down to [query]. *)
Ltac handlers_unfold :=
  unfold handle, get_products, get_cart, post_cart, post_cart_try,
    delete_cart, post_checkout, seedDatabase, CartItem_save,
    CartItem_find_populate, CartItem_findOne, CartItem_findById_populate,
    CartItem_findByIdAndDelete, CartItem_deleteMany, Product_find,
    Product_findById, Product_countDocuments, Product_insertMany.

(** Unfolds the handlers of the client, down to [request]. *)
Ltac ui_unfold :=
  unfold perform, minus_click, plus_click, add_click, fetchInitialData,
    handleAddToCart, handleUpdateQuantity, handleRemoveFromCart,
    handleCheckout, handleCheckoutSubmit, cart_cartItems, defined,
    get_cart_state, setProducts, setCart, setLoading, setError,
    setIsCartOpen, setIsCheckoutModalOpen, alert, set_client, of_result,
    settle, ui_finally, ui_try, ui_throw, mbind, mret, Ui_bind, Ui_ret,
    ui_bind, ui_ret.

(** * Proofs *)

(** ** Rules of the program logic *)

Section Logic.
Context {A B : Type}.
Implicit Types (P E : World → Prop).

Lemma hoare_ret P E (a : A) (Q : A → World → Prop) :
  (∀ w, P w → Q a w) → hoare P (mret a) Q E.
Proof. intros H w Hw. by apply H. Qed.

Lemma hoare_throw P E (e : Exn) (Q : A → World → Prop) :
  (∀ w, P w → E w) → hoare P (throw e) Q E.
Proof. intros H w Hw. by apply H. Qed.

Lemma hoare_bind P E (m : Io A) (k : A → Io B)
    (R : A → World → Prop) (Q : B → World → Prop) :
  hoare P m R E → (∀ a, hoare (R a) (k a) Q E) → hoare P (m ≫= k) Q E.
Proof.
  intros Hm Hk w Hw. specialize (Hm w Hw).
  unfold mbind, Io_bind, io_bind. destruct (m w) as [[a|e] w']; [|done].
  by apply Hk.
Qed.

Lemma hoare_try_catch P E E' (m : Io A) (h : Exn → Io A)
    (Q : A → World → Prop) :
  hoare P m Q E' → (∀ e, hoare E' (h e) Q E) → hoare P (try_catch m h) Q E.
Proof.
  intros Hm Hh w Hw. specialize (Hm w Hw).
  unfold try_catch. destruct (m w) as [[a|e] w']; [done|].
  by apply Hh.
Qed.

Lemma hoare_query P E `{!StoreOnly P} (f : World → A * World)
    (Q : A → World → Prop) :
  (∀ w, P w → Q (f w).1 (f w).2) → (∀ w, P w → E w) →
  hoare P (query f) Q E.
Proof.
  intros HQ HE w Hw. unfold query.
  destruct (faults w) as [|[] fs] eqn:Hf.
  - specialize (HQ w Hw). by destruct (f w).
  - apply HE. by apply store_only.
  - specialize (HQ (set_faults fs w) (store_only _ _ Hw)).
    by destruct (f (set_faults fs w)).
Qed.

Lemma hoare_weaken P P' E E' (m : Io A) (Q Q' : A → World → Prop) :
  hoare P' m Q' E' → (∀ w, P w → P' w) → (∀ a w, Q' a w → Q a w) →
  (∀ w, E' w → E w) → hoare P m Q E.
Proof.
  intros Hm HP HQ HE w Hw. specialize (Hm w (HP w Hw)).
  destruct (m w) as [[a|e] w']; auto.
Qed.
End Logic.

Lemma keeps_run {A} (P : World → Prop) (m : Io A) w :
  keeps P m → P w → P (run m w).2.
Proof.
  intros Hm Hw. specialize (Hm w Hw). unfold run.
  by destruct (m w) as [[a|e] w'].
Qed.

(** ** Facts about the list operations behind the queries *)

Section Lists.
Implicit Types (cs : list CartItem) (c d : CartItem) (id pid : ObjectId).

Lemma findOne_None cs pid :
  find (λ c, bool_decide (product c = pid)) cs = None →
  pid ∉ map product cs.
Proof.
  induction cs as [|d cs IH]; simpl; [intros _; apply not_elem_of_nil|].
  case_bool_decide as Hd; [done|]. intros Hf.
  apply not_elem_of_cons. split; [congruence|auto].
Qed.

Lemma findOne_Some cs pid c :
  find (λ c, bool_decide (product c = pid)) cs = Some c →
  c ∈ cs ∧ product c = pid.
Proof.
  induction cs as [|d cs IH]; simpl; [done|].
  case_bool_decide as Hd.
  - intros [= ->]. split; [left|done].
  - intros Hf. destruct (IH Hf). split; [by right|done].
Qed.

Lemma findOne_is_Some cs pid :
  pid ∈ map product cs →
  is_Some (find (λ c, bool_decide (product c = pid)) cs).
Proof.
  intros Hin.
  destruct (find _ cs) eqn:Hf; [by eexists|].
  by apply findOne_None in Hf.
Qed.

Lemma findById_None cs id :
  find (λ c, bool_decide (c_id c = id)) cs = None ↔ id ∉ map c_id cs.
Proof.
  induction cs as [|d cs IH]; simpl.
  - split; [intros _; apply not_elem_of_nil|done].
  - rewrite not_elem_of_cons. case_bool_decide as Hd.
    + split; [done|]. intros [Hne _]. by destruct Hne.
    + rewrite IH. split; [by split|by intros [_ ?]].
Qed.

Lemma update_quantity_Some cs c q :
  c ∈ cs → is_Some (update_quantity (c_id c) q cs).
Proof.
  induction cs as [|d cs IH]; simpl; [by intros ?%elem_of_nil|].
  intros Hin. case_bool_decide as Hd; [by eexists|].
  apply elem_of_cons in Hin as [->|Hin]; [done|].
  destruct (IH Hin) as [cs' ->]. by eexists.
Qed.

Lemma update_quantity_ids cs id q cs' :
  update_quantity id q cs = Some cs' → map c_id cs' = map c_id cs.
Proof.
  revert cs'. induction cs as [|d cs IH]; simpl; [done|]. intros cs'.
  case_bool_decide as Hd; [by intros [= <-]|].
  destruct (update_quantity id q cs) as [cs''|]; [|done].
  intros [= <-]. simpl. f_equal. by apply IH.
Qed.

Lemma update_quantity_products cs id q cs' :
  update_quantity id q cs = Some cs' → map product cs' = map product cs.
Proof.
  revert cs'. induction cs as [|d cs IH]; simpl; [done|]. intros cs'.
  case_bool_decide as Hd; [by intros [= <-]|].
  destruct (update_quantity id q cs) as [cs''|]; [|done].
  intros [= <-]. simpl. f_equal. by apply IH.
Qed.

Lemma remove_doc_None cs id :
  id ∉ map c_id cs → remove_doc id cs = (None, cs).
Proof.
  induction cs as [|d cs IH]; simpl; [done|].
  intros [Hne Hnin]%not_elem_of_cons.
  rewrite bool_decide_eq_false_2 by done. by rewrite IH.
Qed.

Lemma remove_doc_Some cs id :
  id ∈ map c_id cs →
  ∃ d, (remove_doc id cs).1 = Some d ∧ c_id d = id.
Proof.
  induction cs as [|d cs IH]; simpl; [by intros ?%elem_of_nil|].
  intros Hin. case_bool_decide as Hd; [by exists d|].
  apply elem_of_cons in Hin as [->|Hin]; [done|].
  destruct (IH Hin) as (d' & Hr & Hid).
  destruct (remove_doc id cs) as [r cs']. simpl in *. by exists d'.
Qed.

Lemma remove_doc_sublist cs id :
  sublist (remove_doc id cs).2 cs.
Proof.
  induction cs as [|d cs IH]; simpl; [done|].
  case_bool_decide; simpl; [by apply sublist_cons|].
  destruct (remove_doc id cs) as [r cs']. simpl in *. by apply sublist_skip.
Qed.

Lemma remove_doc_gone cs id :
  NoDup (map c_id cs) → id ∉ map c_id (remove_doc id cs).2.
Proof.
  induction cs as [|d cs IH]; simpl; [intros _; apply not_elem_of_nil|].
  intros [Hd Hnd]%NoDup_cons. case_bool_decide as Hid; simpl.
  - by rewrite <-Hid.
  - specialize (IH Hnd). destruct (remove_doc id cs) as [r cs']. simpl in *.
    apply not_elem_of_cons. by split.
Qed.
End Lists.

(** ** The queries in the program logic *)

Section Queries.
Context (P : World → Prop) `{!StoreOnly P}.

(** A query that only reads: its answer is [g] of the store. *)
Lemma hoare_read {A} (g : World → A) :
  (∀ fs w, g (set_faults fs w) = g w) →
  hoare P (query (λ w, (g w, w))) (λ r w, P w ∧ r = g w) P.
Proof. intros Hg. apply hoare_query; [apply _|by simpl|done]. Qed.

Lemma hoare_findOne pid :
  hoare P (CartItem_findOne pid)
    (λ r w, P w ∧ r = find (λ c, bool_decide (product c = pid)) (cartItems w))
    P.
Proof. by apply (hoare_read (λ w, find _ (cartItems w))). Qed.

Lemma hoare_Product_findById id :
  hoare P (Product_findById id) (λ _, P) P.
Proof. by apply hoare_query. Qed.

Lemma hoare_findById_populate id :
  hoare P (CartItem_findById_populate id) (λ _, P) P.
Proof. by apply hoare_query. Qed.

Lemma hoare_find_populate :
  hoare P CartItem_find_populate (λ _, P) P.
Proof. by apply hoare_query. Qed.

Lemma hoare_Product_find :
  hoare P Product_find (λ _, P) P.
Proof. by apply hoare_query. Qed.

Lemma hoare_countDocuments :
  hoare P Product_countDocuments
    (λ n w, P w ∧ n = length (products w)) P.
Proof. by apply (hoare_read (λ w, length (products w))). Qed.
End Queries.

Lemma cart_inv_empty : cart_inv empty_world.
Proof. repeat split; simpl; constructor. Qed.

(** The cart invariant reads the two lists of keys and the counter only. *)
Lemma cart_inv_keys w w' :
  map product (cartItems w') = map product (cartItems w) →
  map c_id (cartItems w') = map c_id (cartItems w) →
  next_id w' = next_id w →
  cart_inv w → cart_inv w'.
Proof.
  unfold cart_inv, one_per_product, ids_unique, ids_fresh.
  by intros -> -> ->.
Qed.

Lemma cart_inv_sublist w cs :
  sublist cs (cartItems w) → cart_inv w → cart_inv (set_cartItems cs w).
Proof.
  intros Hs (Hp & Hi & Hf). repeat split.
  - eapply sublist_NoDup; [exact Hp|]. by apply fmap_sublist.
  - eapply sublist_NoDup; [exact Hi|]. by apply fmap_sublist.
  - unfold ids_fresh in *. rewrite Forall_forall in Hf |- *.
    intros x Hx. apply Hf. eapply elem_of_sublist; [exact Hx|].
    by apply fmap_sublist.
Qed.

Lemma cart_inv_insert w c :
  product c ∉ map product (cartItems w) → (c_id c < next_id w)%N →
  c_id c ∉ map c_id (cartItems w) →
  cart_inv w → cart_inv (set_cartItems (cartItems w ++ [c]) w).
Proof.
  intros Hp Hlt Hi (Hnp & Hni & Hf).
  unfold cart_inv, one_per_product, ids_unique, ids_fresh. simpl.
  rewrite !map_app. simpl. repeat split.
  - apply NoDup_app. split_and!; [done| |apply NoDup_singleton].
    intros x Hx ->%list_elem_of_singleton. done.
  - apply NoDup_app. split_and!; [done| |apply NoDup_singleton].
    intros x Hx ->%list_elem_of_singleton. done.
  - apply Forall_app. split; [done|]. by constructor.
Qed.

(** Saving a stored document keeps the invariant. *)
Lemma hoare_save_stored c :
  hoare cart_inv (CartItem_save false c) (λ _, cart_inv) cart_inv.
Proof.
  unfold CartItem_save. destruct (validate c); [|by apply hoare_throw].
  eapply hoare_bind with (R := λ _, cart_inv).
  - apply hoare_query; [apply _| |done].
    intros w Hw. simpl.
    destruct (update_quantity _ _ _) as [cs|] eqn:Hu; simpl; [|done].
    eapply cart_inv_keys; [| | |exact Hw]; simpl;
      eauto using update_quantity_products, update_quantity_ids.
  - intros [|]; [by apply hoare_ret|by apply hoare_throw].
Qed.

(** Saving a new document keeps the invariant when its product is not in
    the cart yet and its id is new. *)
Lemma hoare_save_new c :
  hoare (λ w, cart_inv w ∧ (product c ∉ map product (cartItems w)) ∧
              (c_id c < next_id w)%N ∧ (c_id c ∉ map c_id (cartItems w)))
    (CartItem_save true c) (λ _, cart_inv) cart_inv.
Proof.
  unfold CartItem_save. destruct (validate c); [|apply hoare_throw; by intros ? []].
  eapply hoare_bind with (R := λ _, cart_inv).
  - apply hoare_query; [apply _| |by intros ? []].
    intros w (Hw & Hp & Hlt & Hi). simpl. by apply cart_inv_insert.
  - intros [|]; [by apply hoare_ret|by apply hoare_throw].
Qed.

Lemma hoare_findByIdAndDelete id :
  hoare cart_inv (CartItem_findByIdAndDelete id) (λ _, cart_inv) cart_inv.
Proof.
  apply hoare_query; [apply _| |done].
  intros w Hw. pose proof (remove_doc_sublist (cartItems w) id) as Hs.
  destruct (remove_doc id (cartItems w)) as [r cs]. simpl in *.
  by apply cart_inv_sublist.
Qed.

Lemma hoare_deleteMany :
  hoare cart_inv CartItem_deleteMany (λ _, cart_inv) cart_inv.
Proof.
  apply hoare_query; [apply _| |done].
  intros w Hw. simpl. apply cart_inv_sublist; [apply sublist_nil_l|done].
Qed.

Lemma hoare_new_ObjectId :
  hoare cart_inv new_ObjectId
    (λ id w, cart_inv w ∧ (id < next_id w)%N ∧ id ∉ map c_id (cartItems w))
    cart_inv.
Proof.
  intros w (Hp & Hi & Hf). simpl. split_and!.
  - repeat split; [done..|].
    unfold ids_fresh in *. simpl. eapply Forall_impl; [exact Hf|].
    intros x Hx. simpl in Hx. lia.
  - lia.
  - intros Hin. unfold ids_fresh in Hf. rewrite Forall_forall in Hf.
    apply Hf in Hin. lia.
Qed.

(** ** Every operation, run as a whole, keeps the cart invariant *)


Lemma keeps_get_products : keeps cart_inv get_products.
Proof.
  eapply hoare_try_catch with (E' := cart_inv).
  - eapply hoare_bind; [by_query hoare_Product_find|].
    intros ps. by apply hoare_ret.
  - intros e. by apply hoare_ret.
Qed.

Lemma keeps_get_cart : keeps cart_inv get_cart.
Proof.
  eapply hoare_try_catch with (E' := cart_inv).
  - eapply hoare_bind; [by_query hoare_find_populate|].
    intros items. by apply hoare_ret.
  - intros e. by apply hoare_ret.
Qed.

Lemma keeps_post_cart_try productId qty :
  keeps cart_inv (post_cart_try productId qty).
Proof.
  unfold post_cart_try.
  eapply hoare_bind; [by_query hoare_findOne|]. intros cartItem.
  eapply hoare_bind with (R := λ _, cart_inv).
  - destruct cartItem as [c|].
    + eapply hoare_bind with (R := λ _, cart_inv).
      * eapply hoare_weaken; [apply hoare_save_stored|by intros ? []|done..].
      * intros _. by apply hoare_ret.
    + eapply hoare_bind with
        (R := λ _ w, cart_inv w ∧ (productId ∉ map product (cartItems w))).
      * eapply hoare_weaken;
          [apply (hoare_Product_findById
                    (λ w, cart_inv w ∧
                          (productId ∉ map product (cartItems w))))| |done|].
        -- intros w [Hw Hf]. split; [done|]. by apply findOne_None.
        -- by intros w [].
      * intros [p|]; [|apply hoare_ret; by intros ? []].
        eapply hoare_bind with
          (R := λ id w, cart_inv w ∧ (productId ∉ map product (cartItems w)) ∧
                        (id < next_id w)%N ∧ (id ∉ map c_id (cartItems w))).
        -- intros w [Hw Hp]. pose proof (hoare_new_ObjectId w Hw) as H.
           simpl in *. tauto.
        -- intros id. eapply hoare_bind with (R := λ _, cart_inv).
           ++ eapply hoare_weaken;
                [apply hoare_save_new|by intros ? (? & ? & ? & ?)|done..].
           ++ intros _. by apply hoare_ret.
  - intros [r|c]; [by apply hoare_ret|].
    eapply hoare_bind; [by_query hoare_findById_populate|].
    intros populatedItem. by apply hoare_ret.
Qed.

Lemma keeps_post_cart req : keeps cart_inv (post_cart req).
Proof.
  unfold post_cart.
  destruct (req_productId req) as [productId|]; [|by apply hoare_ret].
  destruct (req_quantity req) as [qty|]; [|by apply hoare_ret].
  destruct (_ || _); [by apply hoare_ret|].
  eapply hoare_try_catch; [apply keeps_post_cart_try|].
  intros e. by apply hoare_ret.
Qed.

Lemma keeps_delete_cart id : keeps cart_inv (delete_cart id).
Proof.
  eapply hoare_try_catch with (E' := cart_inv).
  - eapply hoare_bind; [apply hoare_findByIdAndDelete|].
    intros [d|]; by apply hoare_ret.
  - intros e. by apply hoare_ret.
Qed.

Lemma keeps_post_checkout : keeps cart_inv post_checkout.
Proof.
  eapply hoare_try_catch with (E' := cart_inv).
  - eapply hoare_bind; [by_query hoare_find_populate|]. intros items.
    eapply hoare_bind; [apply hoare_deleteMany|]. intros ?.
    eapply hoare_bind with (R := λ _, cart_inv).
    + eapply hoare_weaken; [apply hoare_new_ObjectId|done|by intros ?? []|done].
    + intros oid. eapply hoare_bind with (R := λ _, cart_inv);
        [by intros w Hw|].
      intros now. by apply hoare_ret.
  - intros e. by apply hoare_ret.
Qed.

Lemma keeps_seedDatabase : keeps cart_inv seedDatabase.
Proof.
  eapply hoare_try_catch with (E' := cart_inv).
  - eapply hoare_bind; [by_query hoare_countDocuments|]. intros n.
    destruct (n =? 0)%nat; [|apply hoare_ret; by intros ? []].
    apply hoare_query; [apply _| |by intros ? []].
    intros w [(Hp & Hi & Hf) _]. repeat split; [done..|].
    unfold ids_fresh in *. simpl. eapply Forall_impl; [exact Hf|].
    intros x Hx. simpl in Hx. lia.
  - intros e. by apply hoare_ret.
Qed.

(** A request that is handled with no other request in between keeps the
    cart collection well formed, one line item per product included,
    whatever the driver does. *)
Lemma keeps_handle r : keeps cart_inv (handle r).
Proof.
  destruct r; simpl;
    auto using keeps_get_products, keeps_get_cart, keeps_post_cart,
      keeps_delete_cart, keeps_post_checkout.
Qed.

(** ** Arithmetic of the total *)

(** The [reduce] of the handlers adds up the lines that resolve, in their
    order, in the arithmetic of doubles. *)
Lemma fold_add_line items acc :
  fold_left add_line items acc
  = fold_left js_add
      (map line_amount_double (filter (λ i, resolves i = true) items)) acc.
Proof.
  revert acc. induction items as [|[id [p|] q] items IH]; intros acc.
  - done.
  - rewrite filter_cons_True by done. cbn [fold_left map]. by rewrite IH.
  - rewrite filter_cons_False by done. cbn [fold_left]. by rewrite IH.
Qed.

Lemma cart_total_double_sum items : cart_total items = double_sum items.
Proof. apply fold_add_line. Qed.

(** The join of [populate] is the join of the specification. *)
Lemma lookup_product_joined ps c :
  match lookup_product ps (product c) with
  | Some p => p ∈ ps ∧ p_id p = product c
  | None => product c ∉ map p_id ps
  end.
Proof.
  unfold lookup_product. induction ps as [|p ps IH]; simpl.
  - apply not_elem_of_nil.
  - case_bool_decide as Hp.
    + split; [left|done].
    + destruct (find _ ps) as [p'|].
      * destruct IH. split; [by right|done].
      * apply not_elem_of_cons. by split.
Qed.

Lemma populate_joined ps cs :
  Forall2 (joined ps) cs (map (populate ps) cs).
Proof.
  induction cs as [|c cs IH]; constructor; [|done].
  unfold joined, populate. cbn [pop_id pop_quantity pop_product].
  split_and!; [done..|]. apply lookup_product_joined.
Qed.

(** *** Rounding to a double *)

Lemma nearest_even_floor (y : Q) : (Qfloor y ≤ nearest_even y)%Z.
Proof.
  unfold nearest_even. destruct (Qcompare _ _); [destruct (Z.even _)|..]; lia.
Qed.

(** 1 is a double, and rounding is monotone there. *)
Lemma round_binary64_ge_1 (x : Q) : (1 <= x)%Q → (1 <= round_binary64 x)%Q.
Proof.
  intros Hx. unfold round_binary64, ilog2.
  rewrite (proj2 (Qle_bool_iff 1 x) Hx).
  assert (1 ≤ Qfloor x)%Z as Hf.
  { change 1%Z with (Qfloor 1). by apply Qfloor_resp_le. }
  set (L := Z.log2 (Qfloor x)).
  assert (0 ≤ L)%Z as HL by apply Z.log2_nonneg.
  rewrite Z.max_l by lia.
  assert (inject_Z (2 ^ L) <= x)%Q as Hlow.
  { apply Qle_trans with (inject_Z (Qfloor x)); [|apply Qfloor_le].
    rewrite <-Zle_Qle. apply Z.log2_spec. lia. }
  assert (0 < 2 ^ (L - 52))%Q as Hpos by by apply Qpower_0_lt.
  assert (inject_Z (2 ^ 52) * 2 ^ (L - 52) == inject_Z (2 ^ L))%Q as Hpow.
  { rewrite !Zpower_Qpower by lia. change (inject_Z 2) with 2%Q.
    rewrite <-Qpower_plus by done. by replace (52 + (L - 52))%Z with L by lia. }
  assert (inject_Z (2 ^ 52) <= x / 2 ^ (L - 52))%Q as Hy.
  { apply Qle_shift_div_l; [done|]. by rewrite Hpow. }
  apply Qfloor_resp_le in Hy. rewrite Qfloor_Z in Hy.
  pose proof (nearest_even_floor (x / 2 ^ (L - 52))) as Hn.
  apply Qle_trans with (inject_Z (2 ^ L)).
  - rewrite <-(Zle_Qle 1). apply (Z.pow_le_mono_r 2 0 L); lia.
  - rewrite <-Hpow. apply Qmult_le_compat_r; [|by apply Qlt_le_weak].
    rewrite <-Zle_Qle. lia.
Qed.

Lemma double_ge_1 (x : Q) : (1 <= x)%Q → 1 ≤ double x.
Proof.
  intros Hx. pose proof (round_binary64_ge_1 x Hx) as Hr.
  unfold double. destruct x as [[|n|n] d]; cbn [Qnum];
    [exfalso; unfold Qle in Hx; simpl in Hx; lia| |
     exfalso; unfold Qle in Hx; simpl in Hx; lia].
  unfold Qcle. cbn [this Q2Qc]. by rewrite !Qred_correct.
Qed.

(** Adding to a quantity of at least 1 gives at least 1, also after
    rounding. *)
Lemma js_add_ge_1 (x y : Qc) : 1 ≤ x → 0 ≤ y → 1 ≤ js_add x y.
Proof.
  intros Hx Hy. apply double_ge_1. unfold Qcle in Hx, Hy.
  change (this 1) with 1%Q in Hx. change (this 0) with 0%Q in Hy. lra.
Qed.

(** [double] and the arithmetic of the kernel's binary64 agree: on the
    literal 12.99; on 12.99 × 1.5, which rounds down, below 19.485; on
    1.3 + 1; on 2^53 + 1 and 2^53 + 3, which are ties; on a difference; on
    a subnormal number; and on the largest double. *)
Example double_is_binary64 :
  float_value (1299 / 100) = Some (this (double (1299 # 100)))
  ∧ float_value (1299 / 100 * 1.5)
    = Some (this (js_mul (double (1299 # 100)) (Q2Qc (3 # 2))))
  ∧ float_value (13 / 10 + 1) = Some (this (js_add (double (13 # 10)) 1))
  ∧ float_value (9007199254740992 + 1)
    = Some (this (js_add (Q2Qc 9007199254740992) 1))
  ∧ float_value (9007199254740994 + 1)
    = Some (this (js_add (Q2Qc 9007199254740994) 1))
  ∧ float_value (1299 / 100 - 13)
    = Some (this (js_sub (double (1299 # 100)) (Q2Qc 13)))
  ∧ float_value (0x1p-1074 * 0.75)
    = Some (this (js_mul (double (2 ^ (-1074))) (Q2Qc (3 # 4))))
  ∧ float_value (0x1.fffffffffffffp+1023) = Some (this MAX_VALUE).
Proof. by vm_compute. Qed.

(** ... and so do [js_add], [js_sub] and [js_mul] with the addition, the
    subtraction and the multiplication of the kernel on every pair of the
    samples, overflow included. *)
Example double_agrees_on_samples :
  forallb (λ a, forallb (λ b,
    agrees PrimFloat.add js_add a b && agrees PrimFloat.sub js_sub a b
    && agrees PrimFloat.mul js_mul a b) samples) samples = true.
Proof. by vm_compute. Qed.

(** *** Rounding to hundredths *)

(** [n / 100] is within half a hundredth of [x], ties going up. *)
Lemma nearest_hundredth_bounds (x : Q) :
  (x - (1 # 200) < nearest_hundredth x # 100 ∧
   nearest_hundredth x # 100 <= x + (1 # 200))%Q.
Proof.
  unfold nearest_hundredth.
  pose proof (Qfloor_le (x * 100 + (1 # 2))) as Hle.
  pose proof (Qlt_floor (x * 100 + (1 # 2))) as Hlt.
  set (n := Qfloor (x * 100 + (1 # 2))) in *.
  rewrite (Qmake_Qdiv n 100). change (inject_Z (Z.pos 100)) with 100%Q.
  rewrite inject_Z_plus in Hlt. change (inject_Z 1) with 1%Q in Hlt.
  split.
  - apply Qlt_shift_div_l; [done|]. lra.
  - apply Qle_shift_div_r; [done|]. lra.
Qed.

(** [toFixed2] rounds to the nearest hundredth *)
Lemma toFixed2_close (x : Qc) :
  x - Q2Qc (1 # 200) ≤ toFixed2 x ∧ toFixed2 x ≤ x + Q2Qc (1 # 200).
Proof.
  unfold toFixed2. case_bool_decide as Hneg.
  - pose proof (nearest_hundredth_bounds (- this x)%Q) as [H1 H2].
    unfold Qcle, Qcminus, Qcplus, Qcopp. cbn [this Q2Qc].
    rewrite !Qred_correct. split; lra.
  - pose proof (nearest_hundredth_bounds x) as [H1 H2].
    unfold Qcle, Qcminus, Qcplus, Qcopp. cbn [this Q2Qc].
    rewrite !Qred_correct. split; lra.
Qed.

(** ... and its result has two decimals. *)
Lemma toFixed2_hundredths (x : Qc) : ∃ n : Z, toFixed2 x = Q2Qc (n # 100).
Proof.
  unfold toFixed2. case_bool_decide.
  - exists (- nearest_hundredth (- this x)%Q)%Z. apply Qc_is_canon.
    unfold Qcopp at 1. cbn [this Q2Qc]. by rewrite !Qred_correct.
  - by eexists.
Qed.

Lemma toFixed2_0 : toFixed2 0 = 0.
Proof. by apply Qc_is_canon. Qed.

(** The total of the empty cart. *)
Lemma total_empty : parseFloat (toFixed2 (cart_total [])) = 0.
Proof. unfold cart_total. simpl. by rewrite toFixed2_0. Qed.

(** ** Every operation, run as a whole, keeps one line item per product *)

Lemma one_per_product_sublist w cs :
  sublist cs (cartItems w) → one_per_product w →
  one_per_product (set_cartItems cs w).
Proof.
  intros Hs Hp. eapply sublist_NoDup; [exact Hp|]. by apply fmap_sublist.
Qed.

Lemma one_per_product_save_stored c :
  keeps one_per_product (CartItem_save false c).
Proof.
  unfold CartItem_save. destruct (validate c); [|by apply hoare_throw].
  eapply hoare_bind with (R := λ _, one_per_product).
  - apply hoare_query; [apply _| |done].
    intros w Hw. simpl.
    destruct (update_quantity _ _ _) as [cs|] eqn:Hu; simpl; [|done].
    unfold one_per_product in *. simpl.
    by rewrite (update_quantity_products _ _ _ _ Hu).
  - intros [|]; [by apply hoare_ret|by apply hoare_throw].
Qed.

Lemma one_per_product_save_new c :
  hoare (λ w, one_per_product w ∧ (product c ∉ map product (cartItems w)))
    (CartItem_save true c) (λ _, one_per_product) one_per_product.
Proof.
  unfold CartItem_save. destruct (validate c); [|apply hoare_throw; by intros ? []].
  eapply hoare_bind with (R := λ _, one_per_product).
  - apply hoare_query; [apply _| |by intros ? []].
    intros w [Hw Hp]. unfold one_per_product in *. simpl.
    rewrite map_app. apply NoDup_app. split_and!; [done| |apply NoDup_singleton].
    intros x Hx ->%list_elem_of_singleton. done.
  - intros [|]; [by apply hoare_ret|by apply hoare_throw].
Qed.

Lemma one_per_product_post_cart req : keeps one_per_product (post_cart req).
Proof.
  unfold post_cart.
  destruct (req_productId req) as [productId|]; [|by apply hoare_ret].
  destruct (req_quantity req) as [qty|]; [|by apply hoare_ret].
  destruct (_ || _); [by apply hoare_ret|].
  eapply hoare_try_catch with (E' := one_per_product);
    [|intros e; by apply hoare_ret].
  unfold post_cart_try.
  eapply hoare_bind; [by_query hoare_findOne|]. intros cartItem.
  eapply hoare_bind with (R := λ _, one_per_product).
  - destruct cartItem as [c|].
    + eapply hoare_bind with (R := λ _, one_per_product).
      * eapply hoare_weaken;
          [apply one_per_product_save_stored|by intros ? []|done..].
      * intros ?. by apply hoare_ret.
    + set (I := λ w, one_per_product w ∧
                     (productId ∉ map product (cartItems w))).
      eapply hoare_bind with (R := λ _, I).
      * eapply hoare_weaken; [apply (hoare_Product_findById I)| |done|].
        -- intros w [Hw Hf]. split; [done|]. by apply findOne_None.
        -- by intros w [].
      * intros [p|]; [|apply hoare_ret; by intros ? []].
        eapply hoare_bind with (R := λ _, I); [by intros w Hw|].
        intros id. eapply hoare_bind with (R := λ _, one_per_product).
        -- eapply hoare_weaken; [apply one_per_product_save_new|done..].
        -- intros ?. by apply hoare_ret.
  - intros [r|c]; [by apply hoare_ret|].
    eapply hoare_bind; [by_query hoare_findById_populate|].
    intros populatedItem. by apply hoare_ret.
Qed.

Lemma one_per_product_deleteMany : keeps one_per_product CartItem_deleteMany.
Proof.
  apply hoare_query; [apply _| |done].
  intros w Hw. apply one_per_product_sublist; [apply sublist_nil_l|done].
Qed.

Lemma one_per_product_delete_cart id : keeps one_per_product (delete_cart id).
Proof.
  eapply hoare_try_catch with (E' := one_per_product).
  - eapply hoare_bind with (R := λ _, one_per_product).
    + apply hoare_query; [apply _| |done].
      intros w Hw. pose proof (remove_doc_sublist (cartItems w) id) as Hs.
      destruct (remove_doc id (cartItems w)) as [r cs]. simpl in *.
      by apply one_per_product_sublist.
    + intros [d|]; by apply hoare_ret.
  - intros e. by apply hoare_ret.
Qed.

Lemma one_per_product_post_checkout : keeps one_per_product post_checkout.
Proof.
  eapply hoare_try_catch with (E' := one_per_product).
  - eapply hoare_bind; [by_query hoare_find_populate|]. intros items.
    eapply hoare_bind; [apply one_per_product_deleteMany|]. intros ?.
    eapply hoare_bind with (R := λ _, one_per_product); [by intros w Hw|].
    intros oid.
    eapply hoare_bind with (R := λ _, one_per_product); [by intros w Hw|].
    intros now. by apply hoare_ret.
  - intros e. by apply hoare_ret.
Qed.

Lemma one_per_product_get_cart : keeps one_per_product get_cart.
Proof.
  eapply hoare_try_catch with (E' := one_per_product).
  - eapply hoare_bind; [by_query hoare_find_populate|].
    intros items. by apply hoare_ret.
  - intros e. by apply hoare_ret.
Qed.

Lemma one_per_product_seedDatabase : keeps one_per_product seedDatabase.
Proof.
  eapply hoare_try_catch with (E' := one_per_product).
  - eapply hoare_bind; [by_query hoare_countDocuments|]. intros n.
    destruct (n =? 0)%nat; [|apply hoare_ret; by intros ? []].
    apply hoare_query; [apply _|by intros ? []|by intros ? []].
  - intros e. by apply hoare_ret.
Qed.

(** A POST for a product that has a line item changes neither the ids nor
    the product references of the collection: nothing is appended. *)
Lemma post_cart_in_place (pids ids : list ObjectId) pid qty :
  pid ∈ pids →
  keeps (λ w, map product (cartItems w) = pids ∧ map c_id (cartItems w) = ids)
    (post_cart (mkReq (Some pid) (Some qty))).
Proof.
  intros Hin. set (I := λ w, _ ∧ _).
  unfold post_cart. simpl. destruct (_ || _); [by apply hoare_ret|].
  eapply hoare_try_catch with (E' := I); [|intros e; by apply hoare_ret].
  unfold post_cart_try.
  eapply hoare_bind; [by_query hoare_findOne|]. intros cartItem.
  eapply hoare_bind with (R := λ _, I).
  - destruct cartItem as [c|].
    + eapply hoare_bind with (R := λ _, I); [|intros ?; by apply hoare_ret].
      eapply hoare_weaken with (P' := I) (Q' := λ _, I) (E' := I);
        [|by intros ? []|done..].
      unfold CartItem_save. destruct (validate _); [|by apply hoare_throw].
      eapply hoare_bind with (R := λ _, I).
      * apply hoare_query; [apply _| |done].
        intros w [Hp Hi]. simpl.
        destruct (update_quantity _ _ _) as [cs|] eqn:Hu; simpl; [|done].
        split; simpl.
        -- by rewrite (update_quantity_products _ _ _ _ Hu).
        -- by rewrite (update_quantity_ids _ _ _ _ Hu).
      * intros [|]; [by apply hoare_ret|by apply hoare_throw].
    + intros w [[Hp Hi] Hf]. exfalso.
      symmetry in Hf. apply findOne_None in Hf. by rewrite Hp in Hf.
  - intros [r|c]; [by apply hoare_ret|].
    eapply hoare_bind; [by_query hoare_findById_populate|].
    intros populatedItem. by apply hoare_ret.
Qed.

(** ** References to the catalog *)

Lemma lookup_product_app ps ps' id :
  is_Some (lookup_product ps id) → is_Some (lookup_product (ps ++ ps') id).
Proof.
  unfold lookup_product. induction ps as [|p ps IH]; simpl.
  - by intros [? ?].
  - by destruct (bool_decide _).
Qed.

Lemma refs_resolve_sublist w cs :
  sublist cs (cartItems w) → refs_resolve w → refs_resolve (set_cartItems cs w).
Proof.
  unfold refs_resolve. rewrite !Forall_forall. intros Hs Hr pid Hin.
  apply Hr. eapply elem_of_sublist; [exact Hin|]. by apply fmap_sublist.
Qed.

Lemma refs_resolve_save_stored c :
  keeps refs_resolve (CartItem_save false c).
Proof.
  unfold CartItem_save. destruct (validate c); [|by apply hoare_throw].
  eapply hoare_bind with (R := λ _, refs_resolve).
  - apply hoare_query; [apply _| |done].
    intros w Hw. simpl.
    destruct (update_quantity _ _ _) as [cs|] eqn:Hu; simpl; [|done].
    unfold refs_resolve in *. simpl.
    by rewrite (update_quantity_products _ _ _ _ Hu).
  - intros [|]; [by apply hoare_ret|by apply hoare_throw].
Qed.

Lemma refs_resolve_save_new c :
  hoare (λ w, refs_resolve w ∧ is_Some (lookup_product (products w) (product c)))
    (CartItem_save true c) (λ _, refs_resolve) refs_resolve.
Proof.
  unfold CartItem_save.
  destruct (validate c); [|apply hoare_throw; by intros ? []].
  eapply hoare_bind with (R := λ _, refs_resolve).
  - apply hoare_query; [apply _| |by intros ? []].
    intros w [Hw Hp]. unfold refs_resolve in *. simpl.
    rewrite map_app. apply Forall_app. split; [done|]. by constructor.
  - intros [|]; [by apply hoare_ret|by apply hoare_throw].
Qed.

(** Unfolds the turns of a task and the monad, not the queries. *)
Ltac task_unfold :=
  unfold run, turns, advance, resume, caught, start, get_products, get_cart,
    post_cart, post_cart_try, delete_cart, post_checkout, seedDatabase,
    try_catch, mbind, mret, Io_bind, Io_ret, io_bind, io_ret.

(** ** Turns and whole runs

    A task that gets its turns in a row is the function run as a whole. *)

Lemma turns_seedDatabase w :
  turns 2 Seed_countDocuments w = (Seed_end, (run seedDatabase w).2).
Proof.
  task_unfold. destruct (Product_countDocuments w) as [[n|e] w1]; [|done].
  destruct (n =? 0)%nat; [|done].
  by destruct (Product_insertMany MOCK_PRODUCTS w1) as [[[]|e] w2].
Qed.

Lemma turns_handle (r : Request) (w : World) :
  ∃ resp w', run (handle r) w = (Returned resp, w')
             ∧ turns 4 (start r) w = (Answered resp, w').
Proof.
  destruct r as [| |[[pid|] [q|]]|id|]; simpl.
  - task_unfold. destruct (Product_find w) as [[ps|e] w1]; by eexists _, _.
  - task_unfold. destruct (CartItem_find_populate w) as [[items|e] w1];
      by eexists _, _.
  - task_unfold. cbn [req_productId req_quantity].
    destruct (_ || _); [by eexists _, _|].
    destruct (CartItem_findOne pid w) as [[[c|]|e] w1]; [| |by eexists _, _].
    + cbn [c_id].
      destruct (CartItem_save false _ w1) as [[[]|e] w2]; [|by eexists _, _].
      destruct (CartItem_findById_populate _ w2) as [[item|e] w3];
        by eexists _, _.
    + destruct (Product_findById pid w1) as [[[p|]|e] w2];
        [| by eexists _, _..].
      unfold new_ObjectId. cbn [c_id].
      destruct (CartItem_save true _ _) as [[[]|e] w3]; [|by eexists _, _].
      destruct (CartItem_findById_populate _ w3) as [[item|e] w4];
        by eexists _, _.
  - by eexists _, _.
  - by eexists _, _.
  - by eexists _, _.
  - task_unfold.
    destruct (CartItem_findByIdAndDelete id w) as [[[d|]|e] w1];
      by eexists _, _.
  - task_unfold. destruct (CartItem_find_populate w) as [[items|e] w1];
      [|by eexists _, _].
    destruct (CartItem_deleteMany w1) as [[[]|e] w2]; [|by eexists _, _].
    unfold new_ObjectId, get_clock. by eexists _, _.
Qed.

(** ** Steps of the server *)

Lemma turns_steps n t w ts :
  rtc server_step (mkServer w (ts ++ [t]))
    (mkServer (turns n t w).2 (ts ++ [(turns n t w).1])).
Proof.
  revert t w. induction n as [|n IH]; intros t w; [done|].
  simpl. destruct (advance t w) as [t' w'] eqn:Ha.
  eapply rtc_l; [|apply IH].
  pose proof (step_resume (length ts) t w (ts ++ [t])) as Hs.
  rewrite Ha in Hs. simpl in Hs.
  rewrite insert_app_r_alt, Nat.sub_diag in Hs by done. apply Hs.
  apply list_lookup_middle. done.
Qed.

Lemma resume_task_steps i s : rtc server_step s (resume_task i s).
Proof.
  unfold resume_task. destruct s as [w ts]. simpl.
  destruct (ts !! i) as [t|] eqn:Hi; [|done].
  apply rtc_once. by apply step_resume.
Qed.

Lemma interleave_steps order s : rtc server_step s (interleave order s).
Proof.
  revert s. induction order as [|i order IH]; intros s; [done|].
  simpl. etrans; [apply resume_task_steps|apply IH].
Qed.

Lemma arrive_steps r s : rtc server_step s (arrive r s).
Proof. destruct s as [w ts]. apply rtc_once, step_request. Qed.

Lemma steps_reachable s :
  rtc server_step (mkServer empty_world []) s → reachable (database s).
Proof. destruct s as [w ts]. intros Hs. by exists ts. Qed.

Lemma two_posts_steps : rtc server_step (mkServer empty_world []) two_posts.
Proof.
  eapply rtc_l; [apply step_boot|]. unfold two_posts.
  etrans; [apply (interleave_steps [0; 0]%nat)|].
  etrans; apply arrive_steps.
Qed.

Lemma reachable_overlapped : reachable (database overlapped).
Proof.
  apply steps_reachable. etrans; [apply two_posts_steps|].
  apply interleave_steps.
Qed.

Lemma reach_start : reachable empty_world.
Proof. by exists []. Qed.

Lemma reach_seed w : reachable w → reachable (run seedDatabase w).2.
Proof.
  intros [ts Hr]. exists (ts ++ [Seed_end]).
  etrans; [exact Hr|].
  eapply rtc_l; [apply step_boot|].
  pose proof (turns_steps 2 Seed_countDocuments w ts) as Hs.
  by rewrite turns_seedDatabase in Hs.
Qed.

Lemma reach_handle r w : reachable w → reachable (run (handle r) w).2.
Proof.
  intros [ts Hr]. destruct (turns_handle r w) as (resp & w' & Hrun & Ht).
  rewrite Hrun. exists (ts ++ [Answered resp]).
  etrans; [exact Hr|].
  eapply rtc_l; [apply (step_request r)|].
  pose proof (turns_steps 4 (start r) w ts) as Hs.
  by rewrite Ht in Hs.
Qed.

Lemma reach_env t fs w :
  reachable w →
  reachable (mkWorld (products w) (cartItems w) (next_id w) t fs).
Proof.
  intros [ts Hr]. exists ts.
  eapply rtc_r; [exact Hr|]. apply step_env.
Qed.

(** ** Healthy runs

    What each handler answers, and the world it leaves, when no query
    fails. *)

Lemma get_cart_healthy w :
  healthy w →
  run get_cart w
  = (Returned (json (CartBody (map (populate (products w)) (cartItems w))
                       (parseFloat
                          (toFixed2 (cart_total
                             (map (populate (products w)) (cartItems w))))))),
     w).
Proof. intros H. healthy_world w H. by io_unfold. Qed.

Lemma post_checkout_healthy w :
  healthy w →
  run post_checkout w
  = (Returned (json (ReceiptBody true
       "Checkout successful! Thank you for your order."%string
       (mkOrder (map order_line (map (populate (products w)) (cartItems w)))
          (parseFloat
             (toFixed2 (cart_total (map (populate (products w)) (cartItems w)))))
          (next_id w) (clock w)))),
     set_next_id (N.succ (next_id w)) (set_cartItems [] w)).
Proof. intros H. healthy_world w H. by io_unfold. Qed.

Lemma delete_cart_healthy w id :
  healthy w →
  run (delete_cart id) w
  = (Returned
       match (remove_doc id (cartItems w)).1 with
       | Some d => json (RemovedBody "Item removed from cart."%string d)
       | None => mkResponse 404 (MessageBody "Cart item not found."%string)
       end,
     set_cartItems (remove_doc id (cartItems w)).2 w).
Proof.
  intros H. healthy_world w H. io_unfold. cbn [faults cartItems].
  destruct (remove_doc id cs) as [[d|] cs']; done.
Qed.

Lemma valid_quantity (q : Qc) :
  1 ≤ q → bool_decide (q = 0) || bool_decide (q < 1) = false.
Proof.
  intros Hq. apply orb_false_iff. split.
  - apply bool_decide_eq_false. intros ->. by apply Qcle_not_lt in Hq.
  - apply bool_decide_eq_false. by apply Qcle_not_lt.
Qed.

Lemma invalid_quantity (q : Qc) :
  q < 1 → bool_decide (q = 0) || bool_decide (q < 1) = true.
Proof.
  intros Hq. apply orb_true_iff. right. by apply bool_decide_eq_true.
Qed.

Lemma lookup_product_id ps id p :
  lookup_product ps id = Some p → p_id p = id.
Proof.
  unfold lookup_product. induction ps as [|p' ps IH]; simpl; [done|].
  case_bool_decide as Hp; [by intros [= <-]|done].
Qed.

Section Upsert.
Implicit Types (cs : list CartItem) (c : CartItem) (pid : ObjectId).

Local Abbreviation for_product pid := (λ c : CartItem, product c = pid).

Lemma filter_absent cs pid :
  pid ∉ map product cs → filter (for_product pid) cs = [].
Proof.
  induction cs as [|d cs IH]; [done|]. simpl.
  intros [Hne Hnin]%not_elem_of_cons.
  rewrite filter_cons_False by congruence. auto.
Qed.

(** The write of the update branch, on a well-formed collection. *)
Lemma update_found cs pid c q :
  NoDup (map product cs) → NoDup (map c_id cs) →
  find (λ c, bool_decide (product c = pid)) cs = Some c →
  ∃ cs', update_quantity (c_id c) q cs = Some cs' ∧
         filter (for_product pid) cs' = [mkCartItem (c_id c) pid q] ∧
         find (λ d, bool_decide (c_id d = c_id c)) cs'
           = Some (mkCartItem (c_id c) pid q).
Proof.
  induction cs as [|d cs IH]; simpl; [done|].
  intros [Hp Hnp]%NoDup_cons [Hi Hni]%NoDup_cons.
  case_bool_decide as Hd.
  - intros [= ->]. rewrite bool_decide_eq_true_2 by done.
    eexists. split; [done|]. rewrite Hd. split.
    + rewrite filter_cons_True by done. f_equal.
      apply filter_absent. by rewrite <-Hd.
    + simpl. by rewrite bool_decide_eq_true_2.
  - intros Hf. destruct (IH Hnp Hni Hf) as (cs' & Hu & Hfl & Hfi).
    apply findOne_Some in Hf as [Hin _].
    assert (c_id d ≠ c_id c) as Hne.
    { intros Heq. apply Hi. rewrite Heq. by apply list_elem_of_fmap_2. }
    rewrite bool_decide_eq_false_2 by done. rewrite Hu. simpl.
    eexists. split; [done|]. split.
    + by rewrite filter_cons_False.
    + simpl. by rewrite bool_decide_eq_false_2.
Qed.

Lemma find_after {A} (f : A → bool) (l l' : list A) :
  find f l = None → find f (l ++ l') = find f l'.
Proof.
  induction l as [|x l IH]; simpl; [done|]. by destruct (f x).
Qed.

(** The insertion of the create branch. *)
Lemma insert_fresh cs c :
  product c ∉ map product cs → c_id c ∉ map c_id cs →
  filter (for_product (product c)) (cs ++ [c]) = [c] ∧
  find (λ d, bool_decide (c_id d = c_id c)) (cs ++ [c]) = Some c.
Proof.
  intros Hp Hi. split.
  - rewrite filter_app, filter_absent by done. simpl.
    by rewrite filter_cons_True.
  - rewrite find_after by by apply findById_None.
    simpl. by rewrite bool_decide_eq_true_2.
Qed.
End Upsert.

(** A valid POST for a product of the catalog, on a well-formed store:
    the answer is 201 with the joined line item, and afterwards the line
    item of the product is the only one for it and has the posted
    quantity. *)
Lemma post_cart_healthy w pid q p :
  healthy w → cart_inv w → lookup_product (products w) pid = Some p → 1 ≤ q →
  ∃ id w',
    run (post_cart (mkReq (Some pid) (Some q))) w
      = (Returned (mkResponse 201 (ItemBody (Some (mkPopulated id (Some p) q)))),
         w')
    ∧ healthy w' ∧ products w' = products w
    ∧ filter (λ c, product c = pid) (cartItems w') = [mkCartItem id pid q].
Proof.
  intros H (Hp & Hi & Hfr) Hl Hq. healthy_world w H.
  unfold cart_inv, one_per_product, ids_unique, ids_fresh in *. simpl in *.
  unfold run, post_cart. cbn [req_productId req_quantity].
  rewrite valid_quantity by done.
  unfold try_catch, post_cart_try, mbind, Io_bind, io_bind, CartItem_findOne,
    query. cbn [faults cartItems].
  destruct (find _ cs) as [c|] eqn:Hf.
  - destruct (update_found cs pid c q Hp Hi Hf) as (cs' & Hu & Hfl & Hfi).
    unfold CartItem_save, validate. cbn [quantity c_id].
    rewrite bool_decide_eq_true_2 by done.
    io_unfold. cbn [faults cartItems]. rewrite Hu.
    cbn [faults cartItems set_cartItems products fst snd c_id].
    rewrite Hfi. exists (c_id c). eexists. split.
    { cbn [fmap option_fmap option_map]. unfold populate at 1.
      cbn [c_id product quantity]. by rewrite Hl. }
    split_and!; [reflexivity|reflexivity|exact Hfl].
  - apply findOne_None in Hf.
    unfold Product_findById, query, lookup_product in *.
    cbn [faults products]. rewrite Hl.
    unfold new_ObjectId, CartItem_save, validate.
    cbn [next_id set_next_id quantity products cartItems clock faults].
    rewrite bool_decide_eq_true_2 by done.
    assert (n ∉ map c_id cs) as Hn.
    { intros Hin. rewrite Forall_forall in Hfr. apply Hfr in Hin. lia. }
    destruct (insert_fresh cs (mkCartItem n pid q) Hf Hn) as [Hfl Hfi].
    io_unfold.
    cbn [faults cartItems set_cartItems set_next_id products fst snd c_id
         next_id clock].
    cbn [c_id product] in Hfl, Hfi. rewrite Hfi.
    exists n. eexists. split.
    { cbn [fmap option_fmap option_map]. unfold populate at 1, lookup_product.
      cbn [c_id product quantity]. by rewrite Hl. }
    split_and!; [reflexivity|reflexivity|exact Hfl].
Qed.

Lemma post_cart_invalid w req :
  req_productId req = None ∨ req_quantity req = None
  ∨ (∃ q, req_quantity req = Some q ∧ q < 1) →
  run (post_cart req) w = (Returned invalid_input, w).
Proof.
  destruct req as [pid q]. intros Hreq. unfold run, post_cart. simpl in *.
  destruct pid as [pid|]; [|done]. destruct q as [q|]; [|done].
  destruct Hreq as [?|[?|(q' & [= <-] & Hq)]]; [done..|].
  by rewrite invalid_quantity.
Qed.

Lemma post_cart_not_found w pid q :
  healthy w → 1 ≤ q → pid ∉ map product (cartItems w) →
  lookup_product (products w) pid = None →
  run (post_cart (mkReq (Some pid) (Some q))) w
  = (Returned (mkResponse 404 (MessageBody "Product not found."%string)), w).
Proof.
  intros H Hq Hnin Hl. healthy_world w H. simpl in *.
  unfold run, post_cart. cbn [req_productId req_quantity].
  rewrite valid_quantity by done.
  assert (find (λ c, bool_decide (product c = pid)) cs = None) as Hf.
  { destruct (find _ cs) as [c|] eqn:Hf; [|done].
    apply findOne_Some in Hf as [Hin <-]. destruct Hnin.
    by apply list_elem_of_fmap_2. }
  io_unfold. cbn [faults cartItems products]. rewrite Hf.
  cbn [faults products]. by rewrite Hl.
Qed.

(** Where every line item refers to a product of the catalog, a POST with
    a product that is not in the catalog is answered 404. *)
Lemma post_cart_unknown_product w pid q :
  healthy w → refs_resolve w → 1 ≤ q →
  lookup_product (products w) pid = None →
  run (post_cart (mkReq (Some pid) (Some q))) w
  = (Returned (mkResponse 404 (MessageBody "Product not found."%string)), w).
Proof.
  intros H Hr Hq Hl.
  apply post_cart_not_found; [done..| |done].
  intros Hin. unfold refs_resolve in Hr. rewrite Forall_forall in Hr.
  apply Hr in Hin. rewrite Hl in Hin. by destruct Hin.
Qed.


(** Whatever the driver does, the seeder leaves a catalog that has products
    as it is. *)
Lemma seed_skips_populated w :
  products w ≠ [] →
  products (run seedDatabase w).2 = products w
  ∧ cartItems (run seedDatabase w).2 = cartItems w
  ∧ next_id (run seedDatabase w).2 = next_id w.
Proof.
  intros Hne. destruct w as [ps cs n t fs]. simpl in Hne.
  destruct ps as [|p ps]; [done|].
  io_unfold. cbn [faults]. by destruct fs as [|[] fs].
Qed.

(** ** Healthy runs of POST /api/cart, in full *)

(** The update branch: the stored line item of the product gets the posted
    quantity; the answer carries what is read back. *)
Lemma post_cart_run_update w pid q c cs' :
  healthy w → 1 ≤ q →
  find (λ c, bool_decide (product c = pid)) (cartItems w) = Some c →
  update_quantity (c_id c) q (cartItems w) = Some cs' →
  run (post_cart (mkReq (Some pid) (Some q))) w
  = (Returned (mkResponse 201 (ItemBody
       (populate (products w)
          <$> find (λ d, bool_decide (c_id d = c_id c)) cs'))),
     set_cartItems cs' w).
Proof.
  intros H Hq Hf Hu. healthy_world w H. simpl in *.
  unfold run, post_cart. cbn [req_productId req_quantity].
  rewrite valid_quantity by done.
  unfold try_catch, post_cart_try, mbind, Io_bind, io_bind, CartItem_findOne,
    query. cbn [faults cartItems]. rewrite Hf.
  unfold CartItem_save, validate. cbn [quantity c_id].
  rewrite bool_decide_eq_true_2 by done.
  io_unfold. cbn [faults cartItems]. by rewrite Hu.
Qed.

(** The create branch: a line item with a new id is appended. *)
Lemma post_cart_run_create w pid q p :
  healthy w → 1 ≤ q →
  find (λ c, bool_decide (product c = pid)) (cartItems w) = None →
  lookup_product (products w) pid = Some p →
  run (post_cart (mkReq (Some pid) (Some q))) w
  = (Returned (mkResponse 201 (ItemBody
       (populate (products w)
          <$> find (λ d, bool_decide (c_id d = next_id w))
                (cartItems w ++ [mkCartItem (next_id w) pid q])))),
     set_cartItems (cartItems w ++ [mkCartItem (next_id w) pid q])
       (set_next_id (N.succ (next_id w)) w)).
Proof.
  intros H Hq Hf Hl. healthy_world w H. simpl in *.
  unfold run, post_cart. cbn [req_productId req_quantity].
  rewrite valid_quantity by done.
  unfold try_catch, post_cart_try, mbind, Io_bind, io_bind, CartItem_findOne,
    query. cbn [faults cartItems]. rewrite Hf.
  unfold Product_findById, query, lookup_product in *.
  cbn [faults products]. rewrite Hl.
  unfold new_ObjectId, CartItem_save, validate.
  cbn [next_id set_next_id quantity products cartItems clock faults].
  rewrite bool_decide_eq_true_2 by done.
  by io_unfold.
Qed.

(** With unique ids, the write of the update branch changes the quantity of
    the line item and nothing else. *)
Lemma update_quantity_map cs c q :
  NoDup (map c_id cs) → c ∈ cs →
  update_quantity (c_id c) q cs
  = Some (map (λ d, if bool_decide (c_id d = c_id c)
                    then mkCartItem (c_id d) (product d) q else d) cs)
  ∧ find (λ d, bool_decide (c_id d = c_id c))
      (map (λ d, if bool_decide (c_id d = c_id c)
                 then mkCartItem (c_id d) (product d) q else d) cs)
    = Some (mkCartItem (c_id c) (product c) q).
Proof.
  induction cs as [|d cs IH]; simpl; [by intros _ ?%elem_of_nil|].
  intros [Hd Hnd]%NoDup_cons Hin. case_bool_decide as Hid.
  - assert (d = c) as ->.
    { apply elem_of_cons in Hin as [->|Hin]; [done|].
      destruct Hd. rewrite Hid. by apply list_elem_of_fmap_2. }
    simpl. rewrite bool_decide_eq_true_2 by done. split; [|done].
    do 2 f_equal. rewrite <-(list_fmap_id cs) at 1. apply list_fmap_ext.
    intros i e He%list_elem_of_lookup_2. simpl.
    rewrite bool_decide_eq_false_2; [done|].
    intros Heq. apply Hd. rewrite <-Heq. by apply list_elem_of_fmap_2.
  - apply elem_of_cons in Hin as [->|Hin]; [done|].
    destruct (IH Hnd Hin) as [-> Hf]. simpl.
    by rewrite bool_decide_eq_false_2.
Qed.

(** A valid POST for a product that has a line item, on a store with unique
    ids: the quantity of the first line item of the product is overwritten,
    nothing else changes, and the catalog is read only to join the
    answer. *)
Lemma post_cart_overwrite w pid q c :
  healthy w → ids_unique w → 1 ≤ q →
  find (λ c, bool_decide (product c = pid)) (cartItems w) = Some c →
  run (post_cart (mkReq (Some pid) (Some q))) w
  = (Returned (mkResponse 201 (ItemBody
       (Some (mkPopulated (c_id c) (lookup_product (products w) pid) q)))),
     set_cartItems
       (map (λ d, if bool_decide (c_id d = c_id c)
                  then mkCartItem (c_id d) (product d) q else d) (cartItems w))
       w).
Proof.
  intros H Hi Hq Hf. pose proof (findOne_Some _ _ _ Hf) as [Hc Hp].
  destruct (update_quantity_map (cartItems w) c q Hi Hc) as [Hu Hfi].
  rewrite (post_cart_run_update w pid q c _ H Hq Hf Hu), Hfi.
  simpl. unfold populate. simpl. by rewrite Hp.
Qed.

(** * The claims *)

(** C1, as stated, fails.  With one and a half mugs in the cart, the sum of
    price × quantity is just above 19.485 and rounds to 19.49; the handler
    answers 19.48, because the product 12.99 × 1.5, computed in doubles, is
    rounded to a double below 19.485. *)
Lemma get_cart_total_counterexample :
  let w := one_and_a_half_mugs in
  let mug := mkProduct 3%N "Aesthetic Vibe Mug"%string (double (1299 # 100))
               "https://placehold.co/400x400/2D3748/E2E8F0?text=Vibe+Mug"%string in
  let items := [mkPopulated 6%N (Some mug) (Q2Qc (3 # 2))] in
  healthy w ∧ reachable w
  ∧ cartItems w = [mkCartItem 6%N 3%N (Q2Qc (3 # 2))]
  ∧ run get_cart w
    = (Returned (json (CartBody items (parseFloat (Q2Qc (1948 # 100))))), w)
  ∧ (Q2Qc (19485 # 1000) < sum_resolved items)
  ∧ toFixed2 (sum_resolved items) = Q2Qc (1949 # 100)
  ∧ (js_mul (price mug) (Q2Qc (3 # 2)) < Q2Qc (19485 # 1000))
  ∧ parseFloat (Q2Qc (1948 # 100)) ≠ parseFloat (Q2Qc (1949 # 100))
  ∧ parseFloat (Q2Qc (1948 # 100)) ≠ Q2Qc (1949 # 100).
Proof.
  intros w mug items. split_and!.
  - reflexivity.
  - apply (reach_handle (PostCart _)), reach_seed, reach_start.
  - reflexivity.
  - reflexivity.
  - by vm_compute.
  - by apply Qc_is_canon.
  - by vm_compute.
  - intros Heq. apply (f_equal this) in Heq. vm_compute in Heq.
    discriminate Heq.
  - intros Heq. apply (f_equal this) in Heq. vm_compute in Heq.
    discriminate Heq.
Qed.

(** C1, amended.  From any cart whose total is computed without overflow,
    GET /api/cart lists every line item, in order, joined to its product
    or to [null], and leaves the store as it was.  Its total is the sum of
    price × quantity over the lines whose product resolves, taken in the
    order of the cart in the arithmetic of doubles, and rounded to two
    decimals: the double nearest to a whole number of hundredths that is
    within half a hundredth of that sum. *)
Theorem get_cart_total (w : World) :
  healthy w → total_is_finite w →
  ∃ items (n : Z),
    run get_cart w
    = (Returned (json (CartBody items (parseFloat (Q2Qc (n # 100))))), w)
    ∧ Forall2 (joined (products w)) (cartItems w) items
    ∧ Q2Qc (n # 100) = toFixed2 (double_sum items)
    ∧ double_sum items - Q2Qc (1 # 200) ≤ Q2Qc (n # 100)
    ∧ Q2Qc (n # 100) ≤ double_sum items + Q2Qc (1 # 200).
Proof.
  intros H _.
  set (items := map (populate (products w)) (cartItems w)).
  destruct (toFixed2_hundredths (double_sum items)) as [n Hn].
  exists items, n. rewrite <-Hn. split_and!.
  - rewrite get_cart_healthy by done. by rewrite cart_total_double_sum.
  - apply populate_joined.
  - done.
  - apply toFixed2_close.
  - apply toFixed2_close.
Qed.

(** On the cart with one and a half mugs and a line item whose product is
    not in the catalog. *)
Lemma get_cart_total_witness :
  ∃ items (n : Z),
    run get_cart with_lost_product
    = (Returned (json (CartBody items (parseFloat (Q2Qc (n # 100))))),
       with_lost_product)
    ∧ Forall2 (joined (products with_lost_product))
        (cartItems with_lost_product) items
    ∧ Q2Qc (n # 100) = toFixed2 (double_sum items)
    ∧ double_sum items - Q2Qc (1 # 200) ≤ Q2Qc (n # 100)
    ∧ Q2Qc (n # 100) ≤ double_sum items + Q2Qc (1 # 200).
Proof.
  apply (get_cart_total with_lost_product); [reflexivity|].
  apply (bool_decide_unpack _). by vm_compute.
Defined.

(** There, the line item without product is listed, with [null], and the
    total is that of the mugs. *)
Example total_with_lost_product :
  (run get_cart with_lost_product).1
  = Returned (json (CartBody
      [mkPopulated 6%N
         (Some (mkProduct 3%N "Aesthetic Vibe Mug"%string (double (1299 # 100))
            "https://placehold.co/400x400/2D3748/E2E8F0?text=Vibe+Mug"%string))
         (Q2Qc (3 # 2));
       mkPopulated 7%N None (Q2Qc 2)]
      (parseFloat (Q2Qc (1948 # 100))))).
Proof. reflexivity. Qed.

(** The examples of the specification: one mug at 12.99 and three caps at
    18.50 total 68.49; setting the quantity of a 25.00 tee to 2 and then to 1
    gives 50 and then 25. *)
Example total_mug_and_caps :
  total_of (run get_cart mug_and_caps).1
  = Some (parseFloat (Q2Qc (6849 # 100))).
Proof. reflexivity. Qed.

Example total_overwritten :
  let tee q := post_cart (mkReq (Some 0%N) (Some (Q2Qc q))) in
  let two := (run (tee 2) seeded).2 in
  let one := (run (tee 1) two).2 in
  this <$> total_of (run get_cart two).1 = Some 50%Q
  ∧ this <$> total_of (run get_cart one).1 = Some 25%Q
  ∧ map (λ c, this (quantity c)) (cartItems one) = [1%Q].
Proof. by vm_compute. Qed.



(** C3.  From a cart that is not empty, checkout answers with a receipt
    whose total is the total GET /api/cart gives just before, with one order
    line per line item; the cart fetched after the checkout is empty and its
    total is 0. *)
Theorem checkout_total_then_empty (w : World) :
  healthy w → cartItems w ≠ [] →
  ∃ items t msg o w',
    run get_cart w = (Returned (json (CartBody items t)), w)
    ∧ run post_checkout w = (Returned (json (ReceiptBody true msg o)), w')
    ∧ o_total o = t
    ∧ length (o_items o) = length (cartItems w)
    ∧ run get_cart w' = (Returned (json (CartBody [] 0)), w').
Proof.
  intros H Hne. eexists _, _, _, _, _. split_and!.
  - by apply get_cart_healthy.
  - by apply post_checkout_healthy.
  - done.
  - simpl. by rewrite !length_map.
  - rewrite get_cart_healthy by done. simpl. by rewrite total_empty.
Qed.

Lemma checkout_total_then_empty_witness :
  ∃ items t msg o w',
    run get_cart mug_and_caps = (Returned (json (CartBody items t)), mug_and_caps)
    ∧ run post_checkout mug_and_caps
      = (Returned (json (ReceiptBody true msg o)), w')
    ∧ o_total o = t
    ∧ length (o_items o) = length (cartItems mug_and_caps)
    ∧ run get_cart w' = (Returned (json (CartBody [] 0)), w').
Proof.
  apply (checkout_total_then_empty mug_and_caps); [reflexivity|].
  by vm_compute.
Defined.

(** C4, as stated, fails: when [deleteMany] rejects after the cart was
    read, the answer is the error of the [catch], not a receipt. *)
Lemma checkout_failed_clear_counterexample :
  faults clear_fails = [false; true]
  ∧ (run post_checkout clear_fails).1 = Returned checkout_error
  ∧ ¬ (∃ msg o, (run post_checkout clear_fails).1
                = Returned (json (ReceiptBody true msg o))).
Proof.
  split_and!; [reflexivity|reflexivity|].
  intros (msg & o & Heq). vm_compute in Heq. discriminate Heq.
Qed.

(** C4, amended.  When the read of the cart succeeds and the clear is
    rejected, checkout answers 500 "Server error during checkout.": no
    receipt is returned and no order id is drawn; nothing is rolled back or
    retried, the collections stay as the failed clear left them. *)
Theorem checkout_clear_failure (w : World) (fs : list bool) :
  faults w = false :: true :: fs →
  run post_checkout w = (Returned checkout_error, set_faults fs w).
Proof.
  destruct w as [ps cs n t fs']. simpl. intros ->. by io_unfold.
Qed.

Lemma checkout_clear_failure_witness :
  run post_checkout clear_fails
  = (Returned checkout_error, set_faults [] clear_fails).
Proof. apply (checkout_clear_failure clear_fails []). reflexivity. Defined.

(** C5, as stated, fails: the product of the request is not in the catalog,
    yet the call is answered 201, because a line item for it exists. *)
Lemma post_cart_dangling_counterexample :
  lookup_product (products dangling) 7%N = None
  ∧ (run (post_cart (mkReq (Some 7%N) (Some (Q2Qc 2)))) dangling).1
    = Returned (mkResponse 201
                  (ItemBody (Some (mkPopulated 0%N None (Q2Qc 2))))).
Proof. split; reflexivity. Qed.

(** C5, amended.  A request without [productId] or without [quantity], or
    with a quantity below 1, is answered 400 and nothing is read or written.
    Otherwise, when the cart has no line item for the product and the
    catalog has no such product, the answer is 404 and the store is
    unchanged.  The catalog is consulted on that path only: when the cart has
    a line item for the product, then, whether or not the product is in the
    catalog, the answer is 201 with that line item carrying the posted
    quantity, and the store is as before but for the quantity of that line
    item, which is the posted one (line item ids being unique). *)
Theorem post_cart_validation (w : World) :
  healthy w →
  (∀ req, req_productId req = None ∨ req_quantity req = None
          ∨ (∃ q, req_quantity req = Some q ∧ q < 1) →
     run (post_cart req) w = (Returned invalid_input, w))
  ∧ (∀ pid q, 1 ≤ q → pid ∉ map product (cartItems w) →
       lookup_product (products w) pid = None →
       run (post_cart (mkReq (Some pid) (Some q))) w
       = (Returned (mkResponse 404 (MessageBody "Product not found."%string)), w))
  ∧ (∀ pid q c, 1 ≤ q → ids_unique w →
       find (λ c, bool_decide (product c = pid)) (cartItems w) = Some c →
       run (post_cart (mkReq (Some pid) (Some q))) w
       = (Returned (mkResponse 201 (ItemBody
            (Some (mkPopulated (c_id c) (lookup_product (products w) pid) q)))),
          set_cartItems
            (map (λ d, if bool_decide (c_id d = c_id c)
                       then mkCartItem (c_id d) (product d) q else d)
               (cartItems w)) w)).
Proof.
  intros H. split_and!.
  - apply post_cart_invalid.
  - intros pid q. by apply post_cart_not_found.
  - intros pid q c Hq Hi Hf. by apply post_cart_overwrite.
Qed.

Lemma post_cart_validation_witness :
  run (post_cart (mkReq (Some 3%N) (Some (Q2Qc (1 # 2))))) seeded
    = (Returned invalid_input, seeded)
  ∧ run (post_cart (mkReq (Some 9%N) (Some (Q2Qc 1)))) seeded
    = (Returned (mkResponse 404 (MessageBody "Product not found."%string)),
       seeded)
  ∧ run (post_cart (mkReq (Some 7%N) (Some (Q2Qc 2)))) dangling
    = (Returned (mkResponse 201 (ItemBody
         (Some (mkPopulated 0%N None (Q2Qc 2))))),
       set_cartItems [mkCartItem 0%N 7%N (Q2Qc 2)] dangling).
Proof.
  split_and!.
  - apply (post_cart_validation seeded); [reflexivity|].
    right. right. exists (Q2Qc (1 # 2)). split; [reflexivity|by vm_compute].
  - apply (post_cart_validation seeded);
      [reflexivity|by vm_compute| |reflexivity].
    apply (bool_decide_unpack _). by vm_compute.
  - destruct (post_cart_validation dangling eq_refl) as (_ & _ & Hu).
    apply (Hu 7%N (Q2Qc 2) (mkCartItem 0%N 7%N (Q2Qc 1)));
      [by vm_compute| |reflexivity].
    apply (bool_decide_unpack _). by vm_compute.
Defined.

(** C6, as stated, fails: the handler of POST /api/cart looks for the line
    item of the product, and creates one two queries later, and nothing in
    the store keeps another request from doing the same in between.  Two
    requests for a product that is not in the cart, whose handlers take
    turns, are both answered 201 and leave two line items for it. *)
Lemma overlapping_posts_counterexample :
  reachable (database two_posts) ∧ one_per_product (database two_posts)
  ∧ reachable (database overlapped)
  ∧ map status (omap (λ t, match t with Answered resp => Some resp | _ => None end)
                  (tasks overlapped)) = [201; 201]%nat
  ∧ cartItems (database overlapped)
    = [mkCartItem 6%N 0%N (Q2Qc 2); mkCartItem 7%N 0%N (Q2Qc 5)]
  ∧ ¬ one_per_product (database overlapped).
Proof.
  split_and!.
  - apply steps_reachable, two_posts_steps.
  - apply (bool_decide_unpack _). by vm_compute.
  - apply reachable_overlapped.
  - reflexivity.
  - reflexivity.
  - apply (bool_decide_unpack _). by vm_compute.
Qed.

(** C6, amended.  Whatever the driver does, each operation on the cart (add
    or update, remove, checkout, clear), when it runs from its first query
    to its answer with no query of another request in between, takes a
    collection with at most one line item per product to such a collection;
    and a POST for a product that has a line item leaves the ids and the
    product references of the collection as they were, so nothing is
    appended. *)
Theorem one_line_per_product (w : World) :
  one_per_product w →
  (∀ req, one_per_product (run (post_cart req) w).2)
  ∧ (∀ id, one_per_product (run (delete_cart id) w).2)
  ∧ one_per_product (run post_checkout w).2
  ∧ one_per_product (run CartItem_deleteMany w).2
  ∧ (∀ pid qty, pid ∈ map product (cartItems w) →
       map product (cartItems (run (post_cart (mkReq (Some pid) (Some qty))) w).2)
         = map product (cartItems w)
       ∧ map c_id (cartItems (run (post_cart (mkReq (Some pid) (Some qty))) w).2)
         = map c_id (cartItems w)).
Proof.
  intros Hw. split_and!.
  - intros req. by apply keeps_run; [apply one_per_product_post_cart|].
  - intros id. by apply keeps_run; [apply one_per_product_delete_cart|].
  - by apply keeps_run; [apply one_per_product_post_checkout|].
  - by apply keeps_run; [apply one_per_product_deleteMany|].
  - intros pid qty Hin.
    by apply (keeps_run _ _ w (post_cart_in_place _ _ pid qty Hin)).
Qed.

(** On the cart with a mug and three caps: seven caps, then also a tee; the
    mug removed; the checkout. *)
Lemma one_line_per_product_witness :
  one_per_product (run (post_cart (mkReq (Some 2%N) (Some (Q2Qc 7)))) mug_and_caps).2
  ∧ one_per_product (run (post_cart (mkReq (Some 0%N) (Some (Q2Qc 1)))) mug_and_caps).2
  ∧ one_per_product (run (delete_cart 6%N) mug_and_caps).2
  ∧ one_per_product (run post_checkout mug_and_caps).2
  ∧ map c_id (cartItems
       (run (post_cart (mkReq (Some 2%N) (Some (Q2Qc 7)))) mug_and_caps).2)
    = map c_id (cartItems mug_and_caps).
Proof.
  assert (one_per_product mug_and_caps) as H
    by (apply (bool_decide_unpack _); by vm_compute).
  destruct (one_line_per_product mug_and_caps H) as (Hp & Hd & Hc & _ & Hi).
  split_and!; [apply Hp|apply Hp|apply Hd|apply Hc|].
  apply Hi. apply (bool_decide_unpack _). by vm_compute.
Defined.

(** C7.  With unique line item ids: removing the id of a line item is
    answered 200 with that item, and the cart fetched next has no item with
    that id; removing an id that no line item has is answered 404 and leaves
    the store as it was. *)
Theorem delete_then_get (w : World) (id : ObjectId) :
  healthy w → ids_unique w →
  (id ∈ map c_id (cartItems w) →
     ∃ d w' items t,
       run (delete_cart id) w
         = (Returned (json (RemovedBody "Item removed from cart."%string d)), w')
       ∧ c_id d = id
       ∧ run get_cart w' = (Returned (json (CartBody items t)), w')
       ∧ id ∉ map pop_id items)
  ∧ (id ∉ map c_id (cartItems w) →
     run (delete_cart id) w
     = (Returned (mkResponse 404 (MessageBody "Cart item not found."%string)), w)).
Proof.
  intros H Hu. split.
  - intros Hin. destruct (remove_doc_Some _ _ Hin) as (d & Hd & Hid).
    exists d. eexists _, _, _. split_and!.
    + rewrite delete_cart_healthy by done. by rewrite Hd.
    + done.
    + by apply get_cart_healthy.
    + simpl. rewrite <-list_fmap_compose.
      by apply (remove_doc_gone (cartItems w) id).
  - intros Hnin. rewrite delete_cart_healthy by done.
    rewrite remove_doc_None by done. by destruct w.
Qed.

Lemma delete_then_get_witness :
  (∃ d w' items t,
     run (delete_cart 6%N) mug_and_caps
       = (Returned (json (RemovedBody "Item removed from cart."%string d)), w')
     ∧ c_id d = 6%N
     ∧ run get_cart w' = (Returned (json (CartBody items t)), w')
     ∧ 6%N ∉ map pop_id items)
  ∧ run (delete_cart 99%N) mug_and_caps
    = (Returned (mkResponse 404 (MessageBody "Cart item not found."%string)),
       mug_and_caps).
Proof.
  assert (ids_unique mug_and_caps) as H
    by (apply (bool_decide_unpack _); by vm_compute).
  split.
  - apply (delete_then_get mug_and_caps 6%N eq_refl H).
    apply (bool_decide_unpack _). by vm_compute.
  - apply (delete_then_get mug_and_caps 99%N eq_refl H).
    apply (bool_decide_unpack _). by vm_compute.
Defined.

(** C8.  Checkout of an empty cart is answered 200 with a receipt: total 0
    and no order line. *)
Theorem checkout_empty_cart (w : World) :
  healthy w → cartItems w = [] →
  run post_checkout w
  = (Returned (mkResponse 200 (ReceiptBody true
       "Checkout successful! Thank you for your order."%string
       (mkOrder [] 0 (next_id w) (clock w)))),
     set_next_id (N.succ (next_id w)) w).
Proof.
  intros H He. rewrite post_checkout_healthy by done.
  destruct w as [ps cs n t fs]. simpl in *. subst cs. simpl.
  by rewrite total_empty.
Qed.

Lemma checkout_empty_cart_witness :
  run post_checkout seeded
  = (Returned (mkResponse 200 (ReceiptBody true
       "Checkout successful! Thank you for your order."%string
       (mkOrder [] 0 6%N 0%N))),
     set_next_id 7%N seeded).
Proof. apply (checkout_empty_cart seeded); reflexivity. Defined.

(** C9.  The seeder inserts the mock products, with new ids, when the
    catalog is empty, and does nothing when the catalog has products; so
    a second run after the first changes nothing. *)
Theorem seed_idempotent (w : World) :
  healthy w →
  (products w = [] →
     run seedDatabase w
     = (Returned tt,
        set_next_id (next_id w + N.of_nat (length MOCK_PRODUCTS))%N
          (set_products (with_ids (next_id w) MOCK_PRODUCTS) w)))
  ∧ (products w ≠ [] → run seedDatabase w = (Returned tt, w))
  ∧ run seedDatabase (run seedDatabase w).2 = (Returned tt, (run seedDatabase w).2).
Proof.
  intros H. healthy_world w H.
  destruct ps as [|p ps]; split_and!; try done; intros _; by io_unfold.
Qed.

Lemma seed_idempotent_witness :
  products (run seedDatabase empty_world).2 = with_ids 0%N MOCK_PRODUCTS
  ∧ run seedDatabase seeded = (Returned tt, seeded)
  ∧ run seedDatabase (run seedDatabase empty_world).2
    = (Returned tt, (run seedDatabase empty_world).2).
Proof.
  split_and!.
  - destruct (seed_idempotent empty_world eq_refl) as (Hs & _ & _).
    by rewrite (Hs eq_refl).
  - destruct (seed_idempotent seeded eq_refl) as (_ & Hs & _).
    apply Hs. by vm_compute.
  - destruct (seed_idempotent empty_world eq_refl) as (_ & _ & Hs).
    exact Hs.
Defined.

(** C10.  POST /api/cart asks nothing of the quantity but to be a number
    that is at least 1: with any such quantity, whole or not, and a product
    of the catalog, the answer is 201 with the joined line item carrying
    exactly that quantity, and the collection stores the line item with
    exactly that quantity. *)
Theorem post_cart_any_quantity (w : World) (pid : ObjectId) (q : Qc) (p : Product) :
  healthy w → cart_inv w → lookup_product (products w) pid = Some p → 1 ≤ q →
  ∃ id w',
    run (post_cart (mkReq (Some pid) (Some q))) w
      = (Returned (mkResponse 201 (ItemBody (Some (mkPopulated id (Some p) q)))),
         w')
    ∧ mkCartItem id pid q ∈ cartItems w'
    ∧ ∀ c, c ∈ cartItems w' → product c = pid → quantity c = q.
Proof.
  intros H Hinv Hl Hq.
  destruct (post_cart_healthy w pid q p H Hinv Hl Hq)
    as (id & w' & Hrun & _ & _ & Hfl).
  exists id, w'. split_and!; [done| |].
  - eapply (list_elem_of_filter (λ c, product c = pid)).
    rewrite Hfl. apply list_elem_of_singleton. done.
  - intros c Hc Hpc.
    assert (c ∈ filter (λ c, product c = pid) (cartItems w')) as Hin
      by by apply list_elem_of_filter.
    rewrite Hfl in Hin. by apply list_elem_of_singleton in Hin as ->.
Qed.

(** One and a half mugs. *)
Lemma post_cart_any_quantity_witness :
  ∃ id w',
    run (post_cart (mkReq (Some 3%N) (Some (Q2Qc (3 # 2))))) seeded
      = (Returned (mkResponse 201 (ItemBody (Some (mkPopulated id
           (Some (mkProduct 3%N "Aesthetic Vibe Mug"%string (double (1299 # 100))
                    "https://placehold.co/400x400/2D3748/E2E8F0?text=Vibe+Mug"%string))
           (Q2Qc (3 # 2)))))),
         w')
    ∧ mkCartItem id 3%N (Q2Qc (3 # 2)) ∈ cartItems w'
    ∧ ∀ c, c ∈ cartItems w' → product c = 3%N → quantity c = Q2Qc (3 # 2).
Proof.
  apply (post_cart_any_quantity seeded 3%N (Q2Qc (3 # 2))).
  - reflexivity.
  - apply (bool_decide_unpack _). by vm_compute.
  - reflexivity.
  - by vm_compute.
Defined.

(** * Further properties of the server *)

(** Walks through a computation to show that it keeps [I], an invariant
    that each of its queries keeps by computation. *)
Ltac keeps_walk I :=
  repeat (cbv beta;
    lazymatch goal with
    | |- hoare _ (mret _) _ _ => apply hoare_ret; done
    | |- hoare _ (throw _) _ _ => apply hoare_throw; done
    | |- hoare _ (mbind _ _) _ _ =>
        eapply hoare_bind with (R := λ _, I); [|intros ?]
    | |- hoare _ (try_catch _ _) _ _ =>
        eapply hoare_try_catch with (E' := I); [|intros ?]
    | |- hoare _ (query _) _ _ =>
        apply hoare_query;
          [apply _
          |let w := fresh "w" in let Hw := fresh "Hw" in
           intros w Hw; simpl; repeat (case_match; simpl); done
          |done]
    | |- hoare _ new_ObjectId _ _ =>
        let w := fresh "w" in let Hw := fresh "Hw" in intros w Hw; exact Hw
    | |- hoare _ get_clock _ _ =>
        let w := fresh "w" in let Hw := fresh "Hw" in intros w Hw; exact Hw
    | |- hoare _ (match ?x with _ => _ end) _ _ => destruct x
    end).

(** ** Every request is answered *)

Lemma hoare_true {A} (m : Io A) (Q : A → World → Prop) (E : World → Prop) :
  (∀ w, match m w with
        | (Returned a, w') => Q a w'
        | (Thrown _, w') => E w'
        end) →
  hoare (λ _, True) m Q E.
Proof. intros H w _. apply H. Qed.

(** A computation that may throw anything, and returns anything. *)
Lemma hoare_any {A} (P : World → Prop) (m : Io A) :
  hoare P m (λ _ _, True) (λ _, True).
Proof. intros w _. by destruct (m w) as [[a|e] w']. Qed.

(** X1.  No handler lets an exception escape: whatever queries the driver
    rejects, the request is answered, with one of the statuses of its
    route. *)
Theorem handle_always_answers (r : Request) (w : World) :
  ∃ resp w', run (handle r) w = (Returned resp, w')
             ∧ status resp ∈ statuses r.
Proof.
  assert (hoare (λ _, True) (handle r)
            (λ resp _, status resp ∈ statuses r) (λ _, False)) as H.
  { destruct r as [| |req|id|]; simpl.
    - eapply hoare_try_catch with (E' := λ _, True).
      + eapply hoare_bind; [apply hoare_any|].
        intros ps. apply hoare_ret. intros; in_list.
      + intros e. apply hoare_ret. intros; in_list.
    - eapply hoare_try_catch with (E' := λ _, True).
      + eapply hoare_bind; [apply hoare_any|].
        intros items. apply hoare_ret. intros; in_list.
      + intros e. apply hoare_ret. intros; in_list.
    - unfold post_cart.
      destruct (req_productId req) as [productId|];
        [|apply hoare_ret; intros; in_list].
      destruct (req_quantity req) as [qty|];
        [|apply hoare_ret; intros; in_list].
      destruct (_ || _); [apply hoare_ret; intros; in_list|].
      eapply hoare_try_catch with (E' := λ _, True);
        [|intros e; apply hoare_ret; intros; in_list].
      unfold post_cart_try.
      eapply hoare_bind; [apply hoare_any|]. intros cartItem.
      eapply hoare_bind with
        (R := λ s _, match s with
                     | inl resp => status resp = 404%nat
                     | inr _ => True
                     end).
      + destruct cartItem as [c|].
        * eapply hoare_bind; [apply hoare_any|].
          intros ?. by apply hoare_ret.
        * eapply hoare_bind; [apply hoare_any|].
          intros [p|]; [|by apply hoare_ret].
          eapply hoare_bind; [apply hoare_any|]. intros oid.
          eapply hoare_bind; [apply hoare_any|].
          intros ?. by apply hoare_ret.
      + intros [resp|c].
        * apply hoare_ret. intros ? Hs. simpl in Hs |- *. rewrite Hs. in_list.
        * eapply hoare_bind; [apply hoare_any|].
          intros item. apply hoare_ret. intros; in_list.
    - eapply hoare_try_catch with (E' := λ _, True).
      + eapply hoare_bind; [apply hoare_any|].
        intros [d|]; apply hoare_ret; intros; in_list.
      + intros e. apply hoare_ret. intros; in_list.
    - eapply hoare_try_catch with (E' := λ _, True).
      + eapply hoare_bind; [apply hoare_any|]. intros items.
        eapply hoare_bind; [apply hoare_any|]. intros ?.
        eapply hoare_bind; [apply hoare_any|]. intros oid.
        eapply hoare_bind; [apply hoare_any|]. intros now.
        apply hoare_ret. intros; in_list.
      + intros e. apply hoare_ret. intros; in_list. }
  specialize (H w I). unfold run.
  destruct (handle r w) as [[resp|e] w']; [by eauto|done].
Qed.

(** ** What the handlers never write *)

(** X2.  No request handler writes the catalog: whatever the request and
    whatever queries fail, the products are afterwards what they were. *)
Theorem handle_keeps_catalog (r : Request) (w : World) :
  products (run (handle r) w).2 = products w.
Proof.
  apply (keeps_run (λ w', products w' = products w)); [|done].
  set (I := λ w', _). unfold keeps.
  destruct r as [| |req|id|]; handlers_unfold; keeps_walk I.
Qed.

(** X3.  GET /api/products answers 200 with the catalog as stored when its
    query is answered, and 500 when its query is rejected; and neither GET
    handler changes the collections or the id counter, whatever the driver
    does. *)
Theorem gets_only_read (w : World) :
  (run get_products w).1
  = Returned match faults w with
             | true :: _ =>
                 mkResponse 500
                   (MessageBody "Server error while fetching products."%string)
             | _ => json (ProductsBody (products w))
             end
  ∧ store (run get_products w).2 = store w
  ∧ store (run get_cart w).2 = store w.
Proof.
  split_and!.
  - by destruct w as [ps cs n t [|[] fs]].
  - apply (keeps_run (λ w', store w' = store w)); [|done].
    set (I := λ w', _). unfold keeps. handlers_unfold. keeps_walk I.
  - apply (keeps_run (λ w', store w' = store w)); [|done].
    set (I := λ w', _). unfold keeps. handlers_unfold. keeps_walk I.
Qed.

Lemma remove_doc_miss cs id :
  (remove_doc id cs).1 = None → (remove_doc id cs).2 = cs.
Proof.
  induction cs as [|d cs IH]; simpl; [done|].
  case_bool_decide; [done|].
  destruct (remove_doc id cs) as [r cs']. simpl in *.
  intros Hr. by rewrite IH.
Qed.

(** X4.  An answer 400 or 404 never comes with a write: when a handler
    sends one of them, whatever the driver did, the collections and the id
    counter are what they were before the request. *)
Theorem client_error_wrote_nothing (r : Request) (w w' : World) (resp : Response) :
  run (handle r) w = (Returned resp, w') →
  status resp = 400%nat ∨ status resp = 404%nat →
  store w' = store w.
Proof.
  set (U := λ w' : World, store w' = store w).
  set (Q := λ (resp : Response) (w' : World),
              status resp = 400%nat ∨ status resp = 404%nat → U w').
  assert (hoare U (handle r) Q (λ _, True)) as H.
  { destruct r as [| |req|id|]; simpl.
    - eapply hoare_try_catch with (E' := λ _, True).
      + eapply hoare_bind; [apply hoare_any|].
        intros ps. apply hoare_ret. by intros ? _ [|].
      + intros e. apply hoare_ret. by intros ? _ [|].
    - eapply hoare_try_catch with (E' := λ _, True).
      + eapply hoare_bind; [apply hoare_any|].
        intros items. apply hoare_ret. by intros ? _ [|].
      + intros e. apply hoare_ret. by intros ? _ [|].
    - unfold post_cart.
      destruct (req_productId req) as [productId|];
        [|apply hoare_ret; by intros ? ? _].
      destruct (req_quantity req) as [qty|];
        [|apply hoare_ret; by intros ? ? _].
      destruct (_ || _); [apply hoare_ret; by intros ? ? _|].
      eapply hoare_try_catch with (E' := λ _, True);
        [|intros e; apply hoare_ret; by intros ? _ [|]].
      unfold post_cart_try.
      eapply hoare_bind with (R := λ _, U);
        [apply hoare_query; [apply _|done..]|]. intros cartItem.
      eapply hoare_bind with
        (R := λ s w', match s with inl _ => U w' | inr _ => True end).
      + destruct cartItem as [c|].
        * eapply hoare_bind; [apply hoare_any|].
          intros ?. by apply hoare_ret.
        * eapply hoare_bind with (R := λ _, U);
            [apply hoare_query; [apply _|done..]|].
          intros [p|]; [|by apply hoare_ret].
          eapply hoare_bind; [apply hoare_any|]. intros oid.
          eapply hoare_bind; [apply hoare_any|].
          intros ?. by apply hoare_ret.
      + intros [resp'|c].
        * apply hoare_ret. by intros ? ? _.
        * eapply hoare_bind; [apply hoare_any|].
          intros item. apply hoare_ret. by intros ? _ [|].
    - eapply hoare_try_catch with (E' := λ _, True).
      + eapply hoare_bind with
          (R := λ d w', match d with Some _ => True | None => U w' end).
        * apply hoare_query; [apply _| |done].
          intros w0 Hw0. pose proof (remove_doc_miss (cartItems w0) id) as Hm.
          destruct (remove_doc id (cartItems w0)) as [[d|] cs]; simpl in *;
            [done|].
          rewrite Hm by done. by destruct w0.
        * intros [d|]; apply hoare_ret; [by intros ? _ [|]|by intros ? ? _].
      + intros e. apply hoare_ret. by intros ? _ [|].
    - eapply hoare_try_catch with (E' := λ _, True).
      + eapply hoare_bind; [apply hoare_any|]. intros items.
        eapply hoare_bind; [apply hoare_any|]. intros ?.
        eapply hoare_bind; [apply hoare_any|]. intros oid.
        eapply hoare_bind; [apply hoare_any|]. intros now.
        apply hoare_ret. by intros ? _ [|].
      + intros e. apply hoare_ret. by intros ? _ [|]. }
  intros Hrun Hst. specialize (H w eq_refl). unfold run in Hrun.
  rewrite Hrun in H. by apply H.
Qed.

Lemma client_error_wrote_nothing_witness :
  store (run (handle (DeleteCart 99%N)) clear_fails).2 = store clear_fails.
Proof.
  eapply (client_error_wrote_nothing (DeleteCart 99%N) clear_fails);
    [reflexivity|by right].
Defined.

(** What a handler does while no query fails: it answers 200 or 201, or it
    answers 400 or 404 and leaves the world as it is. *)
Lemma handle_healthy (r : Request) (w : World) :
  healthy w →
  ∃ resp w', run (handle r) w = (Returned resp, w')
    ∧ (((status resp = 200%nat ∨ status resp = 201%nat) ∧ healthy w')
       ∨ ((status resp = 400%nat ∨ status resp = 404%nat) ∧ w' = w)).
Proof.
  intros H. destruct r as [| |[pid q]|id|]; simpl.
  - exists (json (ProductsBody (products w))), w.
    split; [by healthy_world w H|]. left. split; [by left|done].
  - rewrite get_cart_healthy by done. eexists _, _. split; [done|].
    left. split; [by left|done].
  - destruct pid as [pid|].
    2:{ rewrite post_cart_invalid by (by left). eexists _, _.
        split; [done|]. right. split; [by left|done]. }
    destruct q as [q|].
    2:{ rewrite post_cart_invalid by (right; by left). eexists _, _.
        split; [done|]. right. split; [by left|done]. }
    destruct (decide (q < 1)) as [Hlt|Hge%Qcnot_lt_le].
    { rewrite post_cart_invalid by (right; right; by exists q).
      eexists _, _. split; [done|]. right. split; [by left|done]. }
    destruct (find (λ c, bool_decide (product c = pid)) (cartItems w))
      as [c|] eqn:Hf.
    + pose proof (findOne_Some _ _ _ Hf) as [Hc _].
      destruct (update_quantity_Some (cartItems w) c q Hc) as [cs' Hu].
      rewrite (post_cart_run_update w pid q c cs') by done.
      eexists _, _. split; [done|]. left. split; [by right|by destruct w].
    + destruct (lookup_product (products w) pid) as [p|] eqn:Hl.
      * rewrite (post_cart_run_create w pid q p) by done.
        eexists _, _. split; [done|]. left. split; [by right|by destruct w].
      * rewrite post_cart_not_found by (by try apply findOne_None).
        eexists _, _. split; [done|]. right. split; [by right|done].
  - rewrite delete_cart_healthy by done.
    pose proof (remove_doc_miss (cartItems w) id) as Hm.
    destruct (remove_doc id (cartItems w)) as [[d|] cs]; simpl in *.
    + eexists _, _. split; [done|]. left. split; [by left|by destruct w].
    + eexists _, _. split; [done|]. right. split; [by right|].
      rewrite Hm by done. by destruct w.
  - rewrite post_checkout_healthy by done.
    eexists _, _. split; [done|]. left. split; [by left|by destruct w].
Qed.

(** ** Errors after the write *)

(** X6.  The POST handler reads the saved line item back before it answers.
    When that last query is the only one rejected, the answer is 500 and yet
    the write has happened: the cart holds the line item of the product with
    the posted quantity. *)
Theorem post_cart_error_after_write
    (w : World) (pid : ObjectId) (q : Qc) (p : Product) (fs : list bool) :
  cart_inv w → 1 ≤ q → lookup_product (products w) pid = Some p →
  faults w = (if decide (pid ∈ map product (cartItems w))
              then [false; false; true]
              else [false; false; false; true]) ++ fs →
  ∃ id w',
    run (post_cart (mkReq (Some pid) (Some q))) w
    = (Returned (mkResponse 500
         (MessageBody "Server error while adding to cart."%string)), w')
    ∧ filter (λ c, product c = pid) (cartItems w') = [mkCartItem id pid q]
    ∧ faults w' = fs.
Proof.
  intros (Hp & Hi & Hfr) Hq Hl Hfs. destruct w as [ps cs n t fs'].
  unfold one_per_product, ids_unique, ids_fresh in *. simpl in *. subst fs'.
  unfold run, post_cart. cbn [req_productId req_quantity].
  rewrite valid_quantity by done.
  unfold try_catch, post_cart_try, mbind, Io_bind, io_bind, CartItem_findOne,
    query.
  destruct (decide (pid ∈ map product cs)) as [Hin|Hnin].
  - destruct (findOne_is_Some cs pid Hin) as [c Hf].
    destruct (update_found cs pid c q Hp Hi Hf) as (cs' & Hu & Hfl & _).
    cbn [faults cartItems app set_faults products next_id clock]. rewrite Hf.
    unfold CartItem_save, validate. cbn [quantity c_id].
    rewrite bool_decide_eq_true_2 by done.
    io_unfold. cbn [faults cartItems app set_faults products next_id clock].
    rewrite Hu.
    cbn [faults cartItems app set_faults set_cartItems products next_id clock].
    by eexists _, _.
  - assert (find (λ c, bool_decide (product c = pid)) cs = None) as Hf.
    { destruct (find _ cs) as [c|] eqn:Hf; [|done].
      apply findOne_Some in Hf as [Hc <-]. destruct Hnin.
      by apply list_elem_of_fmap_2. }
    assert (n ∉ map c_id cs) as Hn.
    { intros Hin. rewrite Forall_forall in Hfr. apply Hfr in Hin. lia. }
    destruct (insert_fresh cs (mkCartItem n pid q) Hnin Hn) as [Hfl _].
    cbn [faults cartItems app set_faults products next_id clock]. rewrite Hf.
    unfold Product_findById, query, lookup_product in *.
    cbn [faults cartItems app set_faults products next_id clock]. rewrite Hl.
    unfold new_ObjectId, CartItem_save, validate.
    cbn [next_id set_next_id quantity products cartItems clock faults].
    rewrite bool_decide_eq_true_2 by done.
    io_unfold.
    cbn [faults cartItems app set_faults set_cartItems set_next_id products
         next_id clock].
    by eexists _, _.
Qed.

Lemma post_cart_error_after_write_witness :
  ∃ id w',
    run (post_cart (mkReq (Some 2%N) (Some (Q2Qc 9))))
      (set_faults [false; false; true] mug_and_caps)
    = (Returned (mkResponse 500
         (MessageBody "Server error while adding to cart."%string)), w')
    ∧ filter (λ c, product c = 2%N) (cartItems w')
      = [mkCartItem id 2%N (Q2Qc 9)]
    ∧ faults w' = [].
Proof.
  eapply (post_cart_error_after_write
            (set_faults [false; false; true] mug_and_caps) 2%N (Q2Qc 9)).
  - apply (bool_decide_unpack _). by vm_compute.
  - by vm_compute.
  - reflexivity.
  - reflexivity.
Defined.

(** ** How the writes compose *)

Section Writes.
Implicit Types (cs : list CartItem) (c : CartItem) (id pid : ObjectId).

Lemma update_quantity_again cs id q1 q2 cs1 :
  update_quantity id q1 cs = Some cs1 →
  update_quantity id q2 cs1 = update_quantity id q2 cs.
Proof.
  revert cs1. induction cs as [|d cs IH]; simpl; [done|]. intros cs1.
  case_bool_decide as Hd.
  - intros [= <-]. simpl. by rewrite bool_decide_eq_true_2.
  - destruct (update_quantity id q1 cs) as [cs'|]; [|done].
    intros [= <-]. simpl. rewrite bool_decide_eq_false_2 by done.
    by rewrite (IH cs').
Qed.

Lemma update_quantity_last cs c q :
  c_id c ∉ map c_id cs →
  update_quantity (c_id c) q (cs ++ [c])
  = Some (cs ++ [mkCartItem (c_id c) (product c) q]).
Proof.
  induction cs as [|d cs IH]; simpl.
  - intros _. by rewrite bool_decide_eq_true_2.
  - intros [Hne Hnin]%not_elem_of_cons.
    rewrite bool_decide_eq_false_2 by done. by rewrite IH.
Qed.

Lemma remove_doc_last cs c :
  c_id c ∉ map c_id cs → remove_doc (c_id c) (cs ++ [c]) = (Some c, cs).
Proof.
  induction cs as [|d cs IH]; simpl.
  - intros _. by rewrite bool_decide_eq_true_2.
  - intros [Hne Hnin]%not_elem_of_cons.
    rewrite bool_decide_eq_false_2 by done. by rewrite IH.
Qed.

Lemma filter_all {A} (P : A → Prop) `{!∀ x, Decision (P x)} (l : list A) :
  Forall P l → filter P l = l.
Proof.
  induction 1 as [|x l Hx _ IH]; [done|].
  by rewrite filter_cons_True, IH.
Qed.

(** With unique ids, [findByIdAndDelete] gives the document that [find]
    gives and leaves the documents with another id. *)
Lemma remove_doc_filter cs id :
  NoDup (map c_id cs) →
  remove_doc id cs
  = (find (λ c, bool_decide (c_id c = id)) cs, filter (λ c, c_id c ≠ id) cs).
Proof.
  induction cs as [|d cs IH]; simpl; [done|].
  intros [Hd Hnd]%NoDup_cons. case_bool_decide as Hid.
  - rewrite filter_cons_False by (by intros ?).
    f_equal. symmetry. apply filter_all.
    apply Forall_forall. intros c Hc Heq. apply Hd. rewrite Hid, <-Heq.
    by apply list_elem_of_fmap_2.
  - rewrite filter_cons_True by done. by rewrite IH.
Qed.

Lemma find_by_id_stored cs c :
  NoDup (map c_id cs) → c ∈ cs →
  find (λ d, bool_decide (c_id d = c_id c)) cs = Some c.
Proof.
  induction cs as [|d cs IH]; simpl; [by intros _ ?%elem_of_nil|].
  intros [Hd Hnd]%NoDup_cons Hin. case_bool_decide as Hid.
  - apply elem_of_cons in Hin as [->|Hin]; [done|].
    destruct Hd. rewrite Hid. by apply list_elem_of_fmap_2.
  - apply elem_of_cons in Hin as [->|Hin]; [done|]. by apply IH.
Qed.

(** A document that is not stored cannot be updated. *)
Lemma update_quantity_None cs id q :
  id ∉ map c_id cs → update_quantity id q cs = None.
Proof.
  induction cs as [|d cs IH]; simpl; [done|].
  intros [Hne Hnin]%not_elem_of_cons.
  rewrite bool_decide_eq_false_2 by done. by rewrite IH.
Qed.

(** The write of the update branch leaves the line items of the other
    products as they are. *)
Lemma update_other cs pid c q cs' :
  NoDup (map c_id cs) →
  find (λ c, bool_decide (product c = pid)) cs = Some c →
  update_quantity (c_id c) q cs = Some cs' →
  filter (λ d, product d ≠ pid) cs' = filter (λ d, product d ≠ pid) cs.
Proof.
  revert cs'. induction cs as [|d cs IH]; simpl; [done|]. intros cs'.
  intros [Hi Hni]%NoDup_cons. case_bool_decide as Hd.
  - intros [= ->]. rewrite bool_decide_eq_true_2 by done. intros [= <-].
    rewrite !filter_cons_False; [done|by intros ?..].
  - intros Hf. pose proof (findOne_Some _ _ _ Hf) as [Hin _].
    assert (c_id d ≠ c_id c) as Hne.
    { intros Heq. apply Hi. rewrite Heq. by apply list_elem_of_fmap_2. }
    rewrite bool_decide_eq_false_2 by done.
    destruct (update_quantity (c_id c) q cs) as [cs''|] eqn:Hu; [|done].
    intros [= <-]. rewrite !filter_cons_True by done.
    by rewrite (IH cs'').
Qed.
End Writes.

Lemma find_product_last cs c :
  find (λ d, bool_decide (product d = product c)) cs = None →
  find (λ d, bool_decide (product d = product c)) (cs ++ [c]) = Some c.
Proof.
  intros Hf. rewrite find_after by done. simpl.
  by rewrite bool_decide_eq_true_2.
Qed.

Lemma find_head_filter {A} (P : A → Prop) `{!∀ x, Decision (P x)} (l : list A) :
  find (λ x, bool_decide (P x)) l = head (filter P l).
Proof.
  induction l as [|x l IH]; simpl; [done|]. case_bool_decide.
  - by rewrite filter_cons_True.
  - by rewrite filter_cons_False.
Qed.

(** X7.  The last POST wins: on a well-formed store, two POSTs for the same
    product, one after the other, give the answer and leave the world that
    the second gives alone, whether or not the product had a line item. *)
Theorem post_cart_last_wins
    (w : World) (pid : ObjectId) (q1 q2 : Qc) (p : Product) :
  healthy w → cart_inv w → lookup_product (products w) pid = Some p →
  1 ≤ q1 → 1 ≤ q2 →
  run (post_cart (mkReq (Some pid) (Some q2)))
    (run (post_cart (mkReq (Some pid) (Some q1))) w).2
  = run (post_cart (mkReq (Some pid) (Some q2))) w.
Proof.
  intros H (Hp & Hi & Hfr) Hl Hq1 Hq2.
  unfold one_per_product, ids_unique, ids_fresh in *.
  destruct (find (λ c, bool_decide (product c = pid)) (cartItems w))
    as [c|] eqn:Hf.
  - destruct (update_found _ pid c q1 Hp Hi Hf) as (cs1 & Hu1 & Hfl1 & _).
    destruct (update_found _ pid c q2 Hp Hi Hf) as (cs2 & Hu2 & _ & _).
    rewrite (post_cart_run_update w pid q1 c cs1) by done. cbn [snd].
    rewrite (post_cart_run_update w pid q2 c cs2) by done.
    rewrite (post_cart_run_update (set_cartItems cs1 w) pid q2
               (mkCartItem (c_id c) pid q1) cs2).
    + by destruct w.
    + by destruct w.
    + done.
    + simpl. by rewrite (find_head_filter (λ c, product c = pid)), Hfl1.
    + simpl. by rewrite (update_quantity_again _ _ _ _ _ Hu1).
  - pose proof (findOne_None _ _ Hf) as Hnin.
    assert (next_id w ∉ map c_id (cartItems w)) as Hn.
    { intros Hin. rewrite Forall_forall in Hfr. apply Hfr in Hin. lia. }
    rewrite (post_cart_run_create w pid q1 p) by done. cbn [snd].
    rewrite (post_cart_run_create w pid q2 p) by done.
    set (c1 := mkCartItem (next_id w) pid q1).
    rewrite (post_cart_run_update _ pid q2 c1
               (cartItems w ++ [mkCartItem (next_id w) pid q2])).
    + by destruct w.
    + by destruct w.
    + done.
    + simpl. by apply (find_product_last (cartItems w) c1).
    + simpl. by apply (update_quantity_last (cartItems w) c1).
Qed.

Lemma post_cart_last_wins_witness :
  run (post_cart (mkReq (Some 4%N) (Some (Q2Qc (5 # 2)))))
    (run (post_cart (mkReq (Some 4%N) (Some (Q2Qc 8)))) mug_and_caps).2
  = run (post_cart (mkReq (Some 4%N) (Some (Q2Qc (5 # 2))))) mug_and_caps.
Proof.
  eapply (post_cart_last_wins mug_and_caps 4%N).
  - reflexivity.
  - apply (bool_decide_unpack _). by vm_compute.
  - reflexivity.
  - by vm_compute.
  - by vm_compute.
Defined.

(** X8.  A POST for one product never touches the line items of the other
    products: with unique ids, whatever the request asks for that product
    and whatever queries fail, the line items of every other product are
    afterwards what they were, in the same order. *)
Theorem post_cart_frame (w : World) (req : CartRequest) (pid : ObjectId) :
  ids_unique w → req_productId req = Some pid →
  filter (λ c, product c ≠ pid) (cartItems (run (post_cart req) w).2)
  = filter (λ c, product c ≠ pid) (cartItems w).
Proof.
  intros Hi Hreq.
  set (F := λ w' : World, filter (λ c, product c ≠ pid) (cartItems w')
                          = filter (λ c, product c ≠ pid) (cartItems w)).
  set (J := λ w' : World, ids_unique w' ∧ F w').
  assert (hoare J (post_cart req) (λ _, F) F) as H.
  { unfold post_cart. rewrite Hreq.
    destruct (req_quantity req) as [qty|]; [|apply hoare_ret; by intros ? []].
    destruct (_ || _); [apply hoare_ret; by intros ? []|].
    eapply hoare_try_catch with (E' := F); [|intros e; by apply hoare_ret].
    unfold post_cart_try.
    eapply hoare_bind;
      [eapply hoare_weaken;
         [apply (hoare_findOne J pid); apply _|done|done|by intros ? []]|].
    intros cartItem.
    eapply hoare_bind with (R := λ _, F).
    - destruct cartItem as [c|].
      + eapply hoare_bind with (R := λ _, F); [|intros ?; by apply hoare_ret].
        unfold CartItem_save. destruct (validate _);
          [|apply hoare_throw; by intros ? [[] _]].
        eapply hoare_bind with (R := λ _, F).
        * apply hoare_query; [apply _| |by intros ? [[] _]].
          intros w0 [[Hu HF] Hf]. simpl.
          destruct (update_quantity _ _ _) as [cs'|] eqn:Hup; simpl; [|done].
          unfold F in *. simpl. rewrite <-HF.
          by apply (update_other (cartItems w0) pid c qty).
        * intros [|]; [by apply hoare_ret|by apply hoare_throw].
      + eapply hoare_bind with (R := λ _, F).
        * apply hoare_query; [apply _|by intros ? [[] _]..].
        * intros [p|]; [|by apply hoare_ret].
          eapply hoare_bind with (R := λ _, F); [by intros ? ?|].
          intros oid. eapply hoare_bind with (R := λ _, F);
            [|intros ?; by apply hoare_ret].
          unfold CartItem_save. destruct (validate _);
            [|by apply hoare_throw].
          eapply hoare_bind with (R := λ _, F).
          -- apply hoare_query; [apply _| |done].
             intros w0 HF. unfold F in *. simpl.
             rewrite filter_app, HF.
             rewrite (filter_cons_False _ (mkCartItem oid pid qty))
               by (by intros ?).
             by rewrite app_nil_r.
          -- intros [|]; [by apply hoare_ret|by apply hoare_throw].
    - intros [resp|c]; [by apply hoare_ret|].
      eapply hoare_bind with (R := λ _, F);
        [apply hoare_query; [apply _|done..]|].
      intros item. by apply hoare_ret. }
  specialize (H w (conj Hi eq_refl)). unfold run.
  by destruct (post_cart req w) as [[resp|e] w'].
Qed.

Lemma post_cart_frame_witness :
  filter (λ c, product c ≠ 2%N)
    (cartItems (run (post_cart (mkReq (Some 2%N) (Some (Q2Qc 4))))
                  clear_fails).2)
  = filter (λ c, product c ≠ 2%N) (cartItems clear_fails).
Proof.
  apply (post_cart_frame clear_fails); [|reflexivity].
  apply (bool_decide_unpack _). by vm_compute.
Defined.

(** X9.  With unique ids and no query failing, DELETE /api/cart/:id answers
    with the stored line item of that id, or 404 when there is none, and
    leaves exactly the line items with another id, in their order; the
    catalog and the id counter are as before. *)
Theorem delete_cart_exact (w : World) (id : ObjectId) :
  healthy w → ids_unique w →
  run (delete_cart id) w
  = (Returned
       match find (λ c, bool_decide (c_id c = id)) (cartItems w) with
       | Some d => json (RemovedBody "Item removed from cart."%string d)
       | None => mkResponse 404 (MessageBody "Cart item not found."%string)
       end,
     set_cartItems (filter (λ c, c_id c ≠ id) (cartItems w)) w).
Proof.
  intros H Hi. rewrite delete_cart_healthy by done.
  by rewrite (remove_doc_filter (cartItems w) id Hi).
Qed.

Lemma delete_cart_exact_witness :
  run (delete_cart 7%N) mug_and_caps
  = (Returned
       match find (λ c, bool_decide (c_id c = 7%N)) (cartItems mug_and_caps) with
       | Some d => json (RemovedBody "Item removed from cart."%string d)
       | None => mkResponse 404 (MessageBody "Cart item not found."%string)
       end,
     set_cartItems (filter (λ c, c_id c ≠ 7%N) (cartItems mug_and_caps))
       mug_and_caps).
Proof.
  apply (delete_cart_exact mug_and_caps 7%N); [reflexivity|].
  apply (bool_decide_unpack _). by vm_compute.
Defined.

(** X10.  Adding and removing is a round trip: on a well-formed store, a
    POST for a catalog product that has no line item yet creates one, and
    the DELETE of the id it answers with gives that line item back and
    restores the collections; only the id counter has moved. *)
Theorem post_then_delete (w : World) (pid : ObjectId) (q : Qc) (p : Product) :
  healthy w → cart_inv w → lookup_product (products w) pid = Some p → 1 ≤ q →
  pid ∉ map product (cartItems w) →
  ∃ id w1,
    run (post_cart (mkReq (Some pid) (Some q))) w
    = (Returned (mkResponse 201 (ItemBody (Some (mkPopulated id (Some p) q)))),
       w1)
    ∧ run (delete_cart id) w1
      = (Returned (json (RemovedBody "Item removed from cart."%string
                           (mkCartItem id pid q))),
         set_next_id (N.succ (next_id w)) w).
Proof.
  intros H (Hp & Hi & Hfr) Hl Hq Hnin.
  unfold one_per_product, ids_unique, ids_fresh in *.
  assert (find (λ c, bool_decide (product c = pid)) (cartItems w) = None)
    as Hf.
  { destruct (find _ _) as [c|] eqn:Hf; [|done].
    apply findOne_Some in Hf as [Hc <-]. destruct Hnin.
    by apply list_elem_of_fmap_2. }
  assert (next_id w ∉ map c_id (cartItems w)) as Hn.
  { intros Hin. rewrite Forall_forall in Hfr. apply Hfr in Hin. lia. }
  set (c := mkCartItem (next_id w) pid q).
  destruct (insert_fresh (cartItems w) c Hnin Hn) as [_ Hfi].
  exists (next_id w). eexists. split.
  - rewrite (post_cart_run_create w pid q p) by done.
    fold c. simpl in Hfi. rewrite Hfi. simpl. unfold populate. simpl.
    by rewrite Hl.
  - rewrite delete_cart_healthy by (by destruct w).
    cbn [cartItems set_cartItems set_next_id].
    pose proof (remove_doc_last (cartItems w) c Hn) as Hr.
    subst c. cbn [c_id] in Hr. rewrite Hr. by destruct w.
Qed.

Lemma post_then_delete_witness :
  ∃ id w1,
    run (post_cart (mkReq (Some 0%N) (Some (Q2Qc 2)))) mug_and_caps
    = (Returned (mkResponse 201 (ItemBody (Some (mkPopulated id
         (Some (mkProduct 0%N "Classic Vibe Tee"%string (Q2Qc 25)
            "https://placehold.co/400x400/2D3748/E2E8F0?text=Vibe+Tee"%string))
         (Q2Qc 2))))),
       w1)
    ∧ run (delete_cart id) w1
      = (Returned (json (RemovedBody "Item removed from cart."%string
                           (mkCartItem id 0%N (Q2Qc 2)))),
         set_next_id (N.succ (next_id mug_and_caps)) mug_and_caps).
Proof.
  apply (post_then_delete mug_and_caps 0%N (Q2Qc 2)).
  - reflexivity.
  - apply (bool_decide_unpack _). by vm_compute.
  - reflexivity.
  - by vm_compute.
  - apply (bool_decide_unpack _). by vm_compute.
Defined.

(** ** Answers 500 without a failing query *)

(** Single turns, while no query fails. *)
Lemma advance_findOne w pid q :
  healthy w →
  advance (Post_findOne pid q) w
  = (match find (λ c, bool_decide (product c = pid)) (cartItems w) with
     | Some c => Post_save (mkCartItem (c_id c) (product c) q)
     | None => Post_findById pid q
     end, w).
Proof. intros H. healthy_world w H. by task_unfold. Qed.

Lemma advance_delete w id :
  healthy w →
  advance (Delete_findByIdAndDelete id) w
  = (Answered match (remove_doc id (cartItems w)).1 with
              | None => mkResponse 404 (MessageBody "Cart item not found."%string)
              | Some d => json (RemovedBody "Item removed from cart."%string d)
              end,
     set_cartItems (remove_doc id (cartItems w)).2 w).
Proof.
  intros H. healthy_world w H. task_unfold.
  unfold CartItem_findByIdAndDelete, query. cbn [faults cartItems].
  by destruct (remove_doc id cs).
Qed.

Lemma advance_save_gone w c :
  healthy w → 1 ≤ quantity c → c_id c ∉ map c_id (cartItems w) →
  advance (Post_save c) w
  = (Answered (mkResponse 500
       (MessageBody "Server error while adding to cart."%string)), w).
Proof.
  intros H Hq Hnin. healthy_world w H. task_unfold.
  unfold CartItem_save, validate. rewrite bool_decide_eq_true_2 by done.
  unfold query, throw, mbind, mret, Io_bind, Io_ret, io_bind, io_ret.
  cbn [faults cartItems]. simpl in Hnin.
  by rewrite update_quantity_None.
Qed.

(** X5.  While no query fails, a request whose handler runs from its first
    query to its answer, with no query of another request in between, is
    not answered 500 (ids being well formed and the quantity a number, as
    their types say here): the quantity test of the POST handler keeps the
    schema validator from refusing a document, and a document that was just
    found is still there when it is saved.  Between overlapping requests
    this fails: when a DELETE of the line item gets its turn between the
    [findOne] and the [save] of a POST that changes its quantity, the item
    is removed, the save finds no document, and the POST is answered 500,
    with no query of the driver failing. *)
Theorem healthy_never_500 (w : World) :
  healthy w →
  (∀ r, ∃ resp w', run (handle r) w = (Returned resp, w')
                   ∧ status resp ≠ 500%nat)
  ∧ (∀ pid q c, 1 ≤ q → q ≠ quantity c → ids_unique w →
       find (λ c, bool_decide (product c = pid)) (cartItems w) = Some c →
       interleave [0; 1; 0]%nat
         (mkServer w [start (PostCart (mkReq (Some pid) (Some q)));
                      start (DeleteCart (c_id c))])
       = mkServer
           (set_cartItems (filter (λ d, c_id d ≠ c_id c) (cartItems w)) w)
           [Answered (mkResponse 500
              (MessageBody "Server error while adding to cart."%string));
            Answered (json (RemovedBody "Item removed from cart."%string c))]).
Proof.
  intros H. split.
  - intros r. destruct (handle_healthy r w H) as (resp & w' & Hrun & Hst).
    exists resp, w'. split; [done|].
    destruct Hst as [[[-> | ->] _]|[[-> | ->] _]]; done.
  - intros pid q c Hq _ Hi Hf. pose proof (findOne_Some _ _ _ Hf) as [Hc _].
    unfold interleave, resume_task, start. cbn [fold_left tasks database].
    cbn [req_productId req_quantity]. rewrite valid_quantity by done.
    cbn [lookup list_lookup]. rewrite advance_findOne, Hf by done.
    cbn [fst snd insert list_insert lookup list_lookup tasks database].
    rewrite advance_delete by done.
    rewrite (remove_doc_filter _ (c_id c) Hi), (find_by_id_stored _ c Hi Hc).
    cbn [fst snd insert list_insert lookup list_lookup tasks database].
    rewrite advance_save_gone; [done|by destruct w|done|].
    cbn [c_id cartItems set_cartItems].
    intros (d & Heq & [Hne Hd]%list_elem_of_filter)%list_elem_of_fmap.
    by destruct Hne.
Qed.

(** Five mugs are posted while the mug is being removed. *)
Lemma healthy_never_500_witness :
  (∃ resp w', run (handle (PostCart (mkReq (Some 3%N) (Some (Q2Qc (3 # 2))))))
                mug_and_caps = (Returned resp, w')
              ∧ status resp ≠ 500%nat)
  ∧ interleave [0; 1; 0]%nat
      (mkServer mug_and_caps
         [start (PostCart (mkReq (Some 3%N) (Some (Q2Qc 5))));
          start (DeleteCart 6%N)])
    = mkServer
        (set_cartItems [mkCartItem 7%N 2%N (Q2Qc 3)] mug_and_caps)
        [Answered (mkResponse 500
           (MessageBody "Server error while adding to cart."%string));
         Answered (json (RemovedBody "Item removed from cart."%string
                           (mkCartItem 6%N 3%N (Q2Qc 1))))].
Proof.
  destruct (healthy_never_500 mug_and_caps eq_refl) as [Halone Hbetween].
  split; [apply Halone|].
  apply (Hbetween 3%N (Q2Qc 5) (mkCartItem 6%N 3%N (Q2Qc 1)));
    [by vm_compute|by vm_compute| |reflexivity].
  apply (bool_decide_unpack _). by vm_compute.
Defined.

(** ** The receipt *)

(** The amounts that the total of the cart adds up: price × quantity, in
    doubles, of the line items whose product is in the catalog. *)
Lemma cart_total_amounts ps cs acc :
  fold_left add_line (map (populate ps) cs) acc
  = fold_left js_add
      (omap (λ c, (λ p, js_mul (price p) (quantity c))
                    <$> lookup_product ps (product c)) cs) acc.
Proof.
  revert acc. induction cs as [|c cs IH]; intros acc; [done|].
  cbn [map fold_left omap list_omap]. rewrite IH.
  unfold add_line, populate. cbn [pop_product pop_quantity].
  by destruct (lookup_product ps (product c)).
Qed.

(** X11.  The receipt.  While no query fails, and the total is computed
    without overflow, checkout answers with one order line per line item,
    in order, carrying the product's name and price, or "Unknown Item" and 0
    when the product is gone; and the total of the receipt is the sum, in
    the order of the cart and in the arithmetic of doubles, of
    price × quantity over the line items whose product is in the catalog,
    rounded to two decimals: the lines of unknown items add nothing. *)
Theorem receipt_adds_up (w : World) :
  healthy w → total_is_finite w →
  ∃ o w',
    run post_checkout w
    = (Returned (json (ReceiptBody true
         "Checkout successful! Thank you for your order."%string o)), w')
    ∧ o_items o
      = map (λ c, match lookup_product (products w) (product c) with
                  | Some p => mkLine (name p) (quantity c) (price p)
                  | None => mkLine "Unknown Item"%string (quantity c) 0
                  end) (cartItems w)
    ∧ o_total o
      = parseFloat (toFixed2 (fold_left js_add
          (omap (λ c, (λ p, js_mul (price p) (quantity c))
                        <$> lookup_product (products w) (product c))
             (cartItems w)) 0)).
Proof.
  intros H _. rewrite post_checkout_healthy by done.
  eexists _, _. split; [done|]. cbn [o_items o_total]. split.
  - rewrite <-list_fmap_compose. apply list_fmap_ext. intros i c _. simpl.
    unfold order_line, populate. simpl.
    by destruct (lookup_product _ _).
  - unfold cart_total. by rewrite cart_total_amounts.
Qed.

Lemma receipt_adds_up_witness :
  ∃ o w',
    run post_checkout with_lost_product
    = (Returned (json (ReceiptBody true
         "Checkout successful! Thank you for your order."%string o)), w')
    ∧ o_items o
      = map (λ c, match lookup_product (products with_lost_product)
                          (product c) with
                  | Some p => mkLine (name p) (quantity c) (price p)
                  | None => mkLine "Unknown Item"%string (quantity c) 0
                  end) (cartItems with_lost_product)
    ∧ o_total o
      = parseFloat (toFixed2 (fold_left js_add
          (omap (λ c, (λ p, js_mul (price p) (quantity c))
                        <$> lookup_product (products with_lost_product)
                              (product c))
             (cartItems with_lost_product)) 0)).
Proof.
  apply (receipt_adds_up with_lost_product); [reflexivity|].
  apply (bool_decide_unpack _). by vm_compute.
Defined.

(** ** The seeder and the catalog *)

Lemma with_ids_ids n ds :
  map p_id (with_ids n ds) = map (λ i, (n + N.of_nat i)%N) (seq 0 (length ds)).
Proof.
  revert n. induction ds as [|d ds IH]; intros n; [done|].
  cbn [with_ids map length seq p_id]. f_equal; [lia|].
  rewrite IH, <-seq_shift, map_map. apply map_ext. intros i. lia.
Qed.

Lemma with_ids_NoDup n ds : NoDup (map p_id (with_ids n ds)).
Proof.
  rewrite with_ids_ids. apply NoDup_fmap_2; [|apply NoDup_seq].
  intros i j Hij. lia.
Qed.

Lemma with_ids_data n ds :
  map (λ p, mkData (name p) (price p) (image p)) (with_ids n ds) = ds.
Proof.
  revert n. induction ds as [|[nm pr im] ds IH]; intros n; [done|].
  simpl. by rewrite IH.
Qed.

(** With unique ids, [findById] finds each stored product. *)
Lemma lookup_product_stored ps p :
  NoDup (map p_id ps) → p ∈ ps → lookup_product ps (p_id p) = Some p.
Proof.
  unfold lookup_product. induction ps as [|p' ps IH]; simpl.
  - by intros _ ?%elem_of_nil.
  - intros [Hd Hnd]%NoDup_cons Hin. case_bool_decide as Hp.
    + apply elem_of_cons in Hin as [->|Hin]; [done|].
      destruct Hd. rewrite Hp. by apply list_elem_of_fmap_2.
    + apply elem_of_cons in Hin as [->|Hin]; [done|]. by apply IH.
Qed.

(** X12.  The seeder swallows every failure and never touches the cart:
    whatever the driver does, it returns, the cart collection is as before,
    and the catalog is either as before or, when it was empty, the mock
    products with new ids. *)
Theorem seed_safe (w : World) :
  ∃ w', run seedDatabase w = (Returned tt, w')
        ∧ cartItems w' = cartItems w
        ∧ (products w' = products w
           ∨ (products w = []
              ∧ products w' = with_ids (next_id w) MOCK_PRODUCTS)).
Proof.
  destruct w as [ps cs n t fs]. io_unfold. cbn [faults].
  destruct fs as [|[] [|[] fs]]; destruct ps as [|p ps]; simpl;
    eexists; split_and!; try done; auto.
Qed.

(** X13.  After the seeder has filled an empty catalog, the catalog holds
    the mock products, in order and with their data, under pairwise
    distinct ids, and each of them is found by its id. *)
Theorem seed_catalog (w : World) :
  healthy w → products w = [] →
  let ps := products (run seedDatabase w).2 in
  map (λ p, mkData (name p) (price p) (image p)) ps = MOCK_PRODUCTS
  ∧ NoDup (map p_id ps)
  ∧ ∀ p, p ∈ ps → lookup_product ps (p_id p) = Some p.
Proof.
  intros H He ps.
  assert (ps = with_ids (next_id w) MOCK_PRODUCTS) as ->.
  { subst ps. healthy_world w H. simpl in He. by subst. }
  split_and!.
  - apply with_ids_data.
  - apply with_ids_NoDup.
  - intros p. apply lookup_product_stored, with_ids_NoDup.
Qed.

Lemma seed_catalog_witness :
  let ps := products (run seedDatabase empty_world).2 in
  map (λ p, mkData (name p) (price p) (image p)) ps = MOCK_PRODUCTS
  ∧ NoDup (map p_id ps)
  ∧ ∀ p, p ∈ ps → lookup_product ps (p_id p) = Some p.
Proof. apply (seed_catalog empty_world); reflexivity. Defined.

(** ** Stored quantities *)

Lemma update_quantity_valid cs id q cs' :
  update_quantity id q cs = Some cs' → 1 ≤ q →
  Forall (λ q, 1 ≤ q) (map quantity cs) →
  Forall (λ q, 1 ≤ q) (map quantity cs').
Proof.
  revert cs'. induction cs as [|d cs IH]; simpl; [done|]. intros cs'.
  case_bool_decide as Hd.
  - intros [= <-] Hq [_ Hcs]%Forall_cons. simpl. by constructor.
  - destruct (update_quantity id q cs) as [cs''|]; [|done].
    intros [= <-] Hq [Hd' Hcs]%Forall_cons. simpl. constructor; [done|].
    by apply IH.
Qed.

Lemma quantities_valid_sublist w cs :
  sublist cs (cartItems w) → quantities_valid w →
  quantities_valid (set_cartItems cs w).
Proof.
  unfold quantities_valid. rewrite !Forall_forall. intros Hs Hv q Hin.
  apply Hv. eapply elem_of_sublist; [exact Hin|]. by apply fmap_sublist.
Qed.

(** [save()] keeps the stored quantities valid: the validator sees to it. *)
Lemma quantities_valid_save isNew c :
  keeps quantities_valid (CartItem_save isNew c).
Proof.
  unfold CartItem_save, validate. case_bool_decide as Hq;
    [|by apply hoare_throw].
  eapply hoare_bind with (R := λ _, quantities_valid).
  - apply hoare_query; [apply _| |done].
    intros w Hw. destruct isNew; simpl.
    + unfold quantities_valid in *. simpl. rewrite map_app.
      apply Forall_app. split; [done|]. by constructor.
    + destruct (update_quantity _ _ _) as [cs'|] eqn:Hu; simpl; [|done].
      by apply (update_quantity_valid _ _ _ _ Hu).
  - intros [|]; [by apply hoare_ret|by apply hoare_throw].
Qed.

(** ** What holds while requests overlap *)

(** The id that a task is about to insert is not in the collection. *)
Local Abbreviation id_free := (λ (w : World) (t : Task),
  ∀ c, t = Post_save_new c →
    (c_id c < next_id w)%N ∧ c_id c ∉ map c_id (cartItems w)).

(** The task that is about to insert has found its product. *)
Local Abbreviation found := (λ (w : World) (t : Task),
  ∀ c, t = Post_save_new c →
    is_Some (lookup_product (products w) (product c))).

Lemma task_ok_split w t : task_ok w t ↔ found w t ∧ id_free w t.
Proof.
  split.
  - intros Ht. split; intros c ->; simpl in Ht; tauto.
  - intros [Hf Hi]. destruct t; try done. simpl.
    destruct (Hi _ eq_refl). by split; [apply Hf|].
Qed.

Section Ids.
Local Abbreviation ids_ok := (λ w : World, ids_unique w ∧ ids_fresh w).

Lemma ids_ok_keys w w' :
  map c_id (cartItems w') = map c_id (cartItems w) →
  (next_id w ≤ next_id w')%N → ids_ok w → ids_ok w'.
Proof.
  unfold ids_unique, ids_fresh. intros -> Hn [Hu Hf]. split; [done|].
  eapply Forall_impl; [exact Hf|]. intros x Hx. simpl in Hx. lia.
Qed.

Lemma ids_ok_sublist w cs :
  sublist cs (cartItems w) → ids_ok w → ids_ok (set_cartItems cs w).
Proof.
  intros Hs [Hi Hf]. split.
  - eapply sublist_NoDup; [exact Hi|]. by apply fmap_sublist.
  - unfold ids_fresh in *. rewrite Forall_forall in Hf |- *.
    intros x Hx. apply Hf. eapply elem_of_sublist; [exact Hx|].
    by apply fmap_sublist.
Qed.

(** Every turn of every task keeps the ids unique and behind the counter;
    the id of a line item that is made in the turn is drawn from the
    counter. *)
Lemma ids_ok_resume t (n : ObjectId) :
  hoare (λ w, ids_ok w ∧ id_free w t ∧ next_id w = n) (resume t)
    (λ t' w, ids_ok w ∧ id_free w t' ∧ ∀ x, new_id t' = Some x → x = n)
    ids_ok.
Proof.
  set (I := ids_ok).
  assert (∀ (m : Io Task),
    hoare I m (λ t' w, I w ∧ new_id t' = None) I →
    hoare (λ w, I w ∧ id_free w t ∧ next_id w = n) m
      (λ t' w, I w ∧ id_free w t' ∧ ∀ x, new_id t' = Some x → x = n) I)
    as Hweak.
  { intros m Hm. eapply hoare_weaken; [exact Hm|by intros ? []| |done].
    intros t' w [Hw Hn]. split; [done|]. split.
    - intros c ->. done.
    - intros x. by rewrite Hn. }
  destruct t; unfold resume, Product_countDocuments, Product_find,
    CartItem_find_populate, CartItem_findOne, Product_findById,
    CartItem_findById_populate, Product_insertMany, CartItem_deleteMany.
  - apply Hweak. eapply hoare_bind with (R := λ _, I);
      [apply hoare_query; [apply _|done..]|].
    intros k. apply hoare_ret. intros w Hw. by destruct (k =? 0)%nat.
  - apply Hweak.
    eapply hoare_bind with (R := λ _, I); [|intros ?; by apply hoare_ret].
    apply hoare_query; [apply _| |done].
    intros w Hw. simpl. eapply ids_ok_keys; [| |exact Hw]; simpl; [done|lia].
  - apply Hweak. by apply hoare_ret.
  - apply Hweak. eapply hoare_bind with (R := λ _, I);
      [apply hoare_query; [apply _|done..]|].
    intros ?. by apply hoare_ret.
  - apply Hweak. eapply hoare_bind with (R := λ _, I);
      [apply hoare_query; [apply _|done..]|].
    intros ?. by apply hoare_ret.
  - apply Hweak. eapply hoare_bind with (R := λ _, I);
      [apply hoare_query; [apply _|done..]|].
    intros [c|]; by apply hoare_ret.
  - apply Hweak.
    eapply hoare_bind with (R := λ _, I); [|intros ?; by apply hoare_ret].
    unfold CartItem_save. destruct (validate _); [|by apply hoare_throw].
    eapply hoare_bind with (R := λ _, I).
    + apply hoare_query; [apply _| |done].
      intros w Hw. simpl.
      destruct (update_quantity _ _ _) as [cs|] eqn:Hu; simpl; [|done].
      eapply ids_ok_keys; [| |exact Hw]; simpl; [|lia].
      eauto using update_quantity_ids.
    + intros [|]; [by apply hoare_ret|by apply hoare_throw].
  - eapply hoare_bind with (R := λ _ w, I w ∧ next_id w = n).
    { apply hoare_query; [apply _| |by intros ? []].
      intros w (Hw & _ & Hn). done. }
    intros [p|]; [|apply hoare_ret; by intros w []].
    eapply hoare_bind with
      (R := λ id w, I w ∧ id = n ∧ (id < next_id w)%N
                    ∧ id ∉ map c_id (cartItems w)).
    { intros w [[Hu Hf] Hn]. simpl. unfold ids_fresh in *. split_and!.
      - split; [exact Hu|]. simpl.
        eapply Forall_impl; [exact Hf|]. intros x Hx. simpl in Hx. lia.
      - done.
      - lia.
      - intros Hin. rewrite Forall_forall in Hf. apply Hf in Hin. lia. }
    intros id. apply hoare_ret. intros w (Hw & -> & Hlt & Hnin).
    split; [done|]. split.
    + intros c [= <-]. done.
    + by intros x [= <-].
  - eapply hoare_weaken with
      (P' := λ w, I w ∧ (c_id cartItem < next_id w)%N
                  ∧ c_id cartItem ∉ map c_id (cartItems w))
      (Q' := λ t' w, I w ∧ new_id t' = None) (E' := I);
      [|intros w (Hw & Hf & _); destruct (Hf _ eq_refl); by split| |done].
    2:{ intros t' w [Hw Hn]. split; [done|].
        split; [by intros c ->|intros x; by rewrite Hn]. }
    eapply hoare_bind with (R := λ _, I); [|intros ?; by apply hoare_ret].
    unfold CartItem_save. destruct (validate _);
      [|apply hoare_throw; by intros ? []].
    eapply hoare_bind with (R := λ _, I).
    + apply hoare_query; [| |by intros ? []].
      { intros fs w (Hw & Hlt & Hnin). done. }
      intros w ([Hu Hf] & Hlt & Hnin). subst I.
      unfold ids_unique, ids_fresh in *. simpl. rewrite !map_app. simpl. split.
      * apply NoDup_app. split_and!; [done| |apply NoDup_singleton].
        intros x Hx ->%list_elem_of_singleton. done.
      * apply Forall_app. split; [done|]. by constructor.
    + intros [|]; [by apply hoare_ret|by apply hoare_throw].
  - apply Hweak. eapply hoare_bind with (R := λ _, I);
      [apply hoare_query; [apply _|done..]|].
    intros [c|]; by apply hoare_ret.
  - apply Hweak.
    eapply hoare_bind with (R := λ _, I);
      [|intros [c|]; by apply hoare_ret].
    apply hoare_query; [apply _| |done].
    intros w Hw. pose proof (remove_doc_sublist (cartItems w) id) as Hs.
    destruct (remove_doc id (cartItems w)) as [r cs]. simpl in *.
    by apply ids_ok_sublist.
  - apply Hweak. eapply hoare_bind with (R := λ _, I);
      [apply hoare_query; [apply _|done..]|].
    intros ?. by apply hoare_ret.
  - apply Hweak. eapply hoare_bind with (R := λ _, I).
    { apply hoare_query; [apply _| |done].
      intros w Hw. apply ids_ok_sublist; [apply sublist_nil_l|done]. }
    intros ?. eapply hoare_bind with (R := λ _, I).
    { intros w Hw. simpl. eapply ids_ok_keys; [| |exact Hw]; simpl; [done|lia]. }
    intros oid. eapply hoare_bind with (R := λ _, I); [by intros w Hw|].
    intros now. by apply hoare_ret.
  - apply Hweak. by apply hoare_ret.
Qed.
End Ids.

(** The references resolve, given what the tasks rely on. *)
Lemma refs_resolve_resume t :
  hoare (λ w, refs_resolve w ∧ found w t) (resume t)
    (λ t' w, refs_resolve w ∧ found w t') refs_resolve.
Proof.
  assert (∀ (m : Io Task),
            hoare refs_resolve m (λ t' w, refs_resolve w ∧ new_id t' = None)
              refs_resolve →
            hoare (λ w, refs_resolve w ∧ found w t) m
              (λ t' w, refs_resolve w ∧ found w t') refs_resolve) as Hweak.
  { intros m Hm. eapply hoare_weaken; [exact Hm|by intros ? []| |done].
    intros t' w [Hw Hn]. split; [done|]. by intros c ->. }
  set (I := refs_resolve).
  destruct t; unfold resume, Product_countDocuments, Product_find,
    CartItem_find_populate, CartItem_findOne, CartItem_findById_populate,
    Product_insertMany, CartItem_deleteMany, CartItem_findByIdAndDelete.
  - apply Hweak. eapply hoare_bind with (R := λ _, I);
      [apply hoare_query; [apply _|done..]|].
    intros n. apply hoare_ret. intros w Hw. by destruct (n =? 0)%nat.
  - apply Hweak. eapply hoare_bind with (R := λ _, I);
      [|intros ?; by apply hoare_ret].
    apply hoare_query; [apply _| |done].
    intros w Hw. subst I. unfold refs_resolve in *. simpl.
    eapply Forall_impl; [exact Hw|]. intros pid. apply lookup_product_app.
  - apply Hweak. by apply hoare_ret.
  - apply Hweak. eapply hoare_bind with (R := λ _, I);
      [apply hoare_query; [apply _|done..]|].
    intros ?. by apply hoare_ret.
  - apply Hweak. eapply hoare_bind with (R := λ _, I);
      [apply hoare_query; [apply _|done..]|].
    intros ?. by apply hoare_ret.
  - apply Hweak. eapply hoare_bind with (R := λ _, I);
      [apply hoare_query; [apply _|done..]|].
    intros [c|]; by apply hoare_ret.
  - apply Hweak. eapply hoare_bind with (R := λ _, I);
      [apply refs_resolve_save_stored|]. intros ?. by apply hoare_ret.
  - eapply hoare_bind with
      (R := λ r w, I w ∧ r = lookup_product (products w) productId).
    + eapply hoare_weaken;
        [by apply (hoare_read I (λ w, lookup_product (products w) productId))
        |by intros ? []|done..].
    + intros [p|]; [|apply hoare_ret; by intros ? []].
      eapply hoare_bind with
        (R := λ _ w, I w ∧ Some p = lookup_product (products w) productId);
        [by intros w Hw|].
      intros id. apply hoare_ret. intros w [Hw Hp]. split; [done|].
      intros c [= <-]. simpl. by rewrite <-Hp.
  - eapply hoare_weaken with
      (P' := λ w, I w ∧ is_Some (lookup_product (products w) (product cartItem)))
      (Q' := λ t' w, I w ∧ new_id t' = None) (E' := I);
      [|intros w [Hw Hf]; split; [done|by apply Hf]
       |intros t' w [Hw Hn]; split; [done|by intros c ->]|done].
    eapply hoare_bind with (R := λ _, I);
      [|intros ?; by apply hoare_ret].
    apply refs_resolve_save_new.
  - apply Hweak. eapply hoare_bind with (R := λ _, I);
      [apply hoare_query; [apply _|done..]|].
    intros [c|]; by apply hoare_ret.
  - apply Hweak. eapply hoare_bind with (R := λ _, I);
      [|intros [c|]; by apply hoare_ret].
    apply hoare_query; [apply _| |done].
    intros w Hw. pose proof (remove_doc_sublist (cartItems w) id) as Hs.
    destruct (remove_doc id (cartItems w)) as [d cs]. simpl in *.
    by apply refs_resolve_sublist.
  - apply Hweak. eapply hoare_bind with (R := λ _, I);
      [apply hoare_query; [apply _|done..]|].
    intros ?. by apply hoare_ret.
  - apply Hweak. eapply hoare_bind with (R := λ _, I).
    { apply hoare_query; [apply _| |done].
      intros w Hw. apply refs_resolve_sublist; [apply sublist_nil_l|done]. }
    intros ?. eapply hoare_bind with (R := λ _, I); [by intros w Hw|].
    intros oid. eapply hoare_bind with (R := λ _, I); [by intros w Hw|].
    intros now. by apply hoare_ret.
  - apply Hweak. by apply hoare_ret.
Qed.

(** The validator keeps the stored quantities valid. *)
Lemma quantities_valid_resume t : keeps quantities_valid (resume t).
Proof.
  set (I := quantities_valid). unfold keeps.
  destruct t; unfold resume, Product_countDocuments, Product_find,
    CartItem_find_populate, CartItem_findOne, Product_findById,
    CartItem_findById_populate, Product_insertMany, CartItem_deleteMany,
    CartItem_findByIdAndDelete.
  7, 9:
    by (eapply hoare_bind with (R := λ _, I);
        [apply quantities_valid_save|intros ?; by apply hoare_ret]).
  9:{ eapply hoare_bind with (R := λ _, I); [|intros ?; by apply hoare_ret].
      apply hoare_query; [apply _| |done].
      intros w Hw. pose proof (remove_doc_sublist (cartItems w) id) as Hs.
      destruct (remove_doc id (cartItems w)) as [d cs]. simpl in *.
      by apply quantities_valid_sublist. }
  10:{ eapply hoare_bind with (R := λ _, I).
       { apply hoare_query; [apply _| |done].
         intros w Hw.
         apply quantities_valid_sublist; [apply sublist_nil_l|done]. }
       intros ?. eapply hoare_bind with (R := λ _, I); [by intros ? ?|].
       intros oid. eapply hoare_bind with (R := λ _, I); [by intros ? ?|].
       intros now. by apply hoare_ret. }
  all: keeps_walk I.
Qed.

(** No turn takes a product out of the catalog. *)
Lemma catalog_resume t pid :
  keeps (λ w, is_Some (lookup_product (products w) pid)) (resume t).
Proof.
  set (I := λ w, is_Some (lookup_product (products w) pid)). unfold keeps.
  destruct t; unfold resume, Product_countDocuments, Product_find,
    CartItem_find_populate, CartItem_findOne, Product_findById,
    CartItem_findById_populate, Product_insertMany, CartItem_deleteMany,
    CartItem_findByIdAndDelete, CartItem_save.
  2:{ eapply hoare_bind with (R := λ _, I); [|intros ?; by apply hoare_ret].
      apply hoare_query; [apply _| |done].
      intros w Hw. simpl. by apply lookup_product_app. }
  all: keeps_walk I.
Qed.

(** No turn takes the counter back. *)
Lemma counter_resume t (x : ObjectId) :
  keeps (λ w, (x < next_id w)%N) (resume t).
Proof.
  set (I := λ w : World, (x < next_id w)%N).
  assert (StoreOnly I) as HI by (by intros fs w Hw).
  unfold keeps.
  destruct t; unfold resume, Product_countDocuments, Product_find,
    CartItem_find_populate, CartItem_findOne, Product_findById,
    CartItem_findById_populate, Product_insertMany, CartItem_deleteMany,
    CartItem_findByIdAndDelete, CartItem_save.
  2:{ eapply hoare_bind with (R := λ _, I); [|intros ?; by apply hoare_ret].
      apply hoare_query; [apply _| |done].
      intros w Hw. subst I. simpl in *. lia. }
  7:{ eapply hoare_bind with (R := λ _, I);
        [apply hoare_query; [apply _|done..]|].
      intros [p|]; [|by apply hoare_ret].
      eapply hoare_bind with (R := λ _, I); [|intros ?; by apply hoare_ret].
      intros w Hw. subst I. simpl in *. lia. }
  11:{ eapply hoare_bind with (R := λ _, I);
        [apply hoare_query; [apply _|done..]|].
       intros ?. eapply hoare_bind with (R := λ _, I).
       { intros w Hw. subst I. simpl in *. lia. }
       intros oid. eapply hoare_bind with (R := λ _, I); [by intros ? ?|].
       intros now. by apply hoare_ret. }
  all: keeps_walk I.
Qed.

(** An id that is not in the collection is not put there by the turn of a
    task that is not about to insert it. *)
Lemma absent_resume t (x : ObjectId) :
  new_id t ≠ Some x →
  keeps (λ w, x ∉ map c_id (cartItems w)) (resume t).
Proof.
  intros Hx. set (I := λ w : World, x ∉ map c_id (cartItems w)).
  assert (StoreOnly I) as HI by (by intros fs w Hw).
  unfold keeps.
  destruct t; unfold resume, Product_countDocuments, Product_find,
    CartItem_find_populate, CartItem_findOne, Product_findById,
    CartItem_findById_populate, Product_insertMany, CartItem_deleteMany,
    CartItem_findByIdAndDelete.
  7:{ eapply hoare_bind with (R := λ _, I); [|intros ?; by apply hoare_ret].
      unfold CartItem_save. destruct (validate _); [|by apply hoare_throw].
      eapply hoare_bind with (R := λ _, I).
      + apply hoare_query; [apply _| |done].
        intros w Hw. subst I. simpl.
        destruct (update_quantity _ _ _) as [cs|] eqn:Hu; simpl; [|done].
        by rewrite (update_quantity_ids _ _ _ _ Hu).
      + intros [|]; [by apply hoare_ret|by apply hoare_throw]. }
  8:{ eapply hoare_bind with (R := λ _, I); [|intros ?; by apply hoare_ret].
      unfold CartItem_save. destruct (validate _); [|by apply hoare_throw].
      eapply hoare_bind with (R := λ _, I).
      + apply hoare_query; [apply _| |done].
        intros w Hw. subst I. simpl. rewrite map_app. simpl.
        rewrite elem_of_app, list_elem_of_singleton.
        intros [?| ->]; [done|]. by apply Hx.
      + intros [|]; [by apply hoare_ret|by apply hoare_throw]. }
  9:{ eapply hoare_bind with (R := λ _, I);
         [|intros [c|]; by apply hoare_ret].
       apply hoare_query; [apply _| |done].
       intros w Hw. pose proof (remove_doc_sublist (cartItems w) id) as Hs.
       destruct (remove_doc id (cartItems w)) as [d cs]. subst I. simpl in *.
       intros Hin. apply Hw. eapply elem_of_sublist; [exact Hin|].
       by apply fmap_sublist. }
  10:{ eapply hoare_bind with (R := λ _, I).
       { apply hoare_query; [apply _| |done].
         intros w Hw. subst I. simpl. apply not_elem_of_nil. }
       intros ?. eapply hoare_bind with (R := λ _, I); [by intros ? ?|].
       intros oid. eapply hoare_bind with (R := λ _, I); [by intros ? ?|].
       intros now. by apply hoare_ret. }
  all: keeps_walk I.
Qed.

Lemma task_ok_caught w t : task_ok w (caught t).
Proof. by destruct t. Qed.

Lemma new_id_caught t : new_id (caught t) = None.
Proof. by destruct t. Qed.

Lemma task_ok_start w r : task_ok w (start r).
Proof.
  destruct r as [| |[[pid|] [q|]]|id|]; simpl; try done.
  by destruct (_ || _).
Qed.

Lemma new_id_start r : new_id (start r) = None.
Proof.
  destruct r as [| |[[pid|] [q|]]|id|]; simpl; try done.
  by destruct (_ || _).
Qed.

(** A turn of a task keeps the store well formed; the task can rely on what
    it found, and so can every other task that is not about to insert the
    same id; a line item that is made in the turn has its id from the
    counter. *)
Lemma advance_ok t w :
  store_ok w → task_ok w t →
  store_ok (advance t w).2 ∧ task_ok (advance t w).2 (advance t w).1
  ∧ (∀ t', task_ok w t' → (∀ x, new_id t' = Some x → new_id t ≠ Some x) →
       task_ok (advance t w).2 t')
  ∧ (∀ x, new_id (advance t w).1 = Some x → x = next_id w).
Proof.
  intros (Hu & Hf & Hr & Hq) [Hfound Hfree]%task_ok_split. unfold advance.
  pose proof (ids_ok_resume t (next_id w) w
                (conj (conj Hu Hf) (conj Hfree eq_refl))) as Hi.
  pose proof (refs_resolve_resume t w (conj Hr Hfound)) as Hrr.
  pose proof (quantities_valid_resume t w Hq) as Hv.
  assert (∀ t', task_ok w t' → (∀ x, new_id t' = Some x → new_id t ≠ Some x) →
                match resume t w with (_, w') => task_ok w' t' end) as Hc.
  { intros [] Ht' Hne; try by destruct (resume t w) as [[]].
    destruct Ht' as (Hp & Hlt & Hnin).
    pose proof (catalog_resume t _ w Hp) as Hp'.
    pose proof (counter_resume t _ w Hlt) as Hlt'.
    pose proof (absent_resume t _ (Hne _ eq_refl) w Hnin) as Hnin'.
    by destruct (resume t w) as [[]]. }
  destruct (resume t w) as [[t'|e] w']; simpl.
  - destruct Hi as (Hi & Hfree' & Hnew), Hrr as [Hrr Hfound'].
    destruct Hi. split_and!; [done..|by apply task_ok_split|done|done].
  - destruct Hi. split_and!; [done..|apply task_ok_caught|done|].
    intros x. by rewrite new_id_caught.
Qed.

Lemma server_step_ok s s' : server_step s s' → server_ok s → server_ok s'.
Proof.
  intros Hs (Hw & Hts & Hnd).
  destruct Hs as [w ts|r w ts|i t w ts Hi|t fs w ts];
    unfold server_ok; simpl in *.
  - split_and!; [done| |].
    + apply Forall_app. split; [done|]. by constructor.
    + rewrite omap_app. simpl. by rewrite app_nil_r.
  - split_and!; [done| |].
    + apply Forall_app. split; [done|].
      constructor; [apply task_ok_start|done].
    + rewrite omap_app. simpl. rewrite new_id_start. by rewrite app_nil_r.
  - assert (task_ok w t) as Ht.
    { rewrite Forall_forall in Hts. by eapply Hts, list_elem_of_lookup_2. }
    destruct (advance_ok t w Hw Ht) as (Hw' & Ht' & Hframe & Hnew).
    pose proof (lookup_lt_Some _ _ _ Hi) as Hlen.
    rewrite <-(take_drop_middle _ _ _ Hi) in Hts, Hnd.
    rewrite insert_take_drop by done.
    set (l1 := take i ts) in *. set (l2 := drop (S i) ts) in *.
    rewrite omap_app in Hnd. simpl in Hnd.
    apply Forall_app in Hts as [H1 H2]. apply Forall_cons in H2 as [_ H2].
    assert (NoDup (omap new_id l1 ++ omap new_id l2)
            ∧ ∀ x, x ∈ omap new_id l1 ++ omap new_id l2 →
                   new_id t ≠ Some x) as [Hnd' Hne].
    { destruct (new_id t) as [y|]; [|done].
      apply NoDup_app in Hnd as (Hn1 & Hn12 & Hn2).
      apply NoDup_cons in Hn2 as [Hy Hn2]. split.
      - apply NoDup_app. split_and!; [done| |done].
        intros x Hx1 Hx2. apply (Hn12 x Hx1). by right.
      - intros x [Hx|Hx]%elem_of_app [= ->]; [|done].
        apply (Hn12 x Hx). by left. }
    assert (∀ t', t' ∈ l1 ++ l2 →
              task_ok (advance t w).2 t'
              ∧ ∀ x, new_id t' = Some x → (x < next_id w)%N) as Hothers.
    { intros t' Hin.
      assert (task_ok w t') as Hok.
      { apply elem_of_app in Hin as [Hin|Hin];
          [by eapply (proj1 (Forall_forall _ _) H1)
          |by eapply (proj1 (Forall_forall _ _) H2)]. }
      split.
      - apply Hframe; [done|]. intros x Hx. apply Hne.
        rewrite <-omap_app. apply list_elem_of_omap. by exists t'.
      - intros x Hx. destruct t'; try done. simpl in Hx, Hok.
        injection Hx as <-. tauto. }
    split_and!; [done| |].
    + apply Forall_app. split; [|constructor; [done|]].
      * apply Forall_forall. intros t' Hin. apply Hothers.
        apply elem_of_app. by left.
      * apply Forall_forall. intros t' Hin. apply Hothers.
        apply elem_of_app. by right.
    + simpl. rewrite omap_app. simpl.
      destruct (new_id (advance t w).1) as [x|] eqn:Hx; [|done].
      specialize (Hnew x eq_refl). subst x.
      apply NoDup_app in Hnd' as (Hn1 & Hn12 & Hn2).
      assert (∀ l, l ⊆ l1 ++ l2 → next_id w ∉ omap new_id l) as Hnot.
      { intros l Hl (t' & Hin & Hid)%list_elem_of_omap.
        destruct (Hothers t' (Hl _ Hin)) as [_ Hlt].
        specialize (Hlt _ Hid). lia. }
      apply NoDup_app. split_and!; [done| |].
      * intros x Hx1 [->|Hx2]%elem_of_cons; [|by eapply Hn12].
        revert Hx1. apply Hnot. intros ??. apply elem_of_app. by left.
      * apply NoDup_cons. split; [|done].
        apply Hnot. intros ??. apply elem_of_app. by right.
  - by split_and!.
Qed.

(** The database is only ever in well-formed worlds, also while requests
    overlap. *)
Lemma reachable_ok w : reachable w → store_ok w.
Proof.
  intros [ts Hr].
  assert (server_ok (mkServer w ts)) as [Hw _]; [|done].
  assert (server_ok (mkServer empty_world [])) as H0.
  { split_and!; [|constructor..]. repeat split; constructor. }
  revert H0. generalize (mkServer empty_world []) (mkServer w ts) Hr.
  induction 1 as [|s1 s2 s3 Hs _ IH]; [done|].
  intros H1. apply IH. by eapply server_step_ok.
Qed.

(** X14.  In every state that the database can be in, the handlers of
    several requests taking turns at their awaits included, the cart
    collection is well formed in this: line item ids are unique and were
    drawn from the counter, every line item refers to a product of the
    catalog, and every stored quantity is at least 1.  (That there is at
    most one line item per product is not among these: overlapping requests
    break it.) *)
Theorem reachable_well_formed (w : World) :
  reachable w →
  ids_unique w ∧ ids_fresh w ∧ refs_resolve w ∧ quantities_valid w.
Proof. apply reachable_ok. Qed.

Lemma reachable_well_formed_witness :
  ids_unique (database overlapped) ∧ ids_fresh (database overlapped)
  ∧ refs_resolve (database overlapped)
  ∧ quantities_valid (database overlapped).
Proof.
  apply (reachable_well_formed (database overlapped)), reachable_overlapped.
Defined.

Lemma reachable_mug_and_caps : reachable mug_and_caps.
Proof.
  apply (reach_handle (PostCart _)), (reach_handle (PostCart _)).
  apply reach_seed, reach_start.
Defined.

(** X15.  In every world the server reaches, while no query fails, a POST
    with a valid quantity for a product that is not in the catalog is
    answered 404 and changes nothing. *)
Theorem reachable_unknown_product (w : World) (pid : ObjectId) (q : Qc) :
  reachable w → healthy w → 1 ≤ q →
  lookup_product (products w) pid = None →
  run (post_cart (mkReq (Some pid) (Some q))) w
  = (Returned (mkResponse 404 (MessageBody "Product not found."%string)), w).
Proof.
  intros Hr H Hq Hl. destruct (reachable_ok w Hr) as (_ & _ & Hrr & _).
  by apply post_cart_unknown_product.
Qed.

Lemma reachable_unknown_product_witness :
  run (post_cart (mkReq (Some 42%N) (Some (Q2Qc 3)))) mug_and_caps
  = (Returned (mkResponse 404 (MessageBody "Product not found."%string)),
     mug_and_caps).
Proof.
  apply (reachable_unknown_product mug_and_caps 42%N (Q2Qc 3)).
  - apply reachable_mug_and_caps.
  - reflexivity.
  - by vm_compute.
  - reflexivity.
Defined.

(** ** Rounding *)

Lemma nearest_hundredth_exact (n : Z) (x : Q) :
  (x == n # 100)%Q → nearest_hundredth x = n.
Proof.
  intros Hx. unfold nearest_hundredth.
  assert ((x * 100 + (1 # 2) == inject_Z n + (1 # 2))%Q) as Heq.
  { rewrite Hx, (Qmake_Qdiv n 100).
    change (inject_Z (Z.pos 100)) with 100%Q. field. }
  rewrite (Qfloor_comp _ _ Heq).
  pose proof (Qfloor_le (inject_Z n + (1 # 2))) as Hle.
  pose proof (Qlt_floor (inject_Z n + (1 # 2))) as Hlt.
  set (m := Qfloor (inject_Z n + (1 # 2))) in *.
  assert ((inject_Z m < inject_Z (n + 1))%Q) as H1.
  { rewrite inject_Z_plus. change (inject_Z 1) with 1%Q. lra. }
  assert ((inject_Z n < inject_Z (m + 1))%Q) as H2 by lra.
  rewrite <-Zlt_Qlt in H1, H2. lia.
Qed.

Lemma toFixed2_exact (n : Z) : toFixed2 (Q2Qc (n # 100)) = Q2Qc (n # 100).
Proof.
  unfold toFixed2. case_bool_decide as Hneg.
  - rewrite (nearest_hundredth_exact (- n)).
    + apply Qc_is_canon. unfold Qcopp. cbn [this Q2Qc].
      rewrite !Qred_correct. unfold Qeq. simpl. lia.
    + cbn [this Q2Qc]. by rewrite Qred_correct.
  - rewrite (nearest_hundredth_exact n); [done|].
    cbn [this Q2Qc]. by rewrite Qred_correct.
Qed.

(** X16.  Rounding to two decimals is stable: an amount with two decimals
    is its own rounding, so rounding a rounded amount again changes
    nothing. *)
Theorem toFixed2_stable (x : Qc) (n : Z) :
  toFixed2 (Q2Qc (n # 100)) = Q2Qc (n # 100)
  ∧ toFixed2 (toFixed2 x) = toFixed2 x.
Proof.
  split; [apply toFixed2_exact|].
  destruct (toFixed2_hundredths x) as [m ->]. apply toFixed2_exact.
Qed.

(** * Properties of the client *)

(** ** Requests while no query fails *)

Lemma request_healthy (r : Request) (s : App) :
  healthy (server s) →
  (∃ b w', request r s = (Done b, mkApp (client s) w') ∧ healthy w')
  ∨ (∃ e, request r s = (Raised e, s)).
Proof.
  intros H. destruct (handle_healthy r (server s) H) as (resp & w' & Hrun & Hst).
  unfold request. rewrite Hrun.
  destruct Hst as [[Hok Hw']|[Hbad ->]].
  - left. exists (body resp), w'. by destruct Hok as [-> | ->].
  - right. exists (AxiosError (status resp)). destruct s.
    by destruct Hbad as [-> | ->].
Qed.

Lemma request_GetCart (s : App) :
  healthy (server s) → request GetCart s = (Done (cart_view (server s)), s).
Proof.
  intros H. unfold request. simpl. rewrite get_cart_healthy by done.
  by destruct s.
Qed.

Lemma request_PostCheckout (s : App) :
  healthy (server s) →
  request PostCheckout s
  = (Done (ReceiptBody true
       "Checkout successful! Thank you for your order."%string
       (mkOrder (map order_line
                   (map (populate (products (server s))) (cartItems (server s))))
          (parseFloat
             (toFixed2 (cart_total
                (map (populate (products (server s))) (cartItems (server s))))))
          (next_id (server s)) (clock (server s)))),
     mkApp (client s)
       (set_next_id (N.succ (next_id (server s)))
          (set_cartItems [] (server s)))).
Proof.
  intros H. unfold request. simpl. by rewrite post_checkout_healthy.
Qed.

(** After a request that went through, the cart is fetched and shown. *)
Lemma refetch_synced (s : App) (f : Client → Client) :
  healthy (server s) →
  (∀ c, cart (f c) = cart c) →
  ∀ s',
    (ui_bind (request GetCart)
       (λ r, ui_bind (setCart (Some r)) (λ _, set_client f)) s).2 = s' →
    synced s' ∧ server s' = server s.
Proof.
  intros H Hf s' <-. unfold ui_bind. rewrite request_GetCart by done.
  unfold setCart, set_client, synced. simpl. by rewrite Hf.
Qed.

(** ** The client shows the cart of the server *)

Lemma synced_add (s : App) productId qty :
  healthy (server s) → synced s →
  synced (handleAddToCart productId qty s).2
  ∧ healthy (server (handleAddToCart productId qty s).2).
Proof.
  intros H Hs. unfold synced in Hs.
  ui_unfold. rewrite Hs. cbn [cart_view].
  destruct (find_by_product productId _) as [existingItem|e].
  2:{ by destruct s. }
  match goal with |- context [request (PostCart ?req)] =>
    destruct (request_healthy (PostCart req) s H)
      as [(b & w' & -> & Hw')|[e ->]] end.
  - rewrite request_GetCart by done. by simpl.
  - by destruct s.
Qed.

Lemma synced_remove (s : App) cartItemId :
  healthy (server s) → synced s →
  synced (handleRemoveFromCart cartItemId s).2
  ∧ healthy (server (handleRemoveFromCart cartItemId s).2).
Proof.
  intros H Hs. ui_unfold.
  destruct (request_healthy (DeleteCart cartItemId) s H)
    as [(b & w' & -> & Hw')|[e ->]].
  - rewrite request_GetCart by done. by simpl.
  - by destruct s.
Qed.

Lemma synced_update (s : App) cartItemId newQuantity :
  healthy (server s) → synced s →
  synced (handleUpdateQuantity cartItemId newQuantity s).2
  ∧ healthy (server (handleUpdateQuantity cartItemId newQuantity s).2).
Proof.
  intros H Hs. unfold handleUpdateQuantity.
  case_bool_decide; [by apply synced_remove|].
  unfold synced in Hs.
  ui_unfold. rewrite Hs. cbn [cart_view].
  destruct (find _ _) as [[id [p|] q]|]; cbn [pop_product].
  - match goal with |- context [request (PostCart ?req)] =>
      destruct (request_healthy (PostCart req) s H)
        as [(b & w' & -> & Hw')|[e ->]] end.
    + rewrite request_GetCart by done. by simpl.
    + by destruct s.
  - by destruct s.
  - by destruct s.
Qed.

Lemma synced_submit (s : App) formData :
  healthy (server s) → synced s →
  synced (handleCheckoutSubmit formData s).2
  ∧ healthy (server (handleCheckoutSubmit formData s).2).
Proof.
  intros H Hs. unfold synced in Hs.
  ui_unfold. rewrite Hs. cbn [cart_view].
  rewrite request_PostCheckout by done.
  unfold synced, cart_view. simpl. rewrite total_empty.
  by destruct s as [c [ps cs n t fs]].
Qed.

Lemma request_GetProducts (s : App) :
  healthy (server s) →
  request GetProducts s = (Done (ProductsBody (products (server s))), s).
Proof.
  intros H. unfold request. simpl.
  assert (run get_products (server s)
          = (Returned (json (ProductsBody (products (server s)))), server s))
    as -> by (by healthy_world (server s) H).
  by destruct s.
Qed.

Lemma fetchInitialData_healthy (s : App) :
  healthy (server s) →
  fetchInitialData s
  = (Done tt,
     mkApp (mkClient (ProductsBody (products (server s)))
              (Some (cart_view (server s))) false None
              (isCartOpen (client s)) (isCheckoutModalOpen (client s))
              (alerts (client s)))
       (server s)).
Proof.
  intros H. ui_unfold.
  rewrite request_GetProducts by done. cbn [fst snd].
  rewrite request_GetCart by done. done.
Qed.

(** X17.  While no query fails, the cart the client shows is the cart of
    the server: the first fetch loads it, and every action of the user
    (add, change a quantity, remove, open the checkout, submit it) leaves
    the client showing what GET /api/cart answers, also when the action
    fails, and also after a checkout, where the client empties its cart
    without asking the server. *)
Theorem client_stays_synced (s : App) :
  healthy (server s) →
  (synced (fetchInitialData s).2
   ∧ healthy (server (fetchInitialData s).2)
   ∧ loading (client (fetchInitialData s).2) = false
   ∧ error (client (fetchInitialData s).2) = None
   ∧ ui_products (client (fetchInitialData s).2)
     = ProductsBody (products (server s)))
  ∧ (synced s → ∀ act, synced (perform act s).2
                       ∧ healthy (server (perform act s).2)).
Proof.
  intros H. split.
  - by rewrite fetchInitialData_healthy.
  - intros Hs [pid q|id q|id| |fd]; simpl.
    + by apply synced_add.
    + by apply synced_update.
    + by apply synced_remove.
    + unfold synced in *. ui_unfold. rewrite Hs. cbn [cart_view].
      by destruct (_ =? _)%nat.
    + by apply synced_submit.
Qed.

Lemma client_stays_synced_witness :
  synced loaded_shop
  ∧ synced (perform (AddToCart 0%N 1) loaded_shop).2
  ∧ synced (perform (CheckoutSubmit (""%string, ""%string)) loaded_shop).2.
Proof.
  destruct (client_stays_synced shop eq_refl) as [(Hs & Hh & _) _].
  destruct (client_stays_synced loaded_shop Hh) as [_ Hact].
  split_and!; [exact Hs|apply (Hact Hs)..].
Defined.

(** ** What the buttons do *)

Section Views.
Implicit Types (ps : list Product) (cs : list CartItem) (c : CartItem).

(** In a view whose products all resolve, the search of [handleAddToCart]
    finds the line item of the product. *)
Lemma find_by_product_view ps cs pid :
  Forall (λ x, is_Some (lookup_product ps x)) (map product cs) →
  find_by_product pid (map (populate ps) cs)
  = Done (populate ps <$> find (λ c, bool_decide (product c = pid)) cs).
Proof.
  induction cs as [|d cs IH]; [done|].
  intros [[p Hp] Hcs]%Forall_cons. cbn [map find_by_product find].
  unfold populate at 1. cbn [pop_product]. rewrite Hp.
  rewrite (lookup_product_id _ _ _ Hp).
  case_bool_decide; [|by apply IH].
  simpl. unfold populate. by rewrite Hp.
Qed.

Lemma find_by_id_view ps cs id :
  find (λ item, bool_decide (pop_id item = id)) (map (populate ps) cs)
  = populate ps <$> find (λ c, bool_decide (c_id c = id)) cs.
Proof.
  induction cs as [|d cs IH]; [done|]. simpl. by case_bool_decide.
Qed.
End Views.

(** A valid POST for a catalog product, sent by the client. *)
Lemma request_PostCart (s : App) pid q p :
  healthy (server s) → cart_inv (server s) →
  lookup_product (products (server s)) pid = Some p → 1 ≤ q →
  ∃ id w',
    request (PostCart (mkReq (Some pid) (Some q))) s
    = (Done (ItemBody (Some (mkPopulated id (Some p) q))), mkApp (client s) w')
    ∧ healthy w'
    ∧ filter (λ c, product c = pid) (cartItems w') = [mkCartItem id pid q].
Proof.
  intros H Hinv Hl Hq.
  destruct (post_cart_healthy _ pid q p H Hinv Hl Hq)
    as (id & w' & Hrun & Hw' & _ & Hfl).
  exists id, w'. unfold request. simpl. by rewrite Hrun.
Qed.

(** X18.  "Add to Cart" adds to what is there.  On a loaded page, over a
    well-formed store and while no query fails, adding [qty] (the button
    adds 1) of a catalog product leaves the store with one line item for the
    product; its quantity is [qty] when the product was not in the cart,
    and otherwise the sum of the quantity before and [qty] as doubles add,
    that is, rounded to the nearest double (a sum beyond the largest double
    aside).  The cart is opened and shows the new state. *)
Theorem add_to_cart_adds (s : App) (pid : ObjectId) (qty : Qc) (p : Product) :
  healthy (server s) → cart_inv (server s) → refs_resolve (server s) →
  quantities_valid (server s) → synced s →
  lookup_product (products (server s)) pid = Some p → 1 ≤ qty →
  let newQuantity :=
    match find (λ c, bool_decide (product c = pid)) (cartItems (server s)) with
    | Some c => js_add (quantity c) qty
    | None => qty
    end in
  finite newQuantity →
  let s' := (handleAddToCart pid qty s).2 in
  (∃ id, filter (λ c, product c = pid) (cartItems (server s'))
         = [mkCartItem id pid newQuantity])
  ∧ cart (client s') = Some (cart_view (server s'))
  ∧ isCartOpen (client s') = true
  ∧ error (client s') = error (client s).
Proof.
  intros H Hinv Hr Hv Hs Hl Hq newQuantity _. unfold synced in Hs. simpl.
  ui_unfold. rewrite Hs. cbn [cart_view].
  rewrite find_by_product_view by done.
  set (posted := match _ <$> _ with Some e => _ | None => qty end).
  assert (posted = newQuantity ∧ 1 ≤ newQuantity) as [-> Hnew].
  { subst posted newQuantity.
    destruct (find _ _) as [c|] eqn:Hf; simpl; [|done].
    split; [done|]. apply findOne_Some in Hf as [Hc _].
    unfold quantities_valid in Hv. rewrite Forall_forall in Hv.
    assert (1 ≤ quantity c) as Hc1 by by apply Hv, list_elem_of_fmap_2.
    apply js_add_ge_1; [done|]. by apply (Qcle_trans _ 1). }
  destruct (request_PostCart s pid newQuantity p H Hinv Hl Hnew)
    as (id & w' & -> & Hw' & Hfl).
  rewrite request_GetCart by done. simpl. split_and!; [by exists id|done..].
Qed.

(** The sample page is loaded over a well-formed store. *)
Lemma loaded_shop_facts :
  healthy (server loaded_shop) ∧ cart_inv (server loaded_shop)
  ∧ refs_resolve (server loaded_shop) ∧ quantities_valid (server loaded_shop)
  ∧ synced loaded_shop.
Proof.
  split_and!; [reflexivity| | | |reflexivity];
    apply (bool_decide_unpack _); by vm_compute.
Defined.

Lemma add_to_cart_adds_witness :
  let s' := (handleAddToCart 2%N 1 loaded_shop).2 in
  (∃ id, filter (λ c, product c = 2%N) (cartItems (server s'))
         = [mkCartItem id 2%N (js_add (Q2Qc 3) 1)])
  ∧ cart (client s') = Some (cart_view (server s'))
  ∧ isCartOpen (client s') = true
  ∧ error (client s') = error (client loaded_shop).
Proof.
  destruct loaded_shop_facts as (H & Hi & Hr & Hv & Hs).
  eapply (add_to_cart_adds loaded_shop 2%N 1 _ H Hi Hr Hv Hs).
  - reflexivity.
  - by vm_compute.
  - apply (bool_decide_unpack _). by vm_compute.
Defined.

(** The removal that the client asks for, on a store with unique ids. *)
Lemma request_DeleteCart (s : App) id :
  healthy (server s) → ids_unique (server s) →
  request (DeleteCart id) s
  = match find (λ c, bool_decide (c_id c = id)) (cartItems (server s)) with
    | Some d =>
        (Done (RemovedBody "Item removed from cart."%string d),
         mkApp (client s)
           (set_cartItems (filter (λ c, c_id c ≠ id) (cartItems (server s)))
              (server s)))
    | None => (Raised (AxiosError 404), s)
    end.
Proof.
  intros H Hi. unfold request. simpl. rewrite delete_cart_healthy by done.
  rewrite (remove_doc_filter _ id Hi). cbn [fst snd].
  destruct (find _ _) as [d|] eqn:Hf; [done|].
  rewrite filter_all.
  - by destruct s as [c []].
  - apply Forall_forall. intros c Hc Heq.
    apply findById_None in Hf. apply Hf. rewrite <-Heq.
    by apply list_elem_of_fmap_2.
Qed.

Lemma remove_ui (s : App) (id : ObjectId) :
  healthy (server s) → ids_unique (server s) →
  let s' := (handleRemoveFromCart id s).2 in
  (id ∈ map c_id (cartItems (server s)) →
     cartItems (server s') = filter (λ c, c_id c ≠ id) (cartItems (server s))
     ∧ cart (client s') = Some (cart_view (server s'))
     ∧ error (client s') = error (client s))
  ∧ (id ∉ map c_id (cartItems (server s)) →
     server s' = server s
     ∧ cart (client s') = cart (client s)
     ∧ error (client s') = Some "Failed to remove item."%string).
Proof.
  intros H Hi. simpl. ui_unfold. rewrite request_DeleteCart by done.
  split.
  - intros Hin. destruct (find _ _) as [d|] eqn:Hf.
    + rewrite request_GetCart by (by destruct s as [c []]). by simpl.
    + by apply findById_None in Hf.
  - intros Hnin. apply findById_None in Hnin. by rewrite Hnin.
Qed.

(** X19.  The bin button.  On a store with unique ids and while no query
    fails, removing a line item that the server has leaves exactly the
    other line items, and the client shows them; removing an id that the
    server does not have (a page that is out of date) changes nothing but
    the error of the client, set to "Failed to remove item.". *)
Theorem remove_from_cart_ui (s : App) (id : ObjectId) :
  healthy (server s) → ids_unique (server s) →
  let s' := (handleRemoveFromCart id s).2 in
  (id ∈ map c_id (cartItems (server s)) →
     cartItems (server s') = filter (λ c, c_id c ≠ id) (cartItems (server s))
     ∧ cart (client s') = Some (cart_view (server s'))
     ∧ error (client s') = error (client s))
  ∧ (id ∉ map c_id (cartItems (server s)) →
     server s' = server s
     ∧ cart (client s') = cart (client s)
     ∧ error (client s') = Some "Failed to remove item."%string).
Proof. apply remove_ui. Qed.

Lemma remove_from_cart_ui_witness :
  (let s' := (handleRemoveFromCart 6%N loaded_shop).2 in
   cartItems (server s')
   = filter (λ c, c_id c ≠ 6%N) (cartItems (server loaded_shop))
   ∧ cart (client s') = Some (cart_view (server s'))
   ∧ error (client s') = error (client loaded_shop))
  ∧ (let s' := (handleRemoveFromCart 99%N loaded_shop).2 in
     server s' = server loaded_shop
     ∧ cart (client s') = cart (client loaded_shop)
     ∧ error (client s') = Some "Failed to remove item."%string).
Proof.
  assert (ids_unique (server loaded_shop)) as Hi
    by (apply (bool_decide_unpack _); by vm_compute).
  split.
  - apply (remove_from_cart_ui loaded_shop 6%N eq_refl Hi).
    apply (bool_decide_unpack _). by vm_compute.
  - apply (remove_from_cart_ui loaded_shop 99%N eq_refl Hi).
    apply (bool_decide_unpack _). by vm_compute.
Defined.

(** What [handleUpdateQuantity] does with a quantity of at least 1 for a
    line item that the client shows. *)
Lemma update_quantity_ui (s : App) (c : CartItem) (q : Qc) :
  healthy (server s) → cart_inv (server s) → refs_resolve (server s) →
  synced s → c ∈ cartItems (server s) → 1 ≤ q →
  let s' := (handleUpdateQuantity (c_id c) q s).2 in
  (∃ id, filter (λ d, product d = product c) (cartItems (server s'))
         = [mkCartItem id (product c) q])
  ∧ cart (client s') = Some (cart_view (server s'))
  ∧ error (client s') = error (client s).
Proof.
  intros H Hinv Hr Hs Hc Hq. pose proof Hinv as (_ & Hi & _).
  unfold synced in Hs. simpl. unfold handleUpdateQuantity.
  rewrite bool_decide_eq_false_2 by by apply Qcle_not_lt.
  ui_unfold. rewrite Hs. cbn [cart_view].
  rewrite find_by_id_view, (find_by_id_stored _ c Hi Hc).
  cbn [fmap option_fmap option_map]. unfold populate. cbn [pop_product].
  unfold refs_resolve in Hr. rewrite Forall_forall in Hr.
  destruct (Hr (product c)) as [p Hp]; [by apply list_elem_of_fmap_2|].
  rewrite Hp, (lookup_product_id _ _ _ Hp).
  destruct (request_PostCart s (product c) q p H Hinv Hp Hq)
    as (id & w' & -> & Hw' & Hfl).
  rewrite request_GetCart by done. simpl. split_and!; [by exists id|done..].
Qed.

(** X20.  The quantity buttons of a line of the cart.  On a loaded page over
    a well-formed store, while no query fails: plus stores the quantity
    plus 1, as doubles add (rounded to the nearest double, so that a
    quantity of 2^53 stays what it is); minus stores the quantity minus 1,
    as doubles subtract, when that is at least 1, and otherwise removes the
    line item (so minus on a quantity of 1 removes it). *)
Theorem quantity_buttons (s : App) (c : CartItem) :
  healthy (server s) → cart_inv (server s) → refs_resolve (server s) →
  quantities_valid (server s) → synced s → c ∈ cartItems (server s) →
  let item := populate (products (server s)) c in
  (∃ id, filter (λ d, product d = product c)
           (cartItems (server (plus_click item s).2))
         = [mkCartItem id (product c) (js_add (quantity c) 1)])
  ∧ (1 ≤ js_sub (quantity c) 1 →
     ∃ id, filter (λ d, product d = product c)
             (cartItems (server (minus_click item s).2))
           = [mkCartItem id (product c) (js_sub (quantity c) 1)])
  ∧ (js_sub (quantity c) 1 < 1 →
     cartItems (server (minus_click item s).2)
     = filter (λ d, c_id d ≠ c_id c) (cartItems (server s))).
Proof.
  intros H Hinv Hr Hv Hs Hc. pose proof Hinv as (_ & Hi & _). simpl.
  unfold plus_click, minus_click, populate. cbn [pop_id pop_quantity].
  split_and!.
  - apply update_quantity_ui; try done.
    unfold quantities_valid in Hv. rewrite Forall_forall in Hv.
    assert (1 ≤ quantity c) as Hc1 by by apply Hv, list_elem_of_fmap_2.
    by apply js_add_ge_1.
  - intros Hq. by apply update_quantity_ui.
  - intros Hq. unfold handleUpdateQuantity.
    rewrite bool_decide_eq_true_2 by done.
    apply (remove_ui s (c_id c) H Hi). by apply list_elem_of_fmap_2.
Qed.

(** The mug, of which the cart has one, and the caps, of which it has
    three. *)
Lemma quantity_buttons_witness :
  (cartItems (server (minus_click
      (populate (products mug_and_caps) (mkCartItem 6%N 3%N (Q2Qc 1)))
      loaded_shop).2)
   = filter (λ d, c_id d ≠ 6%N) (cartItems (server loaded_shop)))
  ∧ (∃ id, filter (λ d, product d = 2%N)
             (cartItems (server (minus_click
                (populate (products mug_and_caps) (mkCartItem 7%N 2%N (Q2Qc 3)))
                loaded_shop).2))
           = [mkCartItem id 2%N (js_sub (Q2Qc 3) 1)]).
Proof.
  destruct loaded_shop_facts as (H & Hi & Hr & Hv & Hs).
  split.
  - assert (mkCartItem 6%N 3%N (Q2Qc 1) ∈ cartItems (server loaded_shop))
      as Hc by (apply (bool_decide_unpack _); by vm_compute).
    destruct (quantity_buttons loaded_shop _ H Hi Hr Hv Hs Hc) as (_ & _ & Hrm).
    apply Hrm. by vm_compute.
  - assert (mkCartItem 7%N 2%N (Q2Qc 3) ∈ cartItems (server loaded_shop))
      as Hc by (apply (bool_decide_unpack _); by vm_compute).
    destruct (quantity_buttons loaded_shop _ H Hi Hr Hv Hs Hc) as (_ & Hm & _).
    apply Hm. by vm_compute.
Defined.

(** ** Errors of the client *)

Section UiLogic.
Context (P : Client → Prop).

Lemma ui_keeps_ret {A} (a : A) : ui_keeps P (mret a).
Proof. by intros s. Qed.

Lemma ui_keeps_throw {A} e : ui_keeps P (@ui_throw A e).
Proof. by intros s. Qed.

Lemma ui_keeps_bind {A B} (m : Ui A) (k : A → Ui B) :
  ui_keeps P m → (∀ a, ui_keeps P (k a)) → ui_keeps P (m ≫= k).
Proof.
  intros Hm Hk s Hs. specialize (Hm s Hs).
  unfold mbind, Ui_bind, ui_bind. destruct (m s) as [[a|e] s']; [|done].
  by apply Hk.
Qed.

Lemma ui_keeps_try {A} (m : Ui A) (h : JsError → Ui A) :
  ui_keeps P m → (∀ e, ui_keeps P (h e)) → ui_keeps P (ui_try m h).
Proof.
  intros Hm Hh s Hs. specialize (Hm s Hs).
  unfold ui_try. destruct (m s) as [[a|e] s']; [done|]. by apply Hh.
Qed.

Lemma ui_keeps_request r : ui_keeps P (request r).
Proof.
  intros s Hs. unfold request.
  destruct (run (handle r) (server s)) as [[resp|e] w']; [|done].
  by destruct (_ && _).
Qed.

Lemma ui_keeps_set f : (∀ c, P c → P (f c)) → ui_keeps P (set_client f).
Proof. intros Hf s Hs. by apply Hf. Qed.

Lemma ui_keeps_of_result {A} (r : Result A) : ui_keeps P (of_result r).
Proof. by intros s. Qed.

Lemma ui_keeps_cart_cartItems : ui_keeps P cart_cartItems.
Proof.
  intros s Hs. unfold cart_cartItems, get_cart_state, mbind, Ui_bind, ui_bind.
  by destruct (cart (client s)) as [[]|].
Qed.

Lemma ui_keeps_defined {A} (o : option A) : ui_keeps P (defined o).
Proof. intros s Hs. by destruct o. Qed.
End UiLogic.

(** Walks through a handler of the client. *)
Ltac ui_walk :=
  repeat (cbv beta;
    lazymatch goal with
    | |- ui_keeps _ (mret _) => apply ui_keeps_ret
    | |- ui_keeps _ (ui_throw _) => apply ui_keeps_throw
    | |- ui_keeps _ (mbind _ _) => apply ui_keeps_bind; [|intros ?]
    | |- ui_keeps _ (ui_try _ _) => apply ui_keeps_try; [|intros ?]
    | |- ui_keeps _ (request _) => apply ui_keeps_request
    | |- ui_keeps _ (of_result _) => apply ui_keeps_of_result
    | |- ui_keeps _ cart_cartItems => apply ui_keeps_cart_cartItems
    | |- ui_keeps _ (defined _) => apply ui_keeps_defined
    | |- ui_keeps _ (set_client _) => apply ui_keeps_set; by intros []
    | |- ui_keeps _ (match ?x with _ => _ end) => destruct x
    end).

(** X21.  No action clears the error.  Once the client has an error (a
    request was refused, or a handler threw), whatever the user does next and
    whatever the server answers, the client still has an error: only the
    first fetch resets it, and that runs once. *)
Theorem error_is_kept (act : Action) (s : App) :
  is_Some (error (client s)) → is_Some (error (client (perform act s).2)).
Proof.
  revert s. change (ui_keeps (λ c, is_Some (error c)) (perform act)).
  destruct act as [pid q|id q|id| |fd]; simpl;
    unfold handleAddToCart, handleUpdateQuantity, handleRemoveFromCart,
      handleCheckout, handleCheckoutSubmit, setCart, setError, setIsCartOpen,
      setIsCheckoutModalOpen, alert;
    ui_walk.
Qed.

Lemma error_is_kept_witness :
  is_Some (error (client
    (perform (AddToCart 3%N 1)
       (perform (RemoveFromCart 99%N) loaded_shop).2).2)).
Proof. apply error_is_kept. by eexists. Defined.

Lemma find_by_product_raises pid pre item post :
  pop_product item = None →
  Forall (λ i, p_id <$> pop_product i ≠ Some pid) pre →
  find_by_product pid (pre ++ item :: post) = Raised TypeError.
Proof.
  intros Hitem. induction 1 as [|i pre Hi _ IH]; simpl.
  - by rewrite Hitem.
  - destruct (pop_product i) as [p|]; [|done].
    rewrite bool_decide_eq_false_2; [done|]. intros Hp. apply Hi.
    simpl. by rewrite Hp.
Qed.

(** X22.  A line item that has lost its product breaks "Add to Cart".  When
    the cart the client shows has such a line, and no line before it is for
    the product being added, the search of the handler throws on it: no
    request is sent, the server and the shown cart are as before, and the
    client has the error "Failed to add item to cart.". *)
Theorem add_with_lost_product
    (s : App) (pid : ObjectId) (qty : Qc)
    (pre post : list Populated) (item : Populated) (t : Qc) :
  cart (client s) = Some (CartBody (pre ++ item :: post) t) →
  pop_product item = None →
  Forall (λ i, p_id <$> pop_product i ≠ Some pid) pre →
  handleAddToCart pid qty s
  = (Done tt,
     mkApp (mkClient (ui_products (client s)) (cart (client s))
              (loading (client s)) (Some "Failed to add item to cart."%string)
              (isCartOpen (client s)) (isCheckoutModalOpen (client s))
              (alerts (client s)))
       (server s)).
Proof.
  intros Hc Hitem Hpre. ui_unfold. rewrite Hc.
  rewrite (find_by_product_raises pid pre item post Hitem Hpre).
  by rewrite Hc.
Qed.

Lemma add_with_lost_product_witness :
  handleAddToCart 3%N 1 stale_shop
  = (Done tt,
     mkApp (mkClient (ui_products (client stale_shop)) (cart (client stale_shop))
              (loading (client stale_shop))
              (Some "Failed to add item to cart."%string)
              (isCartOpen (client stale_shop))
              (isCheckoutModalOpen (client stale_shop))
              (alerts (client stale_shop)))
       (server stale_shop)).
Proof.
  eapply (add_with_lost_product stale_shop 3%N 1 [] []
            (mkPopulated 0%N None (Q2Qc 1)));
    [reflexivity|reflexivity|constructor].
Defined.

(** ** Checkout through the client *)

(** X23.  Checkout, from the cart to the receipt.  On a loaded page, while
    no query fails: with an empty cart "Proceed to Checkout" does nothing,
    so the form is never opened on an empty cart; with a cart that is not
    empty it closes the cart and opens the form, and submitting the form
    empties the cart of the server, empties the shown cart, closes the form
    and shows the id of the order. *)
Theorem checkout_flow (s : App) (formData : string * string) :
  healthy (server s) → synced s →
  (cartItems (server s) = [] → handleCheckout s = (Done tt, s))
  ∧ (cartItems (server s) ≠ [] →
     let s1 := (handleCheckout s).2 in
     let s2 := (handleCheckoutSubmit formData s1).2 in
     isCartOpen (client s1) = false
     ∧ isCheckoutModalOpen (client s1) = true
     ∧ server s1 = server s
     ∧ cartItems (server s2) = []
     ∧ cart (client s2) = Some (CartBody [] 0)
     ∧ isCheckoutModalOpen (client s2) = false
     ∧ alerts (client s2) = alerts (client s) ++ [next_id (server s)]
     ∧ error (client s2) = error (client s)).
Proof.
  intros H Hs. unfold synced in Hs. split.
  - intros He. ui_unfold. rewrite Hs. cbn [cart_view]. by rewrite He.
  - intros Hne. simpl.
    assert (handleCheckout s
            = (Done tt,
               mkApp (mkClient (ui_products (client s)) (cart (client s))
                        (loading (client s)) (error (client s)) false true
                        (alerts (client s)))
                 (server s))) as ->.
    { ui_unfold. rewrite Hs. cbn [cart_view].
      destruct (cartItems (server s)); [done|]. simpl. by rewrite Hs. }
    cbn [snd]. ui_unfold. cbn [client cart]. rewrite Hs. cbn [cart_view].
    rewrite request_PostCheckout by done. by simpl.
Qed.

Lemma checkout_flow_witness :
  let s1 := (handleCheckout loaded_shop).2 in
  let s2 := (handleCheckoutSubmit ("Ada"%string, "ada@example.com"%string) s1).2 in
  isCartOpen (client s1) = false
  ∧ isCheckoutModalOpen (client s1) = true
  ∧ server s1 = server loaded_shop
  ∧ cartItems (server s2) = []
  ∧ cart (client s2) = Some (CartBody [] 0)
  ∧ isCheckoutModalOpen (client s2) = false
  ∧ alerts (client s2)
    = alerts (client loaded_shop) ++ [next_id (server loaded_shop)]
  ∧ error (client s2) = error (client loaded_shop).
Proof.
  apply (checkout_flow loaded_shop); [reflexivity|reflexivity|].
  by vm_compute.
Defined.

(** X24.  A checkout that fails clears nothing.  When the server rejects
    the checkout because its first query fails, the client keeps the form
    open and the cart it showed, and has the error "Checkout failed. Please
    try again."; the collections of the server are as before. *)
Theorem checkout_submit_failure
    (s : App) (formData : string * string) (b : Body) (fs : list bool) :
  cart (client s) = Some b → faults (server s) = true :: fs →
  handleCheckoutSubmit formData s
  = (Done tt,
     mkApp (mkClient (ui_products (client s)) (cart (client s))
              (loading (client s))
              (Some "Checkout failed. Please try again."%string)
              (isCartOpen (client s)) (isCheckoutModalOpen (client s))
              (alerts (client s)))
       (set_faults fs (server s))).
Proof.
  intros Hc Hf. ui_unfold. rewrite Hc.
  assert (request PostCheckout s
          = (Raised (AxiosError 500), mkApp (client s) (set_faults fs (server s))))
    as Hreq.
  { unfold request. simpl. destruct (server s) as [ps cs n t fs'].
    simpl in Hf. subst fs'. by io_unfold. }
  destruct b; rewrite Hreq; simpl; by rewrite Hc.
Qed.

Lemma checkout_submit_failure_witness :
  let s := mkApp (client loaded_shop) (set_faults [true] mug_and_caps) in
  handleCheckoutSubmit (""%string, ""%string) s
  = (Done tt,
     mkApp (mkClient (ui_products (client s)) (cart (client s))
              (loading (client s))
              (Some "Checkout failed. Please try again."%string)
              (isCartOpen (client s)) (isCheckoutModalOpen (client s))
              (alerts (client s)))
       (set_faults [] (server s))).
Proof.
  eapply (checkout_submit_failure
            (mkApp (client loaded_shop) (set_faults [true] mug_and_caps)));
    reflexivity.
Defined.
